(** * WebAnn front-end: tokenizer, annotation model and relation validator

    A shallow embedding of the in-memory editing model of the annotation
    front-end (tokens/tokenize.js, core/helpers.js, modals/entity.js,
    modals/relation.js, render/relations.js, main.js) together with the
    properties its design document states about it.

    JavaScript strings are sequences of UTF-16 code units; they are kept
    as [list N].  Offsets and token indices are JavaScript numbers that
    only ever hold small integers here; they are kept as [Z] and [nat]. *)

From Stdlib Require Import String Ascii.
From Stdlib Require Import NArith ZArith Bool Arith Lia.
From Stdlib Require Import DecimalString DecimalNat.
From Stdlib Require Finite.
From Stdlib Require Import Permutation.
From Stdlib Require Import List.
Import ListNotations.

Set Implicit Arguments.
Local Open Scope bool_scope.

(* ================================================================== *)
(** * Strings *)

Definition jsstring := list N.

(** An ASCII literal of the source, as code units. *)
Definition lit (s : String.string) : jsstring :=
  map N_of_ascii (list_ascii_of_string s).

Fixpoint str_eqb (a b : jsstring) : bool :=
  match a, b with
  | [], [] => true
  | x :: a', y :: b' => N.eqb x y && str_eqb a' b'
  | _, _ => false
  end.

(** [===] between two values that are a string or [null]. *)
Definition ostr_eqb (a b : option jsstring) : bool :=
  match a, b with
  | None, None => true
  | Some x, Some y => str_eqb x y
  | _, _ => false
  end.

(** [xs.includes(x)] on an array of strings. *)
Definition includes (xs : list jsstring) (x : jsstring) : bool :=
  existsb (str_eqb x) xs.

(** ECMAScript WhiteSpace and LineTerminator: the characters matched by
    [\s] and removed by [String.prototype.trim]. *)
Definition is_space (c : N) : bool :=
  existsb (N.eqb c)
    [0x09; 0x0A; 0x0B; 0x0C; 0x0D; 0x20; 0xA0; 0x1680;
     0x2028; 0x2029; 0x202F; 0x205F; 0x3000; 0xFEFF]%N
  || ((0x2000 <=? c) && (c <=? 0x200A))%N.

(** [\w] without the [i] flag: [A-Za-z0-9_]. *)
Definition is_word (c : N) : bool :=
  ((0x41 <=? c) && (c <=? 0x5A))%N || ((0x61 <=? c) && (c <=? 0x7A))%N
  || ((0x30 <=? c) && (c <=? 0x39))%N || (c =? 0x5F)%N.

(** [[^\w\s]] *)
Definition is_other (c : N) : bool := negb (is_word c) && negb (is_space c).

Fixpoint drop_space (s : jsstring) : jsstring :=
  match s with
  | c :: s' => if is_space c then drop_space s' else s
  | [] => []
  end.

(** [s.trim()] *)
Definition trim (s : jsstring) : jsstring :=
  rev (drop_space (rev (drop_space s))).

(** Truthiness of a value that is a string or [null]: [null] and the
    empty string are falsy. *)
Definition truthy (o : option jsstring) : bool :=
  match o with
  | Some (_ :: _) => true
  | _ => false
  end.

(* ================================================================== *)
(** * Tokenizer (tokens/tokenize.js) *)

(** ** Reading a string under the [u] flag

    With the [u] flag the matcher advances by code points: a high
    surrogate directly followed by a low surrogate is one character of
    two code units, every other code unit is a character of its own. *)

Definition is_high (u : N) : bool := ((0xD800 <=? u) && (u <=? 0xDBFF))%N.
Definition is_low (u : N) : bool := ((0xDC00 <=? u) && (u <=? 0xDFFF))%N.

Definition pair_cp (h l : N) : N :=
  (0x10000 + (h - 0xD800) * 0x400 + (l - 0xDC00))%N.

(** A character as the matcher sees it: its code point and the code
    units that spell it in the string. *)
Record cpoint := { cp_val : N; cp_units : jsstring }.

Fixpoint code_points (s : jsstring) : list cpoint :=
  match s with
  | [] => []
  | u :: r =>
      match r with
      | l :: r' =>
          if is_high u && is_low l
          then {| cp_val := pair_cp u l; cp_units := [u; l] |} :: code_points r'
          else {| cp_val := u; cp_units := [u] |} :: code_points r
      | [] => [{| cp_val := u; cp_units := [u] |}]
      end
  end.

Definition units_of (l : list cpoint) : jsstring := concat (map cp_units l).

(** Greedy [c+] / [c*] for a character class [p]: the longest prefix of
    characters in the class, and what follows it. *)
Fixpoint span_class (p : N -> bool) (l : list cpoint) : list cpoint * list cpoint :=
  match l with
  | c :: l' =>
      if p (cp_val c)
      then let (m, r) := span_class p l' in (c :: m, r)
      else ([], l)
  | [] => ([], [])
  end.

(** One attempt of [(\s+|\w+|[^\w\s])] at the current position;
    alternatives are tried left to right. *)
Definition match_token (l : list cpoint) : option (list cpoint * list cpoint) :=
  match span_class is_space l with
  | (c :: m, r) => Some (c :: m, r)
  | ([], _) =>
      match span_class is_word l with
      | (c :: m, r) => Some (c :: m, r)
      | ([], _) =>
          match l with
          | c :: r => if is_other (cp_val c) then Some ([c], r) else None
          | [] => None
          end
      end
  end.

(** [re.exec(text)] from [lastIndex]: the first position at or after it
    where the pattern matches.  The result is the characters stepped
    over, the match, and the rest (the new [lastIndex]); [None] is
    [null]. *)
Fixpoint exec (l : list cpoint) : option (list cpoint * list cpoint * list cpoint) :=
  match match_token l with
  | Some (m, r) => Some ([], m, r)
  | None =>
      match l with
      | [] => None
      | c :: l' =>
          match exec l' with
          | Some (sk, m, r) => Some (c :: sk, m, r)
          | None => None
          end
      end
  end.

(** [/\s/u.test(tok)] *)
Definition test_space (tok : jsstring) : bool :=
  existsb (fun c => is_space (cp_val c)) (code_points tok).

Record Token := {
  t_text : jsstring;
  t_start : Z;
  t_end : Z;
  t_isSpace : bool
}.

Definition str_length (s : jsstring) : Z := Z.of_nat (length s).

(** The [while] loop of [tokenizeWithOffsets]; [i] is the running
    offset kept by the source, [l] is what remains after [lastIndex].
    [None] only when the fuel runs out. *)
Fixpoint tokenize_loop (fuel : nat) (l : list cpoint) (i : Z) : option (list Token) :=
  match fuel with
  | O => None
  | S fuel' =>
      match exec l with
      | None => Some []
      | Some (_, m, r) =>
          let tok := units_of m in
          let isSpace := test_space tok in
          match tokenize_loop fuel' r (i + str_length tok) with
          | Some toks =>
              Some ({| t_text := tok; t_start := i;
                       t_end := i + str_length tok; t_isSpace := isSpace |} :: toks)
          | None => None
          end
      end
  end.

Definition tokenizeWithOffsets (text : jsstring) : option (list Token) :=
  tokenize_loop (S (length text)) (code_points text) 0.

(** Tokens laid end to end from offset [from] up to offset [to]. *)
Fixpoint tiles (toks : list Token) (from to : Z) : Prop :=
  match toks with
  | [] => from = to
  | t :: r =>
      t_start t = from /\ t_end t = (from + str_length (t_text t))%Z
      /\ (t_start t < t_end t)%Z /\ tiles r (t_end t) to
  end.

Definition whitespace_only (s : jsstring) : Prop := forallb is_space s = true.

(** What [renderText] stores in [state.tokens]. *)
Definition tokens_of (text : jsstring) : list Token :=
  match tokenizeWithOffsets text with
  | Some toks => toks
  | None => []
  end.

(* ================================================================== *)
(** * Data model (core/state.js) *)

(** Attribute values as they come from the forms and from JSON.  A
    number is named by its canonical rendering ([String(x)]), which
    identifies it up to the equality that [includes] uses. *)
Inductive AttrValue :=
| VNull
| VStr (s : jsstring)
| VNum (repr : jsstring)
| VBool (b : bool).

(** A JavaScript object used as a record of attributes: its own keys in
    insertion order.  A missing key reads as [undefined]. *)
Definition attrs := list (jsstring * AttrValue).

Fixpoint lookup {A : Type} (k : jsstring) (m : list (jsstring * A)) : option A :=
  match m with
  | [] => None
  | (k', v) :: m' => if str_eqb k' k then Some v else lookup k m'
  end.

(** The names every object inherits from [Object.prototype]: a read
    [obj[name]] of such a name finds the inherited member when the object
    has no key of its own by that name, and [name in obj] holds. *)
Definition object_prototype_names : list jsstring :=
  map lit
    ["constructor"; "hasOwnProperty"; "isPrototypeOf"; "propertyIsEnumerable";
     "toLocaleString"; "toString"; "valueOf"; "__proto__";
     "__defineGetter__"; "__defineSetter__";
     "__lookupGetter__"; "__lookupSetter__"]%string.

Definition inherited (name : jsstring) : bool :=
  includes object_prototype_names name.

(** What a property read [obj[key]] yields: the value stored under an
    own key, an inherited member of [Object.prototype] (a function, or
    for [__proto__] the prototype object itself: truthy, and none of the
    values a document or a schema stores), or [undefined]. *)
Inductive Member (A : Type) :=
| Own (v : A)
| Inherited
| Missing.

Arguments Inherited {A}.
Arguments Missing {A}.

(** [obj[key]], [m] being the own keys of [obj]. *)
Definition get {A : Type} (key : jsstring) (m : list (jsstring * A)) : Member A :=
  match lookup key m with
  | Some v => Own v
  | None => if inherited key then Inherited else Missing
  end.

Record Entity := {
  e_id : jsstring;
  e_class : jsstring;
  e_label : jsstring;
  e_attrs : attrs;
  e_span : Z * Z;
  e_tokenRange : nat * nat
}.

Record AttrOrder := {
  ao_subject : list jsstring;
  ao_object : list jsstring;
  ao_statement : list jsstring
}.

Record Relation := {
  r_id : jsstring;
  r_predicate : option jsstring;
  r_subject : option jsstring;
  r_object : option jsstring;
  r_attrs : attrs;
  r_attrOrder : option AttrOrder
}.

(** Attribute specifications of the relation schema.  [as_nullable] is
    [None] when the key is absent. *)
Inductive AttrKind :=
| KEnum (allowed : list AttrValue)
| KNumber
| KEntity (classes : list jsstring)
| KOther.

Record AttrSpec := { as_nullable : option bool; as_kind : AttrKind }.

Record RelSpec := {
  rs_subject : option (list jsstring);
  rs_object : option (list jsstring);
  rs_attributes : option (list (jsstring * AttrSpec))
}.

Record Selection := { startIdx : option nat; endIdx : option nat }.

Inductive Mode := ModeCreate | ModeEdit.

Record Doc := { doc_id : jsstring; doc_text : jsstring }.

(** [state] and [ui] of core/state.js, in one record. *)
Record State := {
  texts_cursor : Z;
  texts_total : Z;
  current : option Doc;
  tokens : list Token;
  selection : Selection;
  annotations : list Entity;
  saved_exists : bool;
  saved_wasEmpty : bool;
  relations : list Relation;
  relationsMeta : list (jsstring * RelSpec);
  ui_mode : Mode;
  ui_editId : option jsstring;
  ui_relEditingId : option jsstring;
  ui_dirty : bool
}.

Definition set_annotations (st : State) (a : list Entity) : State :=
  {| texts_cursor := texts_cursor st; texts_total := texts_total st;
     current := current st; tokens := tokens st; selection := selection st;
     annotations := a;
     saved_exists := saved_exists st; saved_wasEmpty := saved_wasEmpty st;
     relations := relations st; relationsMeta := relationsMeta st;
     ui_mode := ui_mode st; ui_editId := ui_editId st;
     ui_relEditingId := ui_relEditingId st; ui_dirty := ui_dirty st |}.

Definition set_relations (st : State) (r : list Relation) : State :=
  {| texts_cursor := texts_cursor st; texts_total := texts_total st;
     current := current st; tokens := tokens st; selection := selection st;
     annotations := annotations st;
     saved_exists := saved_exists st; saved_wasEmpty := saved_wasEmpty st;
     relations := r; relationsMeta := relationsMeta st;
     ui_mode := ui_mode st; ui_editId := ui_editId st;
     ui_relEditingId := ui_relEditingId st; ui_dirty := ui_dirty st |}.

Definition set_selection (st : State) (s : Selection) : State :=
  {| texts_cursor := texts_cursor st; texts_total := texts_total st;
     current := current st; tokens := tokens st; selection := s;
     annotations := annotations st;
     saved_exists := saved_exists st; saved_wasEmpty := saved_wasEmpty st;
     relations := relations st; relationsMeta := relationsMeta st;
     ui_mode := ui_mode st; ui_editId := ui_editId st;
     ui_relEditingId := ui_relEditingId st; ui_dirty := ui_dirty st |}.

Definition set_dirty (st : State) (d : bool) : State :=
  {| texts_cursor := texts_cursor st; texts_total := texts_total st;
     current := current st; tokens := tokens st; selection := selection st;
     annotations := annotations st;
     saved_exists := saved_exists st; saved_wasEmpty := saved_wasEmpty st;
     relations := relations st; relationsMeta := relationsMeta st;
     ui_mode := ui_mode st; ui_editId := ui_editId st;
     ui_relEditingId := ui_relEditingId st; ui_dirty := d |}.

Definition set_entity_modal (st : State) (m : Mode) (id : option jsstring) : State :=
  {| texts_cursor := texts_cursor st; texts_total := texts_total st;
     current := current st; tokens := tokens st; selection := selection st;
     annotations := annotations st;
     saved_exists := saved_exists st; saved_wasEmpty := saved_wasEmpty st;
     relations := relations st; relationsMeta := relationsMeta st;
     ui_mode := m; ui_editId := id;
     ui_relEditingId := ui_relEditingId st; ui_dirty := ui_dirty st |}.

Definition no_selection : Selection := {| startIdx := None; endIdx := None |}.

(** A handler either runs to its end or throws. *)
Inductive outcome (A : Type) :=
| Returned (a : A)
| Threw.
Arguments Threw {A}.

(** [arr.find(p)] is [List.find]; this is the in-place update of the
    element [find] returns. *)
Fixpoint update_first {A : Type} (p : A -> bool) (f : A -> A) (l : list A) : list A :=
  match l with
  | [] => []
  | x :: l' => if p x then f x :: l' else x :: update_first p f l'
  end.

(** [String(n)] for a natural number, and the template [`T${n}`]. *)
Definition decimal (n : nat) : jsstring :=
  lit (NilEmpty.string_of_uint (Nat.to_uint n)).

Definition entity_id (n : nat) : jsstring := lit "T" ++ decimal n.

(** [xs.join(sep)] *)
Fixpoint join (sep : jsstring) (xs : list jsstring) : jsstring :=
  match xs with
  | [] => []
  | [x] => x
  | x :: xs' => x ++ sep ++ join sep xs'
  end.

(** [s.startsWith(p)] *)
Fixpoint startsWith (p s : jsstring) : bool :=
  match p, s with
  | [], _ => true
  | x :: p', y :: s' => N.eqb x y && startsWith p' s'
  | _ :: _, [] => false
  end.

(* ================================================================== *)
(** * Helpers (core/helpers.js) *)

Definition entityById (st : State) (id : jsstring) : option Entity :=
  find (fun a => str_eqb (e_id a) id) (annotations st).

(** The [for] loop of [spanToTokenRange] from index [i] on, with the
    current [i0] and [i1]. *)
Fixpoint span_loop (start end_ : Z) (ts : list Token) (i : nat)
    (i0 i1 : option nat) : option nat * option nat :=
  match ts with
  | [] => (i0, i1)
  | t :: ts' =>
      if t_isSpace t then span_loop start end_ ts' (S i) i0 i1
      else
        let i0' := match i0 with
                   | None => if (t_end t >? start)%Z then Some i else None
                   | Some _ => i0
                   end in
        let i1' := if (t_start t <? end_)%Z then Some i else i1 in
        if (t_start t >=? end_)%Z then (i0', i1')
        else span_loop start end_ ts' (S i) i0' i1'
  end.

Definition spanToTokenRange (st : State) (span : Z * Z) : option (nat * nat) :=
  let (start, end_) := span in
  match span_loop start end_ (tokens st) 0 None None with
  | (Some i0, Some i1) => Some (i0, i1)
  | _ => None
  end.

(** The parts pushed by the loop of [surfaceFormFromSelection] for the
    indices in [idxs]. *)
Fixpoint surface_parts (toks : list Token) (idxs : list nat) : list jsstring :=
  match idxs with
  | [] => []
  | i :: rest =>
      match nth_error toks i with
      | Some t =>
          if t_isSpace t then surface_parts toks rest
          else
            match nth_error toks (S i) with
            | Some after =>
                if t_isSpace after
                then t_text t :: t_text after :: surface_parts toks rest
                else t_text t :: surface_parts toks rest
            | None => t_text t :: surface_parts toks rest
            end
      | None => surface_parts toks rest
      end
  end.

Definition surfaceFormFromSelection (st : State) : jsstring :=
  match startIdx (selection st), endIdx (selection st) with
  | Some a, Some b => trim (concat (surface_parts (tokens st) (seq a (S b - a))))
  | _, _ => []
  end.

(* ================================================================== *)
(** * Entity modal (modals/entity.js) *)

(** What the handlers read from the modal's form: the value of
    [#sel-class] ([None] when the node is missing), the value of
    [#inp-label] ([None] when the node is missing), and the attribute
    values collected from the [#attr-...] inputs. *)
Record EntityForm := {
  sel_class : option jsstring;
  inp_label : option jsstring;
  form_attrs : attrs
}.

(** [openEntityModal(mode, annoId)], as far as the model is concerned. *)
Definition openEntityModal (m : Mode) (annoId : option jsstring) (st : State) : State :=
  set_entity_modal st m annoId.

(** [labelNode?.value.trim() || surfaceFormFromSelection()] *)
Definition form_label (form : EntityForm) (st : State) : jsstring :=
  match inp_label form with
  | Some v =>
      match trim v with
      | [] => surfaceFormFromSelection st
      | c :: l => c :: l
      end
  | None => surfaceFormFromSelection st
  end.

(** [document.querySelector(`.token[data-idx="${i}"]`)]: [renderText]
    makes one such node, carrying the token's offsets, for every token
    that is not whitespace. *)
Definition token_node (st : State) (i : nat) : option Token :=
  match nth_error (tokens st) i with
  | Some t => if t_isSpace t then None else Some t
  | None => None
  end.

(** [a.id === ui.editId] *)
Definition is_edited (st : State) (a : Entity) : bool :=
  ostr_eqb (Some (e_id a)) (ui_editId st).

Definition confirmSaveAnnotation (form : EntityForm) (st : State) : outcome State :=
  match sel_class form with
  | None => Returned st
  | Some klass =>
      let label := form_label form st in
      let finish := fun st' : State =>
        Returned (set_selection (set_dirty st' true) no_selection) in
      match ui_mode st with
      | ModeCreate =>
          match startIdx (selection st), endIdx (selection st) with
          | Some a, Some b =>
              match token_node st a, token_node st b with
              | Some ta, Some tb =>
                  let anno :=
                    {| e_id := entity_id (length (annotations st) + 1);
                       e_class := klass;
                       e_label := label;
                       e_attrs := form_attrs form;
                       e_span := (t_start ta, t_end tb);
                       e_tokenRange := (a, b) |} in
                  finish (set_annotations st (annotations st ++ [anno]))
              | _, _ => Threw
              end
          | _, _ => Returned st
          end
      | ModeEdit =>
          match find (is_edited st) (annotations st) with
          | None => Returned st
          | Some _ =>
              finish (set_annotations st
                (update_first (is_edited st)
                   (fun a => {| e_id := e_id a; e_class := klass; e_label := label;
                                e_attrs := form_attrs form; e_span := e_span a;
                                e_tokenRange := e_tokenRange a |})
                   (annotations st)))
          end
      end
  end.

Definition deleteAnnotation (st : State) : State :=
  match ui_mode st with
  | ModeCreate => st
  | ModeEdit =>
      let id := ui_editId st in
      let st1 := set_annotations st
        (filter (fun a => negb (ostr_eqb (Some (e_id a)) id)) (annotations st)) in
      let st2 := set_relations st1
        (filter (fun r => negb (ostr_eqb (r_subject r) id) && negb (ostr_eqb (r_object r) id))
                (relations st1)) in
      set_dirty st2 true
  end.

(** ** Editing sessions

    The user actions that reach the two handlers: select tokens [a..b],
    open the modal with "Add" and confirm; click an entity's chip
    (which opens the modal in edit mode) and confirm or press Delete. *)
Inductive EntityOp :=
| OpCreate (a b : nat) (form : EntityForm)
| OpEdit (id : jsstring) (form : EntityForm)
| OpDelete (id : jsstring).

(** A handler that throws leaves the state as it was when it threw. *)
Definition settle (before : State) (o : outcome State) : State :=
  match o with
  | Returned st => st
  | Threw => before
  end.

Definition run_op (st : State) (op : EntityOp) : State :=
  match op with
  | OpCreate a b form =>
      let st1 := set_selection st {| startIdx := Some a; endIdx := Some b |} in
      let st2 := openEntityModal ModeCreate None st1 in
      settle st2 (confirmSaveAnnotation form st2)
  | OpEdit id form =>
      let st1 := openEntityModal ModeEdit (Some id) st in
      settle st1 (confirmSaveAnnotation form st1)
  | OpDelete id =>
      deleteAnnotation (openEntityModal ModeEdit (Some id) st)
  end.

Definition run_ops (st : State) (ops : list EntityOp) : State :=
  fold_left run_op ops st.

Definition is_create (op : EntityOp) : bool :=
  match op with
  | OpCreate _ _ _ => true
  | _ => false
  end.

Definition is_delete (op : EntityOp) : bool :=
  match op with
  | OpDelete _ => true
  | _ => false
  end.

(* ================================================================== *)
(** * Relations (render/relations.js, modals/relation.js) *)

(** [list?.includes(x)], read as a condition. *)
Definition opt_includes (l : option (list jsstring)) (x : jsstring) : bool :=
  match l with
  | Some xs => includes xs x
  | None => false
  end.

(** What the code reads of an inherited member when it takes it for a
    schema entry: the member has none of the properties [subject],
    [object] and [attributes]. *)
Definition no_fields : RelSpec :=
  {| rs_subject := None; rs_object := None; rs_attributes := None |}.

(** [state.relationsMeta[name]]: [None] when the read gives
    [undefined]. *)
Definition relationsMeta_at (st : State) (name : jsstring) : option RelSpec :=
  match get name (relationsMeta st) with
  | Own spec => Some spec
  | Inherited => Some no_fields
  | Missing => None
  end.

Inductive Orientation := Forward | Reverse | Both.

Definition relationOrientationForPair (st : State) (relName leftClass rightClass : jsstring)
  : option Orientation :=
  match relationsMeta_at st relName with
  | None => None
  | Some spec =>
      if negb (truthy (Some leftClass)) || negb (truthy (Some rightClass)) then None
      else
        let fwd := opt_includes (rs_subject spec) leftClass
                   && opt_includes (rs_object spec) rightClass in
        let rev := opt_includes (rs_subject spec) rightClass
                   && opt_includes (rs_object spec) leftClass in
        if fwd && negb rev then Some Forward
        else if rev && negb fwd then Some Reverse
        else if fwd && rev then Some Both
        else None
  end.

Inductive Role := RoleSubject | RoleObject | RoleEither.

Definition firstEntityRoleFor (st : State) (relName klass : jsstring) : option Role :=
  match relationsMeta_at st relName with
  | None => None
  | Some spec =>
      let subjOk := opt_includes (rs_subject spec) klass in
      let objOk := opt_includes (rs_object spec) klass in
      if subjOk && negb objOk then Some RoleSubject
      else if negb subjOk && objOk then Some RoleObject
      else if subjOk && objOk then Some RoleEither
      else None
  end.

(** [id ? entityById(id) : null] *)
Definition endpoint_entity (st : State) (id : option jsstring) : option Entity :=
  match id with
  | Some (c :: s) => entityById st (c :: s)
  | _ => None
  end.

(** What [confirmRelation] reads from the relation modal: the value of
    [#sel-rel] ([None] when the node is missing), the object [out]
    that [pushRows] fills from the rows of the three attribute panels
    -- the values of the rows whose attribute the chosen predicate
    declares -- and the order of the rows. *)
Record RelForm := {
  sel_rel : option jsstring;
  form_out : attrs;
  form_order : AttrOrder
}.

(** [r.id === ui.relEditingId] *)
Definition is_rel_edited (st : State) (r : Relation) : bool :=
  ostr_eqb (Some (r_id r)) (ui_relEditingId st).

(** The endpoints after the orientation step of [confirmRelation]. *)
Definition oriented (st : State) (name : jsstring) (rel : Relation)
  : option jsstring * option jsstring :=
  match endpoint_entity st (r_subject rel), endpoint_entity st (r_object rel) with
  | Some left_, Some right_ =>
      match relationOrientationForPair st name (e_class left_) (e_class right_) with
      | Some Reverse => (r_object rel, r_subject rel)
      | _ => (r_subject rel, r_object rel)
      end
  | Some left_, None =>
      match firstEntityRoleFor st name (e_class left_) with
      | Some RoleObject => (None, r_subject rel)
      | _ => (r_subject rel, r_object rel)
      end
  | None, Some right_ =>
      match firstEntityRoleFor st name (e_class right_) with
      | Some RoleSubject => (r_object rel, None)
      | _ => (r_subject rel, r_object rel)
      end
  | None, None => (r_subject rel, r_object rel)
  end.

Definition confirmRelation (form : RelForm) (st : State) : outcome State :=
  match find (is_rel_edited st) (relations st) with
  | None => Returned st
  | Some rel =>
      match sel_rel form with
      | None => Threw
      | Some name =>
          let upd := fun r : Relation =>
            let (s, o) := oriented st name r in
            {| r_id := r_id r; r_predicate := Some name;
               r_subject := s; r_object := o;
               r_attrs := form_out form;
               r_attrOrder := Some (form_order form) |} in
          Returned (set_relations st (update_first (is_rel_edited st) upd (relations st)))
      end
  end.

(** The "remove relation" handlers (the row's button and the modal's
    Delete button): [state.relations.filter(r => r.id !== rel.id)]. *)
Definition deleteRelation (relId : jsstring) (st : State) : State :=
  set_relations st (filter (fun r => negb (str_eqb (r_id r) relId)) (relations st)).

(* ================================================================== *)
(** * Relation validator (render/relations.js) *)

(** The part of the page that [validateRelations] touches: one row per
    rendered relation, with its [invalid] class and, when the row has
    one, its [.rel-error] box (text and [show] class).  The timers that
    later clear the two classes are outside the model. *)
Record ErrBox := { err_text : jsstring; err_show : bool }.

Record RelRow := {
  row_relId : jsstring;
  row_invalid : bool;
  row_err : option ErrBox
}.

Definition Dom := list RelRow.

(** [highlight(msg)] for the relation [relId], apart from [ok = false]:
    the row is the first one whose [data-rel-id] is [relId]. *)
Definition highlight (relId msg : jsstring) (dom : Dom) : Dom :=
  update_first (fun row => str_eqb (row_relId row) relId)
    (fun row =>
       {| row_relId := row_relId row;
          row_invalid := true;
          row_err :=
            match row_err row with
            | Some _ =>
                Some {| err_text := match msg with
                                    | [] => lit "Incomplete relation"
                                    | _ :: _ => msg
                                    end;
                        err_show := true |}
            | None => None
            end |})
    dom.

(** The equality used by [Array.prototype.includes]. *)
Definition value_eqb (a b : AttrValue) : bool :=
  match a, b with
  | VNull, VNull => true
  | VStr x, VStr y => str_eqb x y
  | VNum x, VNum y => str_eqb x y
  | VBool x, VBool y => Bool.eqb x y
  | _, _ => false
  end.

(** [v === undefined || v === null || v === ''] *)
Definition is_blank (v : Member AttrValue) : bool :=
  match v with
  | Missing => true
  | Own VNull => true
  | Own (VStr []) => true
  | _ => false
  end.

(** [entityById(v)] for an attribute value: only a string can equal an id. *)
Definition entityByValue (st : State) (v : AttrValue) : option Entity :=
  match v with
  | VStr s => entityById st s
  | _ => None
  end.

Definition msg_incomplete : jsstring := lit "Relation needs subject, type, and object".
Definition msg_unknown : jsstring := lit "Unknown relation".
Definition msg_dangling : jsstring := lit "Dangling entity reference".
Definition msg_classes : jsstring := lit "Classes not allowed for this relation".
Definition msg_missing (name : jsstring) : jsstring :=
  lit "Missing required attribute: " ++ name.
Definition msg_enum (name : jsstring) : jsstring :=
  lit "'" ++ name ++ lit "' has invalid value".
Definition msg_number (name : jsstring) : jsstring :=
  lit "'" ++ name ++ lit "' must be a number".
Definition msg_entity (name : jsstring) (classes : list jsstring) : jsstring :=
  lit "'" ++ name ++ lit "' must refer to a " ++ join (lit " or ") classes.

Section ValidatorDefinitions.

(** [Number.isNaN(Number(v))]: whether the value fails to convert to
    a number.  The conversion is the language's own; the validator is
    stated for any such test. *)
Variable number_isNaN : AttrValue -> bool.

(** One turn of the attribute loop for the attribute [name] with
    specification [aspec], where [v] is [(r.attrs || {})[name]]:
    the message passed to [highlight] before [break], if any.  An
    inherited member is neither [undefined], [null] nor empty; it is
    no element of [aspec.enum], [Number] of it is [NaN], and it equals
    no entity id. *)
Definition check_attr (st : State) (name : jsstring) (aspec : AttrSpec)
    (v : Member AttrValue) : option jsstring :=
  if is_blank v && match as_nullable aspec with Some false => true | _ => false end
  then Some (msg_missing name)
  else if is_blank v then None
  else
    match v with
    | Missing => None
    | Inherited =>
        match as_kind aspec with
        | KEnum _ => Some (msg_enum name)
        | KNumber => Some (msg_number name)
        | KEntity classes => Some (msg_entity name classes)
        | KOther => None
        end
    | Own x =>
        match as_kind aspec with
        | KEnum allowed =>
            if existsb (value_eqb x) allowed then None else Some (msg_enum name)
        | KNumber =>
            if number_isNaN x then Some (msg_number name) else None
        | KEntity classes =>
            match entityByValue st x with
            | Some ent =>
                if includes classes (e_class ent) then None
                else Some (msg_entity name classes)
            | None => Some (msg_entity name classes)
            end
        | KOther => None
        end
    end.

(** The loop over [Object.entries(attrs)], in the order it yields. *)
Fixpoint check_attrs (st : State) (values : attrs)
    (specs : list (jsstring * AttrSpec)) : option jsstring :=
  match specs with
  | [] => None
  | (name, aspec) :: rest =>
      match check_attr st name aspec (get name values) with
      | Some msg => Some msg
      | None => check_attrs st values rest
      end
  end.

(** The body of the relation loop: the message passed to
    [highlight], or [None] when the relation passes every check. *)
Definition check_relation (st : State) (r : Relation) : option jsstring :=
  match r_subject r, r_object r, r_predicate r with
  | Some (s0 :: s), Some (o0 :: o), Some (p0 :: p) =>
      match trim (p0 :: p) with
      | [] => Some msg_incomplete
      | _ :: _ =>
          match relationsMeta_at st (p0 :: p) with
          | None => Some msg_unknown
          | Some spec =>
              match entityById st (s0 :: s), entityById st (o0 :: o) with
              | Some left_, Some right_ =>
                  let fwd := opt_includes (rs_subject spec) (e_class left_)
                             && opt_includes (rs_object spec) (e_class right_) in
                  let rev := opt_includes (rs_subject spec) (e_class right_)
                             && opt_includes (rs_object spec) (e_class left_) in
                  if negb fwd && negb rev then Some msg_classes
                  else
                    check_attrs st (r_attrs r)
                      (match rs_attributes spec with
                       | Some a => a
                       | None => []
                       end)
              | _, _ => Some msg_dangling
              end
          end
      end
  | _, _, _ => Some msg_incomplete
  end.

Fixpoint validate_loop (st : State) (rels : list Relation) (ok : bool) (dom : Dom)
  : bool * Dom :=
  match rels with
  | [] => (ok, dom)
  | r :: rest =>
      match check_relation st r with
      | Some msg => validate_loop st rest false (highlight (r_id r) msg dom)
      | None => validate_loop st rest ok dom
      end
  end.

(** [validateRelations()]: the returned boolean and the page after it. *)
Definition validateRelations (st : State) (dom : Dom) : bool * Dom :=
  validate_loop st (relations st) true dom.

(** The verdict of each relation, in iteration order. *)
Definition verdicts (st : State) : list (option jsstring) :=
  map (check_relation st) (relations st).

(** The calls [highlight(msg)] made by the loop over [rels], in
    order, each with the id of its relation. *)
Fixpoint failures (st : State) (rels : list Relation) : list (jsstring * jsstring) :=
  match rels with
  | [] => []
  | r :: rest =>
      match check_relation st r with
      | Some msg => (r_id r, msg) :: failures st rest
      | None => failures st rest
      end
  end.

End ValidatorDefinitions.

(* ================================================================== *)
(** * Loading a document (main.js) *)

Record TextData := {
  d_id : jsstring;
  d_text : jsstring;
  d_cursor : Z;
  d_total : Z
}.

Record SavedEntity := {
  se_id : jsstring;
  se_class : jsstring;
  se_label : jsstring;
  se_attributes : option attrs;
  se_span : Z * Z
}.

Record SavedRelation := {
  sr_id : jsstring;
  sr_predicate : option jsstring;
  sr_subject : option jsstring;
  sr_object : option jsstring;
  sr_attributes : option attrs
}.

(** The body of [GET /annotations/{id}]; a field is [None] when it is
    not an array. *)
Record Saved := {
  sv_entities : option (list SavedEntity);
  sv_relations : option (list SavedRelation)
}.

(** How [await API.getAnnotation(id)] ends: it throws, or it yields
    [null] (404) or a body. *)
Inductive Fetched :=
| Rejected
| Resolved (saved : option Saved).

(** The loop that rebuilds the entities, [tr] being computed against
    the tokens of [st]. *)
Fixpoint hydrate_entities (st : State) (ents : list SavedEntity) : list Entity :=
  match ents with
  | [] => []
  | ent :: rest =>
      match spanToTokenRange st (se_span ent) with
      | None => hydrate_entities st rest
      | Some tr =>
          {| e_id := se_id ent; e_class := se_class ent; e_label := se_label ent;
             e_attrs := match se_attributes ent with Some a => a | None => [] end;
             e_span := se_span ent;
             e_tokenRange := tr |} :: hydrate_entities st rest
      end
  end.

(** [ids.has(x)] for [ids = new Set(state.annotations.map(a => a.id))]. *)
Definition ids_has (annos : list Entity) (x : option jsstring) : bool :=
  existsb (fun a => ostr_eqb (Some (e_id a)) x) annos.

Definition hydrate_relation (r : SavedRelation) : Relation :=
  let a := match sr_attributes r with Some a => a | None => [] end in
  let keys := map fst a in
  {| r_id := sr_id r;
     r_predicate := match sr_predicate r with
                    | Some (c :: p) => Some (c :: p)
                    | _ => None
                    end;
     r_subject := sr_subject r;
     r_object := sr_object r;
     r_attrs := a;
     r_attrOrder := Some
       {| ao_subject := filter (startsWith (lit "subject_")) keys;
          ao_object := filter (startsWith (lit "object_")) keys;
          ao_statement :=
            filter (fun k => negb (str_eqb k (lit "edge_predicate"))
                             && negb (startsWith (lit "subject_") k)
                             && negb (startsWith (lit "object_") k)) keys |} |}.

Fixpoint hydrate_relations (annos : list Entity) (rels : list SavedRelation) : list Relation :=
  match rels with
  | [] => []
  | r :: rest =>
      if ids_has annos (sr_subject r) && ids_has annos (sr_object r)
      then hydrate_relation r :: hydrate_relations annos rest
      else hydrate_relations annos rest
  end.

(** [loadTextResponse(data)].  [text_wrap] tells whether the [#text]
    node exists, in which case [renderText] re-tokenizes. *)
Definition loadTextResponse (text_wrap : bool) (data : TextData) (fetched : Fetched)
    (st : State) : State :=
  let toks := if text_wrap then tokens_of (d_text data) else tokens st in
  let st1 :=
    {| texts_cursor := d_cursor data; texts_total := d_total data;
       current := Some {| doc_id := d_id data; doc_text := d_text data |};
       tokens := toks; selection := no_selection;
       annotations := [];
       saved_exists := false; saved_wasEmpty := false;
       relations := relations st; relationsMeta := relationsMeta st;
       ui_mode := ui_mode st; ui_editId := ui_editId st;
       ui_relEditingId := ui_relEditingId st; ui_dirty := false |} in
  match fetched with
  | Rejected => st1
  | Resolved saved =>
      let ents := match saved with Some sv => sv_entities sv | None => None end in
      let rels := match saved with Some sv => sv_relations sv | None => None end in
      let annos := match ents with
                   | Some es => hydrate_entities st1 es
                   | None => []
                   end in
      {| texts_cursor := d_cursor data; texts_total := d_total data;
         current := Some {| doc_id := d_id data; doc_text := d_text data |};
         tokens := toks; selection := no_selection;
         annotations := annos;
         saved_exists := match ents with Some _ => true | None => false end;
         saved_wasEmpty := match ents with Some [] => true | _ => false end;
         relations := match rels with
                      | Some rs => hydrate_relations annos rs
                      | None => []
                      end;
         relationsMeta := relationsMeta st;
         ui_mode := ui_mode st; ui_editId := ui_editId st;
         ui_relEditingId := ui_relEditingId st; ui_dirty := false |}
  end.

(** Referential integrity: both endpoints of every relation are ids of
    entities of the model. *)
Definition referential_integrity (st : State) : Prop :=
  forall r, In r (relations st) ->
    ids_has (annotations st) (r_subject r) = true
    /\ ids_has (annotations st) (r_object r) = true.

(* ================================================================== *)
(** * Vocabulary of the stated properties *)

(** [state] and [ui] as core/state.js declares them. *)
Definition initial_state : State :=
  {| texts_cursor := 0; texts_total := 0; current := None;
     tokens := []; selection := no_selection; annotations := [];
     saved_exists := false; saved_wasEmpty := false;
     relations := []; relationsMeta := [];
     ui_mode := ModeCreate; ui_editId := None;
     ui_relEditingId := None; ui_dirty := false |}.

Definition set_tokens (st : State) (toks : list Token) : State :=
  {| texts_cursor := texts_cursor st; texts_total := texts_total st;
     current := current st; tokens := toks; selection := selection st;
     annotations := annotations st;
     saved_exists := saved_exists st; saved_wasEmpty := saved_wasEmpty st;
     relations := relations st; relationsMeta := relationsMeta st;
     ui_mode := ui_mode st; ui_editId := ui_editId st;
     ui_relEditingId := ui_relEditingId st; ui_dirty := ui_dirty st |}.

Definition set_relationsMeta (st : State) (m : list (jsstring * RelSpec)) : State :=
  {| texts_cursor := texts_cursor st; texts_total := texts_total st;
     current := current st; tokens := tokens st; selection := selection st;
     annotations := annotations st;
     saved_exists := saved_exists st; saved_wasEmpty := saved_wasEmpty st;
     relations := relations st; relationsMeta := m;
     ui_mode := ui_mode st; ui_editId := ui_editId st;
     ui_relEditingId := ui_relEditingId st; ui_dirty := ui_dirty st |}.

Definition set_relEditingId (st : State) (id : option jsstring) : State :=
  {| texts_cursor := texts_cursor st; texts_total := texts_total st;
     current := current st; tokens := tokens st; selection := selection st;
     annotations := annotations st;
     saved_exists := saved_exists st; saved_wasEmpty := saved_wasEmpty st;
     relations := relations st; relationsMeta := relationsMeta st;
     ui_mode := ui_mode st; ui_editId := ui_editId st;
     ui_relEditingId := id; ui_dirty := ui_dirty st |}.

(** The token's character range meets [[start, end_)]. *)
Definition intersects (t : Token) (start end_ : Z) : Prop :=
  (t_start t < end_)%Z /\ (start < t_end t)%Z.

(** [i0] is the index of the first non-space token with [end > start]. *)
Definition first_ending_after (toks : list Token) (start : Z) (i0 : nat) : Prop :=
  (exists t, nth_error toks i0 = Some t /\ t_isSpace t = false /\ (start < t_end t)%Z)
  /\ forall k t, k < i0 -> nth_error toks k = Some t -> t_isSpace t = false ->
       (t_end t <= start)%Z.

(** [i1] is the index of the last non-space token with [start < end_]. *)
Definition last_starting_before (toks : list Token) (end_ : Z) (i1 : nat) : Prop :=
  (exists t, nth_error toks i1 = Some t /\ t_isSpace t = false /\ (t_start t < end_)%Z)
  /\ forall k t, i1 < k -> nth_error toks k = Some t -> t_isSpace t = false ->
       (end_ <= t_start t)%Z.

Definition range_intersects (toks : list Token) (start end_ : Z) (i0 i1 : nat) : Prop :=
  forall k t, i0 <= k <= i1 -> nth_error toks k = Some t -> intersects t start end_.

Definition some_nonspace_intersects (toks : list Token) (start end_ : Z) : Prop :=
  exists k t, nth_error toks k = Some t /\ t_isSpace t = false /\ intersects t start end_.

(** The token range as the design document describes it, for one state
    and one span with [start < end_]: the pair of the first and last
    such tokens, in order, every token between them meeting the span;
    and [null] when no non-space token meets the span. *)
Definition token_range_as_described (st : State) (start end_ : Z) : Prop :=
  match spanToTokenRange st (start, end_) with
  | Some (i0, i1) =>
      first_ending_after (tokens st) start i0
      /\ last_starting_before (tokens st) end_ i1
      /\ i0 <= i1
      /\ range_intersects (tokens st) start end_ i0 i1
  | None => ~ some_nonspace_intersects (tokens st) start end_
  end.

(** Index of the first element satisfying [p], and of the last. *)
Fixpoint first_idx (p : Token -> bool) (ts : list Token) : option nat :=
  match ts with
  | [] => None
  | t :: r => if p t then Some 0 else option_map S (first_idx p r)
  end.

Fixpoint last_idx (q : Token -> bool) (ts : list Token) : option nat :=
  match ts with
  | [] => None
  | t :: r =>
      match last_idx q r with
      | Some k => Some (S k)
      | None => if q t then Some 0 else None
      end
  end.

Definition ends_after (start : Z) (t : Token) : bool :=
  negb (t_isSpace t) && (t_end t >? start)%Z.

Definition starts_before (end_ : Z) (t : Token) : bool :=
  negb (t_isSpace t) && (t_start t <? end_)%Z.

(** ** Sample documents *)

(** The document of the design document's example, tokenized. *)
Definition st_hello : State :=
  set_tokens initial_state (tokens_of (lit "hello world foo")).

(** A document with two spaces between its two words. *)
Definition st_gap : State :=
  set_tokens initial_state (tokens_of (lit "ab  cd")).

(** That document as the backend serves it, and a saved copy with one
    entity whose span is the two spaces. *)
Definition data_gap : TextData :=
  {| d_id := lit "doc-2"; d_text := lit "ab  cd"; d_cursor := 1; d_total := 2 |}.

Definition saved_gap : Saved :=
  {| sv_entities :=
       Some [ {| se_id := lit "T1"; se_class := lit "Person"; se_label := lit "gap";
                 se_attributes := None; se_span := (2%Z, 4%Z) |} ];
     sv_relations := Some [] |}.

(** Entity ids are [T1 .. Tn] in creation order. *)
Definition sequential_ids (st : State) : Prop :=
  map e_id (annotations st) = map entity_id (seq 1 (length (annotations st))).

(** No two entities of the document share an id. *)
Definition ids_unique (st : State) : Prop :=
  NoDup (map e_id (annotations st)).

Definition person_form : EntityForm :=
  {| sel_class := Some (lit "Person"); inp_label := None; form_attrs := [] |}.

(** Create entities on "hello" and "world", delete the first, create
    one on "foo". *)
Definition session_reusing_id : list EntityOp :=
  [ OpCreate 0 0 person_form; OpCreate 2 2 person_form;
    OpDelete (entity_id 1); OpCreate 4 4 person_form ].

(** Some entity of the model has this id. *)
Definition entity_known (st : State) (id : option jsstring) : Prop :=
  exists a, In a (annotations st) /\ Some (e_id a) = id.

(** Some relation of the model has this id. *)
Definition relation_known (st : State) (id : option jsstring) : Prop :=
  exists r, In r (relations st) /\ Some (r_id r) = id.

(** The relation the relation modal is editing. *)
Definition edited_relation (st : State) : option Relation :=
  find (is_rel_edited st) (relations st).

(** ** A sample model: a person, an organisation, and one relation
    between them entered object first *)

Definition person_org_schema : list (jsstring * RelSpec) :=
  [ (lit "WorksFor",
     {| rs_subject := Some [lit "Person"]; rs_object := Some [lit "Org"];
        rs_attributes := None |}) ].

Definition entity_A : Entity :=
  {| e_id := entity_id 1; e_class := lit "Person"; e_label := lit "hello";
     e_attrs := []; e_span := (0%Z, 5%Z); e_tokenRange := (0, 0) |}.

Definition entity_B : Entity :=
  {| e_id := entity_id 2; e_class := lit "Org"; e_label := lit "world";
     e_attrs := []; e_span := (6%Z, 11%Z); e_tokenRange := (2, 2) |}.

Definition relation_BA : Relation :=
  {| r_id := lit "R1"; r_predicate := None;
     r_subject := Some (entity_id 2); r_object := Some (entity_id 1);
     r_attrs := []; r_attrOrder := None |}.

Definition st_person_org : State :=
  set_relEditingId
    (set_relations
       (set_annotations (set_relationsMeta st_hello person_org_schema)
          [entity_A; entity_B])
       [relation_BA])
    (Some (lit "R1")).

Definition works_for_form : RelForm :=
  {| sel_rel := Some (lit "WorksFor"); form_out := [];
     form_order := {| ao_subject := []; ao_object := []; ao_statement := [] |} |}.

(** The relation passes the checks that come before the attribute
    loop, [spec] being the schema entry of its predicate. *)
Definition reaches_attribute_checks (st : State) (r : Relation) (spec : RelSpec) : Prop :=
  exists s o p left_ right_,
    r_subject r = Some s /\ s <> []
    /\ r_object r = Some o /\ o <> []
    /\ r_predicate r = Some p /\ trim p <> []
    /\ lookup p (relationsMeta st) = Some spec
    /\ entityById st s = Some left_
    /\ entityById st o = Some right_
    /\ (opt_includes (rs_subject spec) (e_class left_)
        && opt_includes (rs_object spec) (e_class right_)
        || opt_includes (rs_subject spec) (e_class right_)
           && opt_includes (rs_object spec) (e_class left_)) = true.

(** The page after a run of [highlight] calls. *)
Definition highlight_all (calls : list (jsstring * jsstring)) (dom : Dom) : Dom :=
  fold_left (fun d km => highlight (fst km) (snd km) d) calls dom.

(** A relation whose object was never dropped in. *)
Definition relation_A_only : Relation :=
  {| r_id := lit "R2"; r_predicate := Some (lit "WorksFor");
     r_subject := Some (entity_id 1); r_object := None;
     r_attrs := [(lit "since", VStr (lit "2020"))]; r_attrOrder := None |}.

Definition st_incomplete : State :=
  set_relations st_person_org [relation_BA; relation_A_only].

(** A schema whose relation requires a numeric attribute, and a
    relation of that type, in the right orientation, without it. *)
Definition since_schema : list (jsstring * RelSpec) :=
  [ (lit "WorksFor",
     {| rs_subject := Some [lit "Person"]; rs_object := Some [lit "Org"];
        rs_attributes :=
          Some [ (lit "since", {| as_nullable := Some false; as_kind := KNumber |}) ] |}) ].

Definition relation_AB : Relation :=
  {| r_id := lit "R1"; r_predicate := Some (lit "WorksFor");
     r_subject := Some (entity_id 1); r_object := Some (entity_id 2);
     r_attrs := []; r_attrOrder := None |}.

Definition st_since : State :=
  set_relations (set_relationsMeta st_person_org since_schema) [relation_AB].

(** A schema whose relation requires an attribute named [constructor],
    of a kind the validator does not type-check, and the same relation
    under it. *)
Definition constructor_spec : RelSpec :=
  {| rs_subject := Some [lit "Person"]; rs_object := Some [lit "Org"];
     rs_attributes :=
       Some [ (lit "constructor",
               {| as_nullable := Some false; as_kind := KOther |}) ] |}.

Definition st_constructor : State :=
  set_relations
    (set_relationsMeta st_person_org [ (lit "WorksFor", constructor_spec) ])
    [relation_AB].

(** A page with a row for [R1] and a row for [R2]. *)
Definition two_rows : Dom :=
  [ {| row_relId := lit "R1"; row_invalid := false;
       row_err := Some {| err_text := []; err_show := false |} |};
    {| row_relId := lit "R2"; row_invalid := false;
       row_err := Some {| err_text := []; err_show := false |} |} ].

(** A conversion test that accepts every value; any other would do
    where no number-kind attribute is involved. *)
Definition never_NaN (v : AttrValue) : bool := false.

(** The arrays of a fetched body, empty when the body or the array is
    missing. *)
Definition saved_entities (saved : option Saved) : list SavedEntity :=
  match saved with
  | Some {| sv_entities := Some es |} => es
  | _ => []
  end.

Definition saved_relations (saved : option Saved) : list SavedRelation :=
  match saved with
  | Some {| sv_relations := Some rs |} => rs
  | _ => []
  end.

(* ================================================================== *)
(** * Vocabulary of further properties *)

(** ** Tokens *)

(** The token is a run of word characters. *)
Definition is_word_token (t : Token) : bool := forallb is_word (t_text t).

(** One character that is neither a word character nor whitespace:
    one such code unit, or a surrogate pair. *)
Definition single_other (s : jsstring) : Prop :=
  (exists u, s = [u] /\ is_other u = true)
  \/ (exists h l, s = [h; l] /\ is_high h = true /\ is_low l = true).

(** The three forms a match of the tokenizer's pattern can take. *)
Definition token_text_shape (s : jsstring) : Prop :=
  (s <> [] /\ forallb is_space s = true)
  \/ (s <> [] /\ forallb is_word s = true)
  \/ single_other s.

(** No two neighbours of the list both satisfy [p]. *)
Fixpoint no_adjacent (p : Token -> bool) (ts : list Token) : bool :=
  match ts with
  | t1 :: r =>
      match r with
      | t2 :: _ => negb (p t1 && p t2) && no_adjacent p r
      | [] => true
      end
  | [] => true
  end.

(** [s.substring(a, b)] for [0 <= a <= b]. *)
Definition substring (s : jsstring) (a b : Z) : jsstring :=
  firstn (Z.to_nat (b - a)) (skipn (Z.to_nat a) s).

(** ** Spans and labels *)

(** A state whose tokens are those of a two-word document and whose
    selection is its two words. *)
Definition st_selected : State :=
  set_selection st_hello {| startIdx := Some 0; endIdx := Some 2 |}.

(** The loop of [surfaceFormFromSelection] read along the tokens
    instead of by index: the parts pushed for the first [n] tokens of
    [ts].  [surface_parts_along] relates it to [surface_parts]. *)
Fixpoint parts_along (ts : list Token) (n : nat) {struct n} : list jsstring :=
  match n, ts with
  | S n', t :: r =>
      if t_isSpace t then parts_along r n'
      else
        match r with
        | after :: _ =>
            if t_isSpace after then t_text t :: t_text after :: parts_along r n'
            else t_text t :: parts_along r n'
        | [] => t_text t :: parts_along r n'
        end
  | _, _ => []
  end.

(** The text of the whitespace token at the head of [ts], if there is
    one. *)
Definition trailing_space (ts : list Token) : jsstring :=
  match ts with
  | t :: _ => if t_isSpace t then t_text t else []
  | [] => []
  end.

(** ** Saving and reloading *)

(** The body of [POST /annotations], as [buildAnnotationPayload] makes
    it. *)
Record PayloadEntity := {
  pe_id : jsstring;
  pe_class : jsstring;
  pe_label : jsstring;
  pe_span : Z * Z;
  pe_attributes : attrs
}.

Record PayloadRelation := {
  pr_id : jsstring;
  pr_predicate : jsstring;
  pr_subject : option jsstring;
  pr_object : option jsstring;
  pr_attributes : attrs
}.

Record Payload := {
  p_text_id : jsstring;
  p_text : jsstring;
  p_entities : list PayloadEntity;
  p_relations : list PayloadRelation
}.

(** [r.predicate || ''] *)
Definition predicate_or_empty (p : option jsstring) : jsstring :=
  match p with
  | Some (c :: s) => c :: s
  | _ => []
  end.

(** [buildAnnotationPayload()] (core/helpers.js).  Reading
    [state.current.id] throws while no document is loaded. *)
Definition buildAnnotationPayload (st : State) : outcome Payload :=
  match current st with
  | None => Threw
  | Some doc =>
      Returned
        {| p_text_id := doc_id doc;
           p_text := doc_text doc;
           p_entities :=
             map (fun a => {| pe_id := e_id a; pe_class := e_class a;
                              pe_label := e_label a; pe_span := e_span a;
                              pe_attributes := e_attrs a |})
                 (annotations st);
           p_relations :=
             map (fun r => {| pr_id := r_id r;
                              pr_predicate := predicate_or_empty (r_predicate r);
                              pr_subject := r_subject r;
                              pr_object := r_object r;
                              pr_attributes := r_attrs r |})
                 (relations st) |}
  end.

(** The body of [GET /annotations/{id}] that repeats a payload field
    by field, which is what is read back when the payload was stored
    as sent. *)
Definition echo (p : Payload) : Saved :=
  {| sv_entities :=
       Some (map (fun e => {| se_id := pe_id e; se_class := pe_class e;
                              se_label := pe_label e;
                              se_attributes := Some (pe_attributes e);
                              se_span := pe_span e |})
                 (p_entities p));
     sv_relations :=
       Some (map (fun r => {| sr_id := pr_id r;
                              sr_predicate := Some (pr_predicate r);
                              sr_subject := pr_subject r;
                              sr_object := pr_object r;
                              sr_attributes := Some (pr_attributes r) |})
                 (p_relations p)) |}.

(** The entity's token range is the one its span maps to. *)
Definition span_consistent (st : State) (e : Entity) : Prop :=
  spanToTokenRange st (e_span e) = Some (e_tokenRange e).

(** A create is made on a selection that runs forward. *)
Definition forward_selection (op : EntityOp) : bool :=
  match op with
  | OpCreate a b _ => a <=? b
  | _ => true
  end.

(** A relation, but for the display order of its attributes; an empty
    predicate counts as none. *)
Definition relation_core (r : Relation)
  : jsstring * option jsstring * option jsstring * option jsstring * attrs :=
  (r_id r,
   match r_predicate r with Some (c :: s) => Some (c :: s) | _ => None end,
   r_subject r, r_object r, r_attrs r).

Definition set_current (st : State) (d : option Doc) : State :=
  {| texts_cursor := texts_cursor st; texts_total := texts_total st;
     current := d; tokens := tokens st; selection := selection st;
     annotations := annotations st;
     saved_exists := saved_exists st; saved_wasEmpty := saved_wasEmpty st;
     relations := relations st; relationsMeta := relationsMeta st;
     ui_mode := ui_mode st; ui_editId := ui_editId st;
     ui_relEditingId := ui_relEditingId st; ui_dirty := ui_dirty st |}.

(** The sample document, loaded, with its two entities and the
    relation between them. *)
Definition doc_hello : Doc :=
  {| doc_id := lit "doc-1"; doc_text := lit "hello world foo" |}.

Definition data_hello : TextData :=
  {| d_id := lit "doc-1"; d_text := lit "hello world foo";
     d_cursor := 0; d_total := 1 |}.

Definition st_doc : State := set_current st_since (Some doc_hello).

(** ** Selecting tokens with the mouse (render/text.js) *)

(** The events the text pane listens to.  The target of a mouse event
    is the index carried by the [.token] node under the pointer, if
    there is one. *)
Inductive TextEvent :=
| EvMouseDown (target : option nat)
| EvMouseMove (target : option nat)
| EvMouseUp
| EvClear.

(** [onMouseDown], [onMouseMove], [onMouseUp] and [clearSelection] on
    [ui.dragging] and the state.  In [endIdx < startIdx] a [null]
    start compares as 0. *)
Definition text_event (ds : bool * State) (ev : TextEvent) : bool * State :=
  let (dragging, st) := ds in
  match ev with
  | EvMouseDown None => ds
  | EvMouseDown (Some idx) =>
      (true, set_selection st {| startIdx := Some idx; endIdx := Some idx |})
  | EvMouseMove target =>
      if negb dragging then ds
      else
        match target with
        | None => ds
        | Some idx =>
            let start := startIdx (selection st) in
            if match start with Some s => idx <? s | None => false end
            then (dragging, set_selection st {| startIdx := Some idx; endIdx := start |})
            else (dragging, set_selection st {| startIdx := start; endIdx := Some idx |})
        end
  | EvMouseUp => if negb dragging then ds else (false, st)
  | EvClear => (dragging, set_selection st no_selection)
  end.

(** The event's target, if any, is a node that [renderText] made. *)
Definition target_exists (st : State) (ev : TextEvent) : Prop :=
  match ev with
  | EvMouseDown (Some idx) | EvMouseMove (Some idx) => token_node st idx <> None
  | _ => True
  end.

(** The selection only names tokens that have a node, and runs
    forward when it has both ends. *)
Definition selection_ok (st : State) : Prop :=
  (forall a, startIdx (selection st) = Some a -> token_node st a <> None)
  /\ (forall b, endIdx (selection st) = Some b -> token_node st b <> None)
  /\ (forall a b, startIdx (selection st) = Some a -> endIdx (selection st) = Some b ->
        a <= b).

(** ** The relation rows and the relation drop zone
    (render/relations.js, main.js) *)

Inductive Side := SideSubject | SideObject.

Definition set_endpoint (side : Side) (entId : jsstring) (rel : Relation) : Relation :=
  match side with
  | SideSubject =>
      {| r_id := r_id rel; r_predicate := r_predicate rel;
         r_subject := Some entId; r_object := r_object rel;
         r_attrs := r_attrs rel; r_attrOrder := r_attrOrder rel |}
  | SideObject =>
      {| r_id := r_id rel; r_predicate := r_predicate rel;
         r_subject := r_subject rel; r_object := Some entId;
         r_attrs := r_attrs rel; r_attrOrder := r_attrOrder rel |}
  end.

(** The [drop] handler of a row's placeholder, on the relation [rel]
    the row was built for: the relation it leaves, or a throw -- when
    [state.relationsMeta[rel.predicate]] is [undefined], reading
    [spec.subject] throws. *)
Definition placeholder_drop (st : State) (side : Side) (entId : jsstring)
    (rel : Relation) : outcome Relation :=
  match entId with
  | [] => Returned rel
  | _ :: _ =>
      if match side with
         | SideSubject => ostr_eqb (r_object rel) (Some entId)
         | SideObject => ostr_eqb (r_subject rel) (Some entId)
         end
      then Returned rel
      else
        match entityById st entId with
        | None => Returned rel
        | Some ent =>
            match r_predicate rel with
            | Some (c :: p) =>
                match relationsMeta_at st (c :: p) with
                | None => Threw
                | Some spec =>
                    if match side with
                       | SideSubject => opt_includes (rs_subject spec) (e_class ent)
                       | SideObject => opt_includes (rs_object spec) (e_class ent)
                       end
                    then Returned (set_endpoint side entId rel)
                    else Returned rel
                end
            | _ => Returned (set_endpoint side entId rel)
            end
        end
  end.

Fixpoint replace_nth {A : Type} (k : nat) (x : A) (l : list A) : list A :=
  match l, k with
  | [], _ => []
  | _ :: l', O => x :: l'
  | y :: l', S k' => y :: replace_nth k' x l'
  end.

(** The same handler on the state, the row being that of the [k]-th
    relation. *)
Definition dropOnPlaceholder (k : nat) (side : Side) (entId : jsstring) (st : State)
  : outcome State :=
  match nth_error (relations st) k with
  | None => Returned st
  | Some rel =>
      match placeholder_drop st side entId rel with
      | Threw => Threw
      | Returned rel' => Returned (set_relations st (replace_nth k rel' (relations st)))
      end
  end.

(** The template [`R${n}`]. *)
Definition relation_id (n : nat) : jsstring := lit "R" ++ decimal n.

(** The [drop] handler of the relation drop zone (main.js): whatever
    text was dragged becomes the subject of a new relation. *)
Definition dropOnRelations (entId : jsstring) (st : State) : State :=
  match entId with
  | [] => st
  | _ :: _ =>
      set_dirty
        (set_relations st
           (relations st ++
            [{| r_id := relation_id (length (relations st) + 1);
                r_predicate := None; r_subject := Some entId; r_object := None;
                r_attrs := []; r_attrOrder := None |}]))
        true
  end.

(** [relationAllowedBidirectional(leftClass, rightClass, relName)];
    a class is [None] when absent, and an empty class name is falsy. *)
Definition relationAllowedBidirectional (st : State)
    (leftClass rightClass : option jsstring) (relName : jsstring) : bool :=
  match relationsMeta_at st relName with
  | None => false
  | Some spec =>
      match leftClass, rightClass with
      | Some (c :: l), Some (d :: r) =>
          opt_includes (rs_subject spec) (c :: l) && opt_includes (rs_object spec) (d :: r)
          || opt_includes (rs_subject spec) (d :: r) && opt_includes (rs_object spec) (c :: l)
      | Some (c :: l), _ =>
          opt_includes (rs_subject spec) (c :: l) || opt_includes (rs_object spec) (c :: l)
      | _, Some (d :: r) =>
          opt_includes (rs_subject spec) (d :: r) || opt_includes (rs_object spec) (d :: r)
      | _, _ => true
      end
  end.

(** [getAllowedRelationNames(leftClass, rightClass)] *)
Definition getAllowedRelationNames (st : State) (leftClass rightClass : option jsstring)
  : list jsstring :=
  filter (relationAllowedBidirectional st leftClass rightClass)
         (map fst (relationsMeta st)).

(** [ent?.class || null] *)
Definition class_or_null (e : option Entity) : option jsstring :=
  match e with
  | Some ent => match e_class ent with [] => None | c :: s => Some (c :: s) end
  | None => None
  end.

(** The names [openRelationModal] offers for the relation [rel]. *)
Definition offered_names (st : State) (rel : Relation) : list jsstring :=
  getAllowedRelationNames st
    (class_or_null (endpoint_entity st (r_subject rel)))
    (class_or_null (endpoint_entity st (r_object rel))).

(** ** Save (main.js) *)

(** What a click on Save comes to, before anything is awaited from the
    network but the backend's copy [existing]: skip to the next
    document, stop on invalid relations, fail (an exception reaches
    the handler's [catch]), ask before overwriting, or write. *)
Inductive SaveStep :=
| StepSkip
| StepInvalid
| StepFailed
| StepConfirmOverwrite (p : Payload)
| StepWrite (p : Payload) (overwrite : bool).

Section SaveDefinitions.

Variable number_isNaN : AttrValue -> bool.

Definition saveClick (existing : Fetched) (st : State) (dom : Dom) : SaveStep * Dom :=
  if saved_exists st && negb (ui_dirty st) then (StepSkip, dom)
  else
    let (ok, dom') := validateRelations number_isNaN st dom in
    if negb ok then (StepInvalid, dom')
    else
      match buildAnnotationPayload st with
      | Threw => (StepFailed, dom')
      | Returned p =>
          match existing with
          | Rejected => (StepFailed, dom')
          | Resolved None => (StepWrite p false, dom')
          | Resolved (Some ex) =>
              match sv_entities ex with
              | Some (_ :: _) => (StepConfirmOverwrite p, dom')
              | _ => (StepWrite p true, dom')
              end
          end
      end.

End SaveDefinitions.

(** The payload a step sends, at once or after confirmation. *)
Definition step_payload (s : SaveStep) : option Payload :=
  match s with
  | StepConfirmOverwrite p => Some p
  | StepWrite p _ => Some p
  | _ => None
  end.

(** Every relation of the payload is complete and refers to entities
    of the payload. *)
Definition payload_sound (st : State) (p : Payload) : Prop :=
  Forall (fun r =>
            pr_predicate r <> []
            /\ lookup (pr_predicate r) (relationsMeta st) <> None
            /\ (exists e, In e (p_entities p) /\ Some (pe_id e) = pr_subject r)
            /\ (exists e, In e (p_entities p) /\ Some (pe_id e) = pr_object r))
         (p_relations p).

Definition is_skip (s : SaveStep) : bool :=
  match s with
  | StepSkip => true
  | _ => false
  end.


(** The entities the backend holds, according to the fetched copy. *)
Definition backend_entities (existing : Fetched) : list SavedEntity :=
  match existing with
  | Resolved saved => saved_entities saved
  | Rejected => []
  end.

(** A document that was loaded with saved annotations and not edited
    since. *)
Definition st_loaded : State :=
  loadTextResponse true data_hello
    (Resolved (Some {| sv_entities := Some []; sv_relations := Some [] |}))
    (set_relationsMeta initial_state person_org_schema).

(** The sample model with its relation the right way round, under the
    schema without attributes, and its document loaded. *)
Definition st_valid : State :=
  set_current (set_relations st_person_org [relation_AB]) (Some doc_hello).

(** A saved copy of that model. *)
Definition saved_AB : Saved :=
  {| sv_entities :=
       Some [ {| se_id := entity_id 1; se_class := lit "Person";
                 se_label := lit "hello"; se_attributes := Some [];
                 se_span := (0%Z, 5%Z) |};
              {| se_id := entity_id 2; se_class := lit "Org";
                 se_label := lit "world"; se_attributes := Some [];
                 se_span := (6%Z, 11%Z) |} ];
     sv_relations :=
       Some [ {| sr_id := lit "R1"; sr_predicate := Some (lit "WorksFor");
                 sr_subject := Some (entity_id 1); sr_object := Some (entity_id 2);
                 sr_attributes := Some [] |} ] |}.

(** The document loaded with that copy, the relation modal open on
    its relation. *)
Definition note_schema : list (jsstring * RelSpec) :=
  [ (lit "WorksFor",
     {| rs_subject := Some [lit "Person"]; rs_object := Some [lit "Org"];
        rs_attributes :=
          Some [ (lit "note", {| as_nullable := Some true; as_kind := KOther |}) ] |}) ].

Definition st_reloaded : State :=
  loadTextResponse true data_hello (Resolved (Some saved_AB))
    (set_relEditingId (set_relationsMeta initial_state note_schema)
       (Some (lit "R1"))).

Definition works_for_note_form : RelForm :=
  {| sel_rel := Some (lit "WorksFor");
     form_out := [(lit "note", VStr (lit "since 2020"))];
     form_order := {| ao_subject := []; ao_object := [];
                      ao_statement := [lit "note"] |} |}.

(** The class is permitted on that side of the relation type. *)
Definition permitted (side : Side) (spec : RelSpec) (klass : jsstring) : bool :=
  match side with
  | SideSubject => opt_includes (rs_subject spec) klass
  | SideObject => opt_includes (rs_object spec) klass
  end.

(** The endpoint on the other side. *)
Definition other_endpoint (side : Side) (rel : Relation) : option jsstring :=
  match side with
  | SideSubject => r_object rel
  | SideObject => r_subject rel
  end.

(** A relation started from the organisation, with no object yet and
    no predicate. *)
Definition relation_B_only : Relation :=
  {| r_id := lit "R3"; r_predicate := None;
     r_subject := Some (entity_id 2); r_object := None;
     r_attrs := []; r_attrOrder := None |}.

Definition st_one_endpoint : State :=
  set_relEditingId (set_relations st_person_org [relation_B_only]) (Some (lit "R3")).

(** ** Attribute groups (modals/relation.js) *)

Inductive AttrGroup := GPredicate | GSubject | GObject | GStatement.

Definition classifyAttrName (name : jsstring) : AttrGroup :=
  if str_eqb name (lit "edge_predicate") then GPredicate
  else if startsWith (lit "subject_") name then GSubject
  else if startsWith (lit "object_") name then GObject
  else GStatement.

Record Groups := {
  g_subject : list jsstring;
  g_predicate : list jsstring;
  g_object : list jsstring;
  g_statement : list jsstring
}.

(** [groups[classifyAttrName(n)].push(n)] *)
Definition push_group (g : Groups) (n : jsstring) : Groups :=
  match classifyAttrName n with
  | GSubject =>
      {| g_subject := g_subject g ++ [n]; g_predicate := g_predicate g;
         g_object := g_object g; g_statement := g_statement g |}
  | GPredicate =>
      {| g_subject := g_subject g; g_predicate := g_predicate g ++ [n];
         g_object := g_object g; g_statement := g_statement g |}
  | GObject =>
      {| g_subject := g_subject g; g_predicate := g_predicate g;
         g_object := g_object g ++ [n]; g_statement := g_statement g |}
  | GStatement =>
      {| g_subject := g_subject g; g_predicate := g_predicate g;
         g_object := g_object g; g_statement := g_statement g ++ [n] |}
  end.

(** [splitSpecOrder(attrs)], on the keys of [attrs]. *)
Definition splitSpecOrder (keys : list jsstring) : Groups :=
  fold_left push_group keys
    {| g_subject := []; g_predicate := []; g_object := []; g_statement := [] |}.

Definition group_eqb (a b : AttrGroup) : bool :=
  match a, b with
  | GPredicate, GPredicate | GSubject, GSubject
  | GObject, GObject | GStatement, GStatement => true
  | _, _ => false
  end.

(** The names of [keys] that fall in group [g], in order. *)
Definition names_in (g : AttrGroup) (keys : list jsstring) : list jsstring :=
  filter (fun n => group_eqb (classifyAttrName n) g) keys.

(** ** Class colours (utils/colors.js) *)

Definition PALETTE : list jsstring :=
  map lit
    ["#ff0000"; "#ff8800"; "#fffa00"; "#cbff00"; "#72ff00";
     "#00ffb3"; "#00c9ff"; "#0088ff"; "#0016ff"; "#8d00ff";
     "#b600ff"; "#ff00f7"; "#ff0075"; "#ff004c"; "#ffb800";
     "#00f1ff"]%string.

(** [CLASS_COLORS] and [nextColorIdx], the module's two variables.  The
    object is kept as its own keys in insertion order. *)
Record Registry := {
  CLASS_COLORS : list (jsstring * jsstring);
  nextColorIdx : nat
}.

Definition empty_registry : Registry :=
  {| CLASS_COLORS := []; nextColorIdx := 0 |}.

Record Colors := { bg : jsstring; chip : jsstring; border : jsstring }.

Definition shades (base : jsstring) : Colors :=
  {| bg := base ++ lit "66"; chip := base ++ lit "44"; border := base ++ lit "99" |}.

(** What [classColor] returns: the three shades of a palette colour, or,
    for an inherited name, strings built from the inherited member,
    which carry no colour. *)
Inductive Shade :=
| Shaded (c : Colors)
| Unshaded.

(** [klass in CLASS_COLORS]: it holds from the start for the names the
    object inherits. *)
Definition registered (klass : jsstring) (reg : Registry) : bool :=
  inherited klass
  || match lookup klass (CLASS_COLORS reg) with Some _ => true | None => false end.

(** [classColor(klass)] *)
Definition classColor (klass : jsstring) (reg : Registry) : Shade * Registry :=
  let reg' :=
    if registered klass reg then reg
    else {| CLASS_COLORS :=
              CLASS_COLORS reg
              ++ [(klass, nth (nextColorIdx reg mod length PALETTE) PALETTE [])];
            nextColorIdx := S (nextColorIdx reg) |} in
  (if inherited klass then Unshaded
   else match lookup klass (CLASS_COLORS reg') with
        | Some base => Shaded (shades base)
        | None => Unshaded
        end,
   reg').

(** The registry after [classColor] was called for each of [ks] in turn. *)
Definition asked (ks : list jsstring) (reg : Registry) : Registry :=
  fold_left (fun r k => snd (classColor k r)) ks reg.

(** The registry reached from the empty one: its keys are distinct, none
    is inherited, the counter is their number, and the key of rank [i]
    holds the palette colour [i mod 16]. *)
Definition well_formed (reg : Registry) : Prop :=
  NoDup (map fst (CLASS_COLORS reg))
  /\ nextColorIdx reg = length (CLASS_COLORS reg)
  /\ (forall k, In k (map fst (CLASS_COLORS reg)) -> inherited k = false)
  /\ (forall i k b, nth_error (CLASS_COLORS reg) i = Some (k, b) ->
        b = nth (i mod length PALETTE) PALETTE []).

(** ** Token nodes and their highlights (render/text_highlight.js) *)

(** The value last assigned to [style.background]. *)
Inductive Background :=
| Transparent
| Painted (s : Shade).

(** A [span.token]: its [data-idx], and what the highlighter writes. *)
Record TokenNode := {
  n_idx : nat;
  n_background : Background;
  n_annotated : bool;
  n_label : option jsstring;
  n_selected : bool
}.

(** [document.querySelector(`.token[data-idx="${i}"]`)]: the first such
    node of the page. *)
Definition querySelector (i : nat) (page : list TokenNode) : option TokenNode :=
  find (fun n => n_idx n =? i) page.

Definition reset_node (n : TokenNode) : TokenNode :=
  {| n_idx := n_idx n; n_background := Transparent; n_annotated := false;
     n_label := None; n_selected := false |}.

Definition paint (s : Shade) (klass : jsstring) (n : TokenNode) : TokenNode :=
  {| n_idx := n_idx n; n_background := Painted s; n_annotated := true;
     n_label := Some klass; n_selected := n_selected n |}.

(** One turn of the inner loop; a missing node is skipped. *)
Definition paint_at (s : Shade) (klass : jsstring) (page : list TokenNode) (i : nat)
  : list TokenNode :=
  update_first (fun n => n_idx n =? i) (paint s klass) page.

(** [for (let i = i0; i <= i1; i++)] *)
Definition paint_range (s : Shade) (klass : jsstring) (r : nat * nat)
    (page : list TokenNode) : list TokenNode :=
  fold_left (paint_at s klass) (seq (fst r) (S (snd r) - fst r)) page.

Fixpoint highlight_loop (annos : list Entity) (page : list TokenNode) (reg : Registry)
  : list TokenNode * Registry :=
  match annos with
  | [] => (page, reg)
  | anno :: rest =>
      let (colors, reg') := classColor (e_class anno) reg in
      highlight_loop rest
        (paint_range colors (e_class anno) (e_tokenRange anno) page) reg'
  end.

(** [applyAnnotationHighlights()] *)
Definition applyAnnotationHighlights (st : State) (page : list TokenNode)
    (reg : Registry) : list TokenNode * Registry :=
  highlight_loop (annotations st) (map reset_node page) reg.

(** The entity's token range holds the index [i]. *)
Definition covers (i : nat) (a : Entity) : bool :=
  (fst (e_tokenRange a) <=? i) && (i <=? snd (e_tokenRange a)).

(* ================================================================== *)
(** * Properties of strings *)

Unset Implicit Arguments.

Lemma str_eqb_eq (a b : jsstring) : str_eqb a b = true <-> a = b.
Proof.
  revert b; induction a as [|x a IH]; intros [|y b]; simpl; split;
    try congruence; try reflexivity.
  - rewrite andb_true_iff, N.eqb_eq, IH. intros [-> ->]; reflexivity.
  - intros H; injection H as -> ->. now rewrite N.eqb_refl, (proj2 (IH b) eq_refl).
Qed.

Lemma str_eqb_refl (a : jsstring) : str_eqb a a = true.
Proof. now apply str_eqb_eq. Qed.

Lemma str_eqb_neq (a b : jsstring) : str_eqb a b = false <-> a <> b.
Proof.
  rewrite <- str_eqb_eq. destruct (str_eqb a b); split; congruence.
Qed.

Lemma ostr_eqb_eq (a b : option jsstring) : ostr_eqb a b = true <-> a = b.
Proof.
  destruct a, b; simpl; try (split; congruence).
  rewrite str_eqb_eq. split; congruence.
Qed.

Lemma includes_In (xs : list jsstring) (x : jsstring) :
  includes xs x = true <-> In x xs.
Proof.
  unfold includes. rewrite existsb_exists. split.
  - intros (y & Hy & E). apply str_eqb_eq in E. now subst.
  - intros H. exists x. split; [assumption | apply str_eqb_refl].
Qed.

(** ** Property reads *)

Lemma get_own {A : Type} (k : jsstring) (m : list (jsstring * A)) (v : A) :
  lookup k m = Some v -> get k m = Own v.
Proof. unfold get. now intros ->. Qed.

Lemma get_own_inv {A : Type} (k : jsstring) (m : list (jsstring * A)) (v : A) :
  get k m = Own v -> lookup k m = Some v.
Proof.
  unfold get. destruct (lookup k m); [congruence|].
  destruct (inherited k); discriminate.
Qed.

Lemma relationsMeta_at_own (st : State) (name : jsstring) (spec : RelSpec) :
  lookup name (relationsMeta st) = Some spec -> relationsMeta_at st name = Some spec.
Proof. intros H. unfold relationsMeta_at. now rewrite (get_own _ _ _ H). Qed.

(** A read that is not [undefined] found an own key or an inherited
    member, which has no fields. *)
Lemma relationsMeta_at_some (st : State) (name : jsstring) (spec : RelSpec) :
  relationsMeta_at st name = Some spec ->
  lookup name (relationsMeta st) = Some spec
  \/ (lookup name (relationsMeta st) = None /\ inherited name = true
      /\ spec = no_fields).
Proof.
  unfold relationsMeta_at, get.
  destruct (lookup name (relationsMeta st)) as [s0|]; [left; congruence|].
  destruct (inherited name); [|discriminate].
  intros H. right. repeat split. congruence.
Qed.

Lemma relationsMeta_at_none (st : State) (name : jsstring) :
  relationsMeta_at st name = None
  <-> lookup name (relationsMeta st) = None /\ inherited name = false.
Proof.
  unfold relationsMeta_at, get.
  destruct (lookup name (relationsMeta st)); [split; [discriminate|intros [H _]; discriminate]|].
  destruct (inherited name); split; try discriminate; try tauto.
  intros [_ H]; discriminate.
Qed.

(** A schema entry that lists a class was stored in the schema. *)
Lemma relationsMeta_at_listed (st : State) (name : jsstring) (spec : RelSpec)
    (klass : jsstring) :
  relationsMeta_at st name = Some spec ->
  opt_includes (rs_subject spec) klass = true
  \/ opt_includes (rs_object spec) klass = true ->
  lookup name (relationsMeta st) = Some spec.
Proof.
  intros H Hc. destruct (relationsMeta_at_some st name spec H) as [E|(_ & _ & ->)];
    [exact E|].
  simpl in Hc. destruct Hc; discriminate.
Qed.

(** The characters of [\s], spelled out. *)
Lemma is_space_cases (c : N) :
  is_space c = true ->
  In c [0x09; 0x0A; 0x0B; 0x0C; 0x0D; 0x20; 0xA0; 0x1680;
        0x2028; 0x2029; 0x202F; 0x205F; 0x3000; 0xFEFF]%N
  \/ (0x2000 <= c <= 0x200A)%N.
Proof.
  unfold is_space. rewrite orb_true_iff, existsb_exists.
  intros [(y & Hy & E) | H].
  - left. apply N.eqb_eq in E. now subst.
  - right. apply andb_true_iff in H. destruct H as [H1 H2].
    apply N.leb_le in H1, H2. lia.
Qed.

Lemma is_space_not_word (c : N) : is_space c = true -> is_word c = false.
Proof.
  intros H. apply is_space_cases in H. destruct H as [H | H].
  - simpl in H.
    repeat (destruct H as [H | H]; [subst c; reflexivity |]). contradiction.
  - unfold is_word.
    repeat rewrite orb_false_iff. repeat rewrite andb_false_iff.
    repeat rewrite N.leb_gt. rewrite N.eqb_neq. lia.
Qed.

Lemma is_space_not_high (c : N) : is_space c = true -> is_high c = false.
Proof.
  intros H. apply is_space_cases in H. destruct H as [H | H].
  - simpl in H.
    repeat (destruct H as [H | H]; [subst c; reflexivity |]). contradiction.
  - unfold is_high. rewrite andb_false_iff, !N.leb_gt. lia.
Qed.

Lemma is_space_bmp (c : N) : is_space c = true -> (c < 0x10000)%N.
Proof.
  intros H. apply is_space_cases in H. destruct H as [H | H].
  - simpl in H.
    repeat (destruct H as [H | H]; [subst c; reflexivity |]). contradiction.
  - lia.
Qed.

Lemma is_word_not_high (c : N) : is_word c = true -> is_high c = false.
Proof.
  unfold is_word, is_high. intros H.
  rewrite !orb_true_iff, !andb_true_iff, !N.leb_le, N.eqb_eq in H.
  rewrite andb_false_iff, !N.leb_gt. lia.
Qed.

Lemma is_high_not_space (c : N) : is_high c = true -> is_space c = false.
Proof.
  intros H. destruct (is_space c) eqn:E; [|reflexivity].
  apply is_space_not_high in E. congruence.
Qed.

Lemma pair_cp_not_space (h l : N) : is_space (pair_cp h l) = false.
Proof.
  destruct (is_space (pair_cp h l)) eqn:E; [|reflexivity].
  apply is_space_bmp in E. unfold pair_cp in E. lia.
Qed.

(** Every character is in exactly one of the three classes of the
    tokenizer's pattern. *)
Lemma class_total (c : N) :
  is_space c = false -> is_word c = false -> is_other c = true.
Proof. unfold is_other. now intros -> ->. Qed.

Lemma drop_space_nil (s : jsstring) :
  drop_space s = [] <-> forallb is_space s = true.
Proof.
  induction s as [|c s IH]; simpl; [tauto|].
  destruct (is_space c); simpl; [assumption | split; congruence].
Qed.

Lemma drop_space_head (s t : jsstring) (c : N) :
  drop_space s = c :: t -> is_space c = false.
Proof.
  induction s as [|x s IH]; simpl; [discriminate|].
  destruct (is_space x) eqn:E; [assumption|].
  intros H; injection H as -> _. assumption.
Qed.

(** [s.trim() === ''] exactly when [s] is made of whitespace only. *)
Lemma trim_nil (s : jsstring) : trim s = [] <-> forallb is_space s = true.
Proof.
  unfold trim. split.
  - intros H.
    assert (H1 : drop_space (rev (drop_space s)) = []).
    { destruct (drop_space (rev (drop_space s))); [reflexivity|].
      simpl in H. destruct (rev j); discriminate. }
    apply drop_space_nil in H1. rewrite forallb_forall in H1.
    destruct (drop_space s) as [|c t] eqn:E.
    + now apply drop_space_nil.
    + pose proof (drop_space_head _ _ _ E) as Hc.
      rewrite (H1 c) in Hc; [discriminate|].
      rewrite <- in_rev. now left.
  - intros H. apply drop_space_nil in H. rewrite H. reflexivity.
Qed.

(* ================================================================== *)
(** * Tokenizer *)

(** Induction that follows [code_points]: one or two units at a time. *)
Lemma units_ind (P : jsstring -> Prop) :
  P [] ->
  (forall u, P [u]) ->
  (forall u l r, P r -> P (l :: r) -> P (u :: l :: r)) ->
  forall s, P s.
Proof.
  intros H0 H1 H2 s.
  enough (H : P s /\ forall u, P (u :: s)) by apply H.
  induction s as [|l r [IHr IHlr]]; split; auto.
Qed.

(** A character read from a string: one unit, or a surrogate pair. *)
Definition wf_cp (c : cpoint) : Prop :=
  cp_units c = [cp_val c]
  \/ exists h l, is_high h = true /\ is_low l = true
                 /\ cp_units c = [h; l] /\ cp_val c = pair_cp h l.

Lemma code_points_cons2 (u l : N) (r : jsstring) :
  code_points (u :: l :: r) =
  if is_high u && is_low l
  then {| cp_val := pair_cp u l; cp_units := [u; l] |} :: code_points r
  else {| cp_val := u; cp_units := [u] |} :: code_points (l :: r).
Proof. reflexivity. Qed.

Lemma code_points_units (s : jsstring) : units_of (code_points s) = s.
Proof.
  induction s as [|u|u l r IHr IHlr] using units_ind; try reflexivity.
  rewrite code_points_cons2. unfold units_of in *.
  destruct (is_high u && is_low l); simpl.
  - now rewrite IHr.
  - f_equal. exact IHlr.
Qed.

Lemma code_points_wf (s : jsstring) : Forall wf_cp (code_points s).
Proof.
  induction s as [|u|u l r IHr IHlr] using units_ind.
  - constructor.
  - repeat constructor.
  - rewrite code_points_cons2.
    destruct (is_high u && is_low l) eqn:E.
    + constructor; [|assumption]. right.
      apply andb_true_iff in E. destruct E. now exists u, l.
    + constructor; [|assumption]. now left.
Qed.

Lemma code_points_length (s : jsstring) : length (code_points s) <= length s.
Proof.
  induction s as [|u|u l r IHr IHlr] using units_ind; simpl; try lia.
  change (length (code_points (u :: l :: r)) <= S (S (length r))).
  rewrite code_points_cons2.
  destruct (is_high u && is_low l); simpl in *; lia.
Qed.

(** A unit that is not a high surrogate is read on its own. *)
Lemma code_points_single (u : N) (r : jsstring) :
  is_high u = false ->
  code_points (u :: r) = {| cp_val := u; cp_units := [u] |} :: code_points r.
Proof.
  intros H. destruct r as [|l r]; [reflexivity|].
  rewrite code_points_cons2, H. reflexivity.
Qed.

Lemma span_class_app (p : N -> bool) (l m r : list cpoint) :
  span_class p l = (m, r) ->
  m ++ r = l /\ Forall (fun c => p (cp_val c) = true) m.
Proof.
  revert m r; induction l as [|c l IH]; simpl; intros m r H.
  - injection H as <- <-. split; [reflexivity | constructor].
  - destruct (p (cp_val c)) eqn:E.
    + destruct (span_class p l) as [m' r'] eqn:E'.
      injection H as <- <-. destruct (IH _ _ eq_refl) as [IH1 IH2].
      split; [simpl; now rewrite IH1 | now constructor].
    + injection H as <- <-. split; [reflexivity | constructor].
Qed.

(** What one match of the pattern is: a non-empty run of whitespace, a
    non-empty run of word characters, or one other character. *)
Inductive token_shape : list cpoint -> Prop :=
| shape_space c m :
    Forall (fun c => is_space (cp_val c) = true) (c :: m) -> token_shape (c :: m)
| shape_word c m :
    Forall (fun c => is_word (cp_val c) = true) (c :: m) -> token_shape (c :: m)
| shape_other c :
    is_other (cp_val c) = true -> token_shape [c].

Lemma match_token_some (l m r : list cpoint) :
  match_token l = Some (m, r) -> m ++ r = l /\ token_shape m.
Proof.
  unfold match_token.
  destruct (span_class is_space l) as [[|c1 m1] r1] eqn:E1.
  - destruct (span_class is_word l) as [[|c2 m2] r2] eqn:E2.
    + destruct l as [|c l']; [discriminate|].
      destruct (is_other (cp_val c)) eqn:E3; [|discriminate].
      intros H; injection H as <- <-. split; [reflexivity | now constructor].
    + intros H; injection H as <- <-.
      apply span_class_app in E2. destruct E2. split; [assumption | now apply shape_word].
  - intros H; injection H as <- <-.
    apply span_class_app in E1. destruct E1. split; [assumption | now apply shape_space].
Qed.

(** The pattern matches at every position before the end of the text. *)
Lemma match_token_cons (c : cpoint) (l : list cpoint) :
  exists m r, match_token (c :: l) = Some (m, r).
Proof.
  unfold match_token. simpl.
  destruct (is_space (cp_val c)) eqn:Es.
  - destruct (span_class is_space l) as [m r]. eauto.
  - destruct (is_word (cp_val c)) eqn:Ew.
    + destruct (span_class is_word l) as [m r]. eauto.
    + rewrite (class_total _ Es Ew). eauto.
Qed.

(** So [exec] never steps over a character: it matches at [lastIndex]
    or, at the end of the text, returns [null]. *)
Lemma exec_spec (l : list cpoint) :
  match l with
  | [] => exec l = None
  | _ :: _ => exists m r, exec l = Some ([], m, r) /\ m ++ r = l /\ token_shape m
  end.
Proof.
  destruct l as [|c l]; [reflexivity|].
  destruct (match_token_cons c l) as (m & r & H).
  exists m, r. split.
  - simpl exec. now rewrite H.
  - now apply match_token_some.
Qed.

Lemma units_of_app (a b : list cpoint) :
  units_of (a ++ b) = units_of a ++ units_of b.
Proof. unfold units_of. now rewrite map_app, concat_app. Qed.

Lemma wf_cp_units_nonempty (c : cpoint) : wf_cp c -> cp_units c <> [].
Proof.
  intros [H | (h & l & _ & _ & H & _)]; rewrite H; discriminate.
Qed.

Lemma wf_cp_single (p : N -> bool) (c : cpoint) :
  (forall x, p x = true -> (x < 0x10000)%N) ->
  wf_cp c -> p (cp_val c) = true -> cp_units c = [cp_val c].
Proof.
  intros Hp [H | (h & l & _ & _ & _ & H)] Hc; [assumption|].
  apply Hp in Hc. rewrite H in Hc. unfold pair_cp in Hc. lia.
Qed.

Lemma is_word_bmp (c : N) : is_word c = true -> (c < 0x10000)%N.
Proof.
  unfold is_word. intros H.
  rewrite !orb_true_iff, !andb_true_iff, !N.leb_le, N.eqb_eq in H. lia.
Qed.

(** A run of characters of a class made of single, non-surrogate units
    is spelled by exactly those units, and reads back unit by unit. *)
Lemma run_units (p : N -> bool) (m : list cpoint) :
  (forall x, p x = true -> (x < 0x10000)%N) ->
  Forall wf_cp m -> Forall (fun c => p (cp_val c) = true) m ->
  units_of m = map cp_val m.
Proof.
  intros Hp Hwf Hall. induction m as [|c m IH]; [reflexivity|].
  inversion Hwf; inversion Hall; subst.
  unfold units_of in *. simpl. rewrite IH by assumption.
  now rewrite (wf_cp_single p c Hp).
Qed.

Lemma code_points_run (p : N -> bool) (us : jsstring) :
  (forall x, p x = true -> is_high x = false) ->
  forallb p us = true ->
  map cp_val (code_points us) = us.
Proof.
  intros Hp. induction us as [|u us IH]; simpl forallb; [reflexivity|].
  rewrite andb_true_iff. intros [Hu Hus].
  rewrite code_points_single by now apply Hp.
  simpl. now rewrite IH.
Qed.

Lemma existsb_map_cp (p : N -> bool) (l : list cpoint) :
  existsb (fun c => p (cp_val c)) l = existsb p (map cp_val l).
Proof. induction l as [|c l IH]; simpl; [reflexivity | now rewrite IH]. Qed.

(** [isSpace] as computed by the source agrees with "all whitespace"
    on every string the pattern can match. *)
Lemma test_space_shape (m : list cpoint) :
  Forall wf_cp m -> token_shape m ->
  units_of m <> []
  /\ (test_space (units_of m) = true <-> whitespace_only (units_of m)).
Proof.
  intros Hwf Hshape. unfold whitespace_only, test_space.
  destruct Hshape as [c m H | c m H | c H].
  - (* whitespace *)
    rewrite (run_units is_space _ is_space_bmp Hwf H).
    assert (Hf : forallb is_space (map cp_val (c :: m)) = true).
    { rewrite forallb_forall. intros x Hx. apply in_map_iff in Hx.
      destruct Hx as (y & <- & Hy). rewrite Forall_forall in H. now apply H. }
    split; [discriminate|].
    rewrite existsb_map_cp.
    rewrite (code_points_run is_space _ is_space_not_high Hf).
    simpl in *. apply andb_true_iff in Hf. destruct Hf as [-> ->]. tauto.
  - (* word characters *)
    rewrite (run_units is_word _ is_word_bmp Hwf H).
    assert (Hf : forallb is_word (map cp_val (c :: m)) = true).
    { rewrite forallb_forall. intros x Hx. apply in_map_iff in Hx.
      destruct Hx as (y & <- & Hy). rewrite Forall_forall in H. now apply H. }
    split; [discriminate|].
    rewrite existsb_map_cp.
    rewrite (code_points_run is_word _ is_word_not_high Hf).
    assert (Hn : forall us, forallb is_word us = true -> existsb is_space us = false).
    { induction us as [|u us IH]; simpl; [reflexivity|].
      rewrite andb_true_iff. intros [Hu Hus].
      destruct (is_space u) eqn:Es.
      - apply is_space_not_word in Es. congruence.
      - now apply IH. }
    rewrite (Hn _ Hf).
    simpl in *. apply andb_true_iff in Hf. destruct Hf as [Hc _].
    destruct (is_space (cp_val c)) eqn:Es.
    + apply is_space_not_word in Es. congruence.
    + simpl. split; discriminate.
  - (* one other character *)
    inversion Hwf as [|? ? Hc _]; subst.
    unfold is_other in H. apply andb_true_iff in H. destruct H as [_ Hs].
    apply negb_true_iff in Hs.
    unfold units_of. simpl. rewrite app_nil_r.
    destruct Hc as [-> | (h & l & Hh & Hl & -> & Hv)].
    + split; [discriminate|]. simpl. rewrite Hs. simpl. split; discriminate.
    + split; [discriminate|].
      rewrite code_points_cons2, Hh, Hl. simpl.
      rewrite pair_cp_not_space, (is_high_not_space _ Hh). simpl.
      split; discriminate.
Qed.

Lemma token_shape_nonempty (m : list cpoint) : token_shape m -> 0 < length m.
Proof. intros [c m' _ | c m' _ | c _]; simpl; lia. Qed.

Lemma tokenize_loop_spec (fuel : nat) :
  forall (l : list cpoint) (i : Z),
    Forall wf_cp l -> length l < fuel ->
    exists toks,
      tokenize_loop fuel l i = Some toks
      /\ concat (map t_text toks) = units_of l
      /\ Forall (fun t => t_text t <> []) toks
      /\ tiles toks i (i + str_length (units_of l))
      /\ Forall (fun t => t_isSpace t = true <-> whitespace_only (t_text t)) toks.
Proof.
  induction fuel as [|fuel IH]; intros l i Hwf Hlen; [lia|].
  pose proof (exec_spec l) as Hex. destruct l as [|c l'].
  - exists []. unfold str_length. simpl.
    repeat split; try constructor. lia.
  - destruct Hex as (m & r & Hexec & Happ & Hshape).
    rewrite <- Happ in Hwf. apply Forall_app in Hwf. destruct Hwf as [Hm Hr].
    pose proof (token_shape_nonempty _ Hshape) as Hpos.
    assert (Hlen' : length r < fuel).
    { apply (f_equal (@length cpoint)) in Happ. rewrite length_app in Happ.
      simpl in *. lia. }
    destruct (test_space_shape _ Hm Hshape) as [Hne Hsp].
    destruct (IH r (i + str_length (units_of m))%Z Hr Hlen')
      as (toks & Hloop & Hcat & Hnon & Htiles & Hspace).
    eexists. cbn [tokenize_loop]. rewrite Hexec, Hloop. split; [reflexivity|].
    rewrite <- Happ, units_of_app.
    repeat split; simpl.
    + now rewrite Hcat.
    + now constructor.
    + unfold str_length. destruct (units_of m); [congruence | simpl length; lia].
    + unfold str_length in *. rewrite length_app, Nat2Z.inj_add, Z.add_assoc.
      exact Htiles.
    + constructor; [exact Hsp | exact Hspace].
Qed.

(** C1.  For every input string the tokenizer returns a token sequence
    whose texts, concatenated, are the input; no token is empty; the
    offsets start at 0, each token ends where the next starts and the
    last ends at the length of the input, each token spanning exactly
    its text; and [isSpace] holds exactly for the tokens made of
    whitespace only. *)
Theorem tokenizeWithOffsets_tiles_input (text : jsstring) :
  exists toks,
    tokenizeWithOffsets text = Some toks
    /\ concat (map t_text toks) = text
    /\ Forall (fun t => t_text t <> []) toks
    /\ tiles toks 0 (str_length text)
    /\ Forall (fun t => t_isSpace t = true <-> whitespace_only (t_text t)) toks.
Proof.
  unfold tokenizeWithOffsets.
  destruct (tokenize_loop_spec (S (length text)) (code_points text) 0%Z)
    as (toks & H).
  - apply code_points_wf.
  - pose proof (code_points_length text). lia.
  - rewrite code_points_units in H. exists toks. exact H.
Qed.

(* ================================================================== *)
(** * Span to token range *)

Lemma tiles_bounds (ts : list Token) :
  forall from to k t,
    tiles ts from to -> nth_error ts k = Some t ->
    (from <= t_start t)%Z /\ (t_start t < t_end t)%Z /\ (t_end t <= to)%Z.
Proof.
  induction ts as [|x ts IH]; intros from to k t H Hk.
  - destruct k; discriminate.
  - simpl in H. destruct H as (H1 & H2 & H3 & H4).
    assert (Hto : forall l a b, tiles l a b -> (a <= b)%Z).
    { clear. induction l as [|y l IHl]; simpl; intros a b H; [lia|].
      destruct H as (? & ? & ? & H). apply IHl in H. lia. }
    pose proof (Hto _ _ _ H4).
    destruct k as [|k]; simpl in Hk.
    + injection Hk as <-. lia.
    + destruct (IH _ _ _ _ H4 Hk) as (? & ? & ?). lia.
Qed.

(** In a tiling, starts and ends grow with the index. *)
Lemma tiles_monotone (ts : list Token) :
  forall from to j k tj tk,
    tiles ts from to -> j <= k ->
    nth_error ts j = Some tj -> nth_error ts k = Some tk ->
    (t_start tj <= t_start tk)%Z /\ (t_end tj <= t_end tk)%Z.
Proof.
  induction ts as [|x ts IH]; intros from to j k tj tk H Hjk Hj Hk.
  - destruct j; discriminate.
  - simpl in H. destruct H as (H1 & H2 & H3 & H4).
    destruct j as [|j], k as [|k]; simpl in Hj, Hk; try lia.
    + injection Hj as <-. injection Hk as <-. lia.
    + injection Hj as <-. destruct (tiles_bounds ts _ _ k tk H4 Hk) as (? & ? & ?). lia.
    + apply (IH _ _ j k tj tk H4); [lia | assumption | assumption].
Qed.

Lemma first_idx_some (p : Token -> bool) (ts : list Token) (k : nat) :
  first_idx p ts = Some k ->
  (exists t, nth_error ts k = Some t /\ p t = true)
  /\ forall j t, j < k -> nth_error ts j = Some t -> p t = false.
Proof.
  revert k; induction ts as [|x ts IH]; simpl; intros k H; [discriminate|].
  destruct (p x) eqn:E.
  - injection H as <-. split; [now exists x | intros; lia].
  - destruct (first_idx p ts) as [k'|]; [|discriminate].
    injection H as <-. destruct (IH _ eq_refl) as [IH1 IH2].
    split; [exact IH1|].
    intros [|j] t Hj Ht; simpl in Ht.
    + now injection Ht as <-.
    + apply (IH2 j); [lia | assumption].
Qed.

Lemma first_idx_none (p : Token -> bool) (ts : list Token) :
  first_idx p ts = None <-> forall k t, nth_error ts k = Some t -> p t = false.
Proof.
  induction ts as [|x ts IH]; simpl.
  - split; [intros _ [|k] t H; discriminate | reflexivity].
  - destruct (p x) eqn:E.
    + split; [discriminate|]. intros H. specialize (H 0 x eq_refl). congruence.
    + destruct (first_idx p ts); simpl.
      * split; [discriminate|]. intros H.
        assert (Hn : Some n = None); [|discriminate].
        apply IH. intros k t Hk. apply (H (S k) t Hk).
      * split; [|reflexivity]. intros _ [|k] t Hk; simpl in Hk.
        -- now injection Hk as <-.
        -- destruct IH as [IH _]. apply (IH eq_refl k t Hk).
Qed.

Lemma last_idx_some (q : Token -> bool) (ts : list Token) (k : nat) :
  last_idx q ts = Some k ->
  (exists t, nth_error ts k = Some t /\ q t = true)
  /\ forall j t, k < j -> nth_error ts j = Some t -> q t = false.
Proof.
  revert k; induction ts as [|x ts IH]; simpl; intros k H; [discriminate|].
  destruct (last_idx q ts) as [k'|] eqn:E.
  - injection H as <-. destruct (IH _ eq_refl) as [IH1 IH2].
    split; [exact IH1|].
    intros [|j] t Hj Ht; [lia|]. simpl in Ht. apply (IH2 j); [lia | assumption].
  - destruct (q x) eqn:Eq; [|discriminate]. injection H as <-.
    split; [now exists x|].
    assert (Hn : forall j t, nth_error ts j = Some t -> q t = false).
    { clear -E. revert E. induction ts as [|y ts IHt]; simpl.
      - intros _ [|j] t H; discriminate.
      - destruct (last_idx q ts); [discriminate|].
        destruct (q y) eqn:Ey; [discriminate|].
        intros _ [|j] t H; simpl in H.
        + now injection H as <-.
        + now apply (IHt eq_refl j). }
    intros [|j] t Hj Ht; [lia|]. simpl in Ht. now apply (Hn j).
Qed.

Lemma last_idx_none (q : Token -> bool) (ts : list Token) :
  last_idx q ts = None <-> forall k t, nth_error ts k = Some t -> q t = false.
Proof.
  induction ts as [|x ts IH]; simpl.
  - split; [intros _ [|k] t H; discriminate | reflexivity].
  - destruct (last_idx q ts) as [k'|].
    + split; [discriminate|]. intros H.
      assert (Some k' = None); [|discriminate].
      apply IH. intros k t Hk. apply (H (S k) t Hk).
    + destruct (q x) eqn:E.
      * split; [discriminate|]. intros H. specialize (H 0 x eq_refl). congruence.
      * split; [|reflexivity]. intros _ [|k] t Hk; simpl in Hk.
        -- now injection Hk as <-.
        -- destruct IH as [IH _]. apply (IH eq_refl k t Hk).
Qed.

Section SpanLoop.

Variables start end_ : Z.
Hypothesis Hspan : (start < end_)%Z.

(** On a tiling the loop leaves in [i0] the first non-space token
    that ends after [start], whether or not it stops early. *)
Lemma span_loop_fst (ts : list Token) :
  forall i i0 i1 from to,
    tiles ts from to ->
    fst (span_loop start end_ ts i i0 i1) =
    match i0 with
    | Some a => Some a
    | None => option_map (Nat.add i) (first_idx (ends_after start) ts)
    end.
Proof.
  induction ts as [|t ts IH]; intros i i0 i1 from to H.
  - simpl. now destruct i0.
  - simpl in H. destruct H as (H1 & H2 & H3 & H4).
    cbn [span_loop first_idx]. unfold ends_after at 1.
    destruct (t_isSpace t) eqn:Esp; cbn [negb andb].
    + rewrite (IH _ _ _ _ _ H4). destruct i0; [reflexivity|].
      destruct (first_idx (ends_after start) ts); simpl; [f_equal; lia | reflexivity].
    + destruct i0 as [a|].
      * destruct (t_start t >=? end_)%Z; [reflexivity|].
        now rewrite (IH _ _ _ _ _ H4).
      * destruct (t_end t >? start)%Z eqn:Ee.
        -- simpl. replace (i + 0) with i by lia.
           destruct (t_start t >=? end_)%Z; [reflexivity|].
           now rewrite (IH _ _ _ _ _ H4).
        -- destruct (t_start t >=? end_)%Z eqn:Eb.
           ++ exfalso. apply Z.geb_le in Eb.
              rewrite Z.gtb_ltb in Ee. apply Z.ltb_ge in Ee. lia.
           ++ rewrite (IH _ _ _ _ _ H4).
              destruct (first_idx (ends_after start) ts); simpl;
                [f_equal; lia | reflexivity].
Qed.

Lemma last_idx_past (ts : list Token) :
  forall from to,
    tiles ts from to -> (end_ <= from)%Z ->
    last_idx (starts_before end_) ts = None.
Proof.
  intros from to H Hfrom. apply last_idx_none. intros k t Hk.
  destruct (tiles_bounds ts _ _ k t H Hk) as (Hb & _ & _).
  unfold starts_before. apply andb_false_iff. right. apply Z.ltb_ge. lia.
Qed.

(** ... and in [i1] the last non-space token that starts before
    [end_]: nothing after the token it stops at starts before
    [end_]. *)
Lemma span_loop_snd (ts : list Token) :
  forall i i0 i1 from to,
    tiles ts from to ->
    snd (span_loop start end_ ts i i0 i1) =
    match last_idx (starts_before end_) ts with
    | Some k => Some (i + k)
    | None => i1
    end.
Proof.
  induction ts as [|t ts IH]; intros i i0 i1 from to H.
  - reflexivity.
  - simpl in H. destruct H as (H1 & H2 & H3 & H4).
    cbn [span_loop last_idx]. unfold starts_before at 2.
    destruct (t_isSpace t) eqn:Esp; cbn [negb andb].
    + rewrite (IH _ _ _ _ _ H4).
      destruct (last_idx (starts_before end_) ts); [f_equal; lia | reflexivity].
    + destruct (t_start t <? end_)%Z eqn:Eq.
      * assert (Eb : (t_start t >=? end_)%Z = false).
        { apply Z.ltb_lt in Eq. rewrite Z.geb_leb. apply Z.leb_gt. lia. }
        rewrite Eb, (IH _ _ _ _ _ H4).
        destruct (last_idx (starts_before end_) ts); f_equal; lia.
      * assert (Eb : (t_start t >=? end_)%Z = true).
        { apply Z.ltb_ge in Eq. rewrite Z.geb_leb. apply Z.leb_le. lia. }
        rewrite Eb. simpl snd.
        rewrite (last_idx_past ts _ _ H4); [reflexivity|].
        apply Z.ltb_ge in Eq. lia.
Qed.

End SpanLoop.

Lemma ends_after_true (start : Z) (t : Token) :
  ends_after start t = true <-> t_isSpace t = false /\ (start < t_end t)%Z.
Proof.
  unfold ends_after. rewrite andb_true_iff, negb_true_iff, Z.gtb_ltb, Z.ltb_lt. tauto.
Qed.

Lemma starts_before_true (end_ : Z) (t : Token) :
  starts_before end_ t = true <-> t_isSpace t = false /\ (t_start t < end_)%Z.
Proof.
  unfold starts_before. rewrite andb_true_iff, negb_true_iff, Z.ltb_lt. tauto.
Qed.

Lemma ends_after_false (start : Z) (t : Token) :
  ends_after start t = false -> t_isSpace t = false -> (t_end t <= start)%Z.
Proof.
  unfold ends_after. intros H E. rewrite E in H. simpl in H.
  rewrite Z.gtb_ltb in H. apply Z.ltb_ge in H. exact H.
Qed.

Lemma starts_before_false (end_ : Z) (t : Token) :
  starts_before end_ t = false -> t_isSpace t = false -> (end_ <= t_start t)%Z.
Proof.
  unfold starts_before. intros H E. rewrite E in H. simpl in H.
  now apply Z.ltb_ge in H.
Qed.

(** The part of the description of [spanToTokenRange] that the code
    keeps.  On a token sequence that tiles the text in order, as the
    tokenizer produces it, and for a span with [start < end_]:
    when some non-space token meets the span, [spanToTokenRange]
    returns [[i0, i1]] where [i0] is the first non-space token ending
    after [start] and [i1] the last non-space token starting before
    [end_], with [i0 <= i1] and every token of the range meeting the
    span; and it returns [null] when no non-space token ends after
    [start] or none starts before [end_]. *)
Theorem spanToTokenRange_on_tiling (st : State) (start end_ from to : Z) :
  tiles (tokens st) from to ->
  (start < end_)%Z ->
  (some_nonspace_intersects (tokens st) start end_ ->
   exists i0 i1,
     spanToTokenRange st (start, end_) = Some (i0, i1)
     /\ first_ending_after (tokens st) start i0
     /\ last_starting_before (tokens st) end_ i1
     /\ i0 <= i1
     /\ range_intersects (tokens st) start end_ i0 i1)
  /\ ((forall k t, nth_error (tokens st) k = Some t -> t_isSpace t = false ->
         (t_end t <= start)%Z)
      \/ (forall k t, nth_error (tokens st) k = Some t -> t_isSpace t = false ->
            (end_ <= t_start t)%Z) ->
      spanToTokenRange st (start, end_) = None).
Proof.
  intros Htiles Hspan.
  pose proof (span_loop_fst start end_ Hspan (tokens st) 0 None None _ _ Htiles) as Hfst.
  pose proof (span_loop_snd start end_ (tokens st) 0 None None _ _ Htiles) as Hsnd.
  unfold spanToTokenRange.
  destruct (span_loop start end_ (tokens st) 0 None None) as [r0 r1].
  simpl in Hfst, Hsnd. split.
  - intros (m & tm & Hm & Hmsp & Hm1 & Hm2).
    destruct (first_idx (ends_after start) (tokens st)) as [a|] eqn:Ea.
    2:{ exfalso. rewrite first_idx_none in Ea. specialize (Ea m tm Hm).
        apply ends_after_false in Ea; [lia | assumption]. }
    destruct (last_idx (starts_before end_) (tokens st)) as [b|] eqn:Eb.
    2:{ exfalso. rewrite last_idx_none in Eb. specialize (Eb m tm Hm).
        apply starts_before_false in Eb; [lia | assumption]. }
    simpl in Hfst. subst r0 r1. exists a, b. split; [reflexivity|].
    apply first_idx_some in Ea. destruct Ea as ((ta & Hta & Pa) & Ha).
    apply last_idx_some in Eb. destruct Eb as ((tb & Htb & Qb) & Hb).
    apply ends_after_true in Pa. apply starts_before_true in Qb.
    assert (Ham : a <= m).
    { destruct (le_lt_dec a m) as [|Hlt]; [assumption|].
      specialize (Ha m tm Hlt Hm). apply ends_after_false in Ha; [lia | assumption]. }
    assert (Hmb : m <= b).
    { destruct (le_lt_dec m b) as [|Hlt]; [assumption|].
      specialize (Hb m tm Hlt Hm). apply starts_before_false in Hb; [lia | assumption]. }
    repeat split.
    + exists ta. tauto.
    + intros k t Hk Ht Hsp. apply ends_after_false; [|assumption]. now apply (Ha k).
    + exists tb. tauto.
    + intros k t Hk Ht Hsp. apply starts_before_false; [|assumption]. now apply (Hb k).
    + lia.
    + destruct (tiles_monotone (tokens st) _ _ k b t tb Htiles) as [Hs _];
        [lia | assumption | assumption |]. lia.
    + destruct (tiles_monotone (tokens st) _ _ a k ta t Htiles) as [_ He];
        [lia | assumption | assumption |]. lia.
  - intros [Hno | Hno].
    + assert (E : first_idx (ends_after start) (tokens st) = None).
      { apply first_idx_none. intros k t Hk.
        destruct (ends_after start t) eqn:E; [|reflexivity].
        apply ends_after_true in E. destruct E as [E1 E2].
        specialize (Hno k t Hk E1). lia. }
      rewrite E in Hfst. simpl in Hfst. now subst r0.
    + assert (E : last_idx (starts_before end_) (tokens st) = None).
      { apply last_idx_none. intros k t Hk.
        destruct (starts_before end_ t) eqn:E; [|reflexivity].
        apply starts_before_true in E. destruct E as [E1 E2].
        specialize (Hno k t Hk E1). lia. }
      rewrite E in Hsnd. subst r1. now destruct r0.
Qed.

(** The design document's example: the span [[6,10)] over
    "hello world foo" maps to the token "world", index 2. *)
Lemma spanToTokenRange_on_tiling_witness :
  tiles (tokens st_hello) 0 15
  /\ (6 < 10)%Z
  /\ exists i0 i1,
       spanToTokenRange st_hello (6%Z, 10%Z) = Some (i0, i1)
       /\ first_ending_after (tokens st_hello) 6 i0
       /\ last_starting_before (tokens st_hello) 10 i1
       /\ i0 <= i1
       /\ range_intersects (tokens st_hello) 6 10 i0 i1.
Proof.
  assert (Ht : tiles (tokens st_hello) 0 15).
  { vm_compute. repeat split; reflexivity. }
  assert (Hs : (6 < 10)%Z) by reflexivity.
  split; [exact Ht|]. split; [exact Hs|].
  apply (proj1 (spanToTokenRange_on_tiling st_hello 6 10 0 15 Ht Hs)).
  exists 2.
  eexists. split; [vm_compute; reflexivity|].
  split; [reflexivity|]. split; reflexivity.
Defined.

(** C2.  The claim fails on a span that covers only the whitespace
    between two words.  In "ab  cd" -- tokens "ab" [0,2), "  " [2,4),
    "cd" [4,6) -- the span [[2,4)] meets no non-space token, so [null]
    is due.  The loop sets [i0 = 2] at "cd", the first non-space token
    ending after 2, and leaves [i1 = 0] at "ab", the last one starting
    before 4; neither is [null], which is all the function tests, and
    the result is [[2, 0]], its first index after its second.  A saved
    entity with that span is kept on load, with that token range. *)
Theorem spanToTokenRange_whitespace_span :
  map (fun t => (t_start t, t_end t, t_isSpace t)) (tokens st_gap)
  = [ (0, 2, false); (2, 4, true); (4, 6, false) ]%Z
  /\ (2 < 4)%Z
  /\ ~ some_nonspace_intersects (tokens st_gap) 2 4
  /\ spanToTokenRange st_gap (2%Z, 4%Z) = Some (2, 0)
  /\ ~ token_range_as_described st_gap 2 4
  /\ map (fun a => (e_id a, e_span a, e_tokenRange a))
       (annotations
          (loadTextResponse true data_gap (Resolved (Some saved_gap)) initial_state))
     = [ (lit "T1", (2%Z, 4%Z), (2, 0)) ].
Proof.
  assert (E1 : spanToTokenRange st_gap (2%Z, 4%Z) = Some (2, 0))
    by (vm_compute; reflexivity).
  split; [vm_compute; reflexivity|]. split; [reflexivity|].
  split; [|split; [exact E1|split]].
  - intros (k & t & Hk & Hsp & H1 & H2).
    change (tokens st_gap) with
      [ {| t_text := lit "ab"; t_start := 0; t_end := 2; t_isSpace := false |};
        {| t_text := lit "  "; t_start := 2; t_end := 4; t_isSpace := true |};
        {| t_text := lit "cd"; t_start := 4; t_end := 6; t_isSpace := false |} ] in Hk.
    destruct k as [|[|[|k]]]; simpl in Hk.
    + injection Hk as <-. simpl in H2. lia.
    + injection Hk as <-. discriminate.
    + injection Hk as <-. simpl in H1. lia.
    + destruct k; discriminate.
  - unfold token_range_as_described. rewrite E1. intros (_ & _ & H & _). lia.
  - vm_compute. reflexivity.
Qed.

(* ================================================================== *)
(** * Entity ids *)

Lemma lit_inj (a b : String.string) : lit a = lit b -> a = b.
Proof.
  unfold lit. intros H.
  assert (Hm : forall x y : list ascii, map N_of_ascii x = map N_of_ascii y -> x = y).
  { induction x as [|c x IH]; intros [|d y] E; simpl in E; try discriminate.
    - reflexivity.
    - injection E as E1 E2. f_equal; [|now apply IH].
      rewrite <- (ascii_N_embedding c), <- (ascii_N_embedding d). now rewrite E1. }
  apply Hm in H.
  rewrite <- (string_of_list_ascii_of_string a), <- (string_of_list_ascii_of_string b).
  now rewrite H.
Qed.

Lemma decimal_inj (n m : nat) : decimal n = decimal m -> n = m.
Proof.
  unfold decimal. intros H. apply lit_inj in H.
  assert (E : Some (Nat.to_uint n) = Some (Nat.to_uint m)).
  { rewrite <- (NilEmpty.usu (Nat.to_uint n)), <- (NilEmpty.usu (Nat.to_uint m)).
    now rewrite H. }
  injection E as E.
  rewrite <- (DecimalNat.Unsigned.of_to n), <- (DecimalNat.Unsigned.of_to m).
  now rewrite E.
Qed.

Lemma entity_id_inj (n m : nat) : entity_id n = entity_id m -> n = m.
Proof.
  unfold entity_id. intros H. apply app_inv_head in H. now apply decimal_inj.
Qed.

Lemma sequential_ids_NoDup (st : State) : sequential_ids st -> ids_unique st.
Proof.
  unfold sequential_ids, ids_unique. intros ->.
  apply Finite.Injective_map_NoDup; [|apply seq_NoDup].
  intros n m. apply entity_id_inj.
Qed.

Lemma update_first_map {A B : Type} (g : A -> B) (p : A -> bool) (f : A -> A)
    (l : list A) :
  (forall x, g (f x) = g x) -> map g (update_first p f l) = map g l.
Proof.
  intros Hg. induction l as [|x l IH]; simpl; [reflexivity|].
  destruct (p x); simpl; [now rewrite Hg | now rewrite IH].
Qed.

Lemma update_first_length {A : Type} (p : A -> bool) (f : A -> A) (l : list A) :
  length (update_first p f l) = length l.
Proof.
  induction l as [|x l IH]; simpl; [reflexivity|].
  destruct (p x); simpl; [reflexivity | now rewrite IH].
Qed.

(** What [confirmSaveAnnotation] can do to the entity collection: leave
    it alone, append one entity with the next count-based id, or
    rewrite one entity keeping its id. *)
Lemma confirmSaveAnnotation_ids (form : EntityForm) (st st' : State) :
  confirmSaveAnnotation form st = Returned st' ->
  map e_id (annotations st') = map e_id (annotations st)
  \/ map e_id (annotations st') =
     map e_id (annotations st) ++ [entity_id (length (annotations st) + 1)].
Proof.
  unfold confirmSaveAnnotation.
  destruct (sel_class form) as [klass|]; [|intros H; injection H as <-; now left].
  destruct (ui_mode st).
  - destruct (startIdx (selection st)) as [a|]; [|intros H; injection H as <-; now left].
    destruct (endIdx (selection st)) as [b|]; [|intros H; injection H as <-; now left].
    destruct (token_node st a) as [ta|]; [|discriminate].
    destruct (token_node st b) as [tb|]; [|discriminate].
    intros H; injection H as <-. right. simpl. now rewrite map_app.
  - destruct (find (is_edited st) (annotations st));
      [|intros H; injection H as <-; now left].
    intros H; injection H as <-. left. simpl.
    now apply update_first_map.
Qed.

Lemma sequential_ids_step (ids : list jsstring) (n : nat) :
  ids = map entity_id (seq 1 n) ->
  ids ++ [entity_id (n + 1)] = map entity_id (seq 1 (n + 1)).
Proof.
  intros ->. replace (seq 1 (n + 1)) with (seq 1 (S n)) by (f_equal; lia).
  rewrite seq_S, map_app. simpl. now rewrite Nat.add_1_r.
Qed.

Lemma run_op_sequential (st : State) (op : EntityOp) :
  is_delete op = false -> sequential_ids st -> sequential_ids (run_op st op).
Proof.
  unfold sequential_ids. intros Hop Hst.
  assert (Hgen : forall form st0,
            annotations st0 = annotations st ->
            sequential_ids (settle st0 (confirmSaveAnnotation form st0))).
  { intros form st0 E0. unfold sequential_ids.
    destruct (confirmSaveAnnotation form st0) as [st'|] eqn:E; simpl.
    - apply confirmSaveAnnotation_ids in E. rewrite E0 in E.
      assert (Hl : length (annotations st') = length (map e_id (annotations st')))
        by now rewrite length_map.
      destruct E as [E | E]; rewrite E in *.
      + rewrite length_map in Hl. now rewrite Hl.
      + rewrite length_app, length_map in Hl. simpl in Hl.
        rewrite Hl. now apply sequential_ids_step.
    - now rewrite E0. }
  destruct op as [a b form | id form | id]; simpl in *; try discriminate;
    now apply Hgen.
Qed.

(** C3 (amended).  In a session that starts from entities numbered
    [T1 .. Tn] (in particular from none) and contains no delete, the
    ids stay [T1 .. Tm] in creation order: they are pairwise distinct
    and no create assigns the id of an existing entity. *)
Theorem entity_ids_unique_without_delete (st : State) (ops : list EntityOp) :
  sequential_ids st ->
  forallb (fun op => negb (is_delete op)) ops = true ->
  sequential_ids (run_ops st ops) /\ ids_unique (run_ops st ops).
Proof.
  intros Hst Hops.
  enough (H : sequential_ids (run_ops st ops))
    by (split; [exact H | now apply sequential_ids_NoDup]).
  unfold run_ops. revert st Hst Hops.
  induction ops as [|op ops IH]; intros st Hst Hops; simpl in *; [assumption|].
  apply andb_true_iff in Hops. destruct Hops as [Hop Hops].
  apply IH; [|assumption].
  apply run_op_sequential; [|assumption]. now apply negb_true_iff.
Qed.

(** Two creates in the sample document give [T1] and [T2]. *)
Lemma entity_ids_unique_without_delete_witness :
  sequential_ids st_hello
  /\ forallb (fun op => negb (is_delete op))
       [OpCreate 0 0 person_form; OpCreate 2 2 person_form] = true
  /\ sequential_ids (run_ops st_hello [OpCreate 0 0 person_form; OpCreate 2 2 person_form])
  /\ ids_unique (run_ops st_hello [OpCreate 0 0 person_form; OpCreate 2 2 person_form]).
Proof.
  assert (H1 : sequential_ids st_hello) by reflexivity.
  assert (H2 : forallb (fun op => negb (is_delete op))
                 [OpCreate 0 0 person_form; OpCreate 2 2 person_form] = true)
    by reflexivity.
  split; [exact H1|]. split; [exact H2|].
  exact (entity_ids_unique_without_delete st_hello _ H1 H2).
Defined.

(** C3, as stated, fails: the id is made from the current number of
    entities, so after deleting [T1] of [T1, T2] the next create is
    given [T2] again, an id already present. *)
Lemma entity_ids_counterexample :
  map e_id (annotations (run_ops st_hello session_reusing_id))
    = [entity_id 2; entity_id 2]
  /\ ~ ids_unique (run_ops st_hello session_reusing_id).
Proof.
  assert (E : map e_id (annotations (run_ops st_hello session_reusing_id))
              = [entity_id 2; entity_id 2]) by (vm_compute; reflexivity).
  split; [exact E|].
  unfold ids_unique. rewrite E. intros H.
  inversion H as [|x l Hin _]; subst. apply Hin. now left.
Qed.

(* ================================================================== *)
(** * Deleting an entity *)

Lemma deleteAnnotation_edit_mode (st : State) (id : jsstring) :
  ui_mode st = ModeEdit -> ui_editId st = Some id ->
  annotations (deleteAnnotation st)
    = filter (fun a => negb (str_eqb (e_id a) id)) (annotations st)
  /\ relations (deleteAnnotation st)
    = filter (fun r => negb (ostr_eqb (r_subject r) (Some id))
                       && negb (ostr_eqb (r_object r) (Some id)))
             (relations st).
Proof.
  intros Hm He. unfold deleteAnnotation. rewrite Hm, He. simpl. split; reflexivity.
Qed.

(** C4.  Deleting the entity [id] -- its chip opens the modal in edit
    mode on [id], and Delete runs [deleteAnnotation] -- keeps exactly
    the entities whose id is not [id] and exactly the relations whose
    subject and object are both different from [id]: the entity is no
    longer found, and no remaining relation refers to [id]. *)
Theorem deleteAnnotation_cascades (st : State) (id : jsstring) :
  let st' := deleteAnnotation (openEntityModal ModeEdit (Some id) st) in
  entityById st' id = None
  /\ (forall a, In a (annotations st') <-> In a (annotations st) /\ e_id a <> id)
  /\ (forall r, In r (relations st') <->
        In r (relations st) /\ r_subject r <> Some id /\ r_object r <> Some id).
Proof.
  intros st'.
  destruct (deleteAnnotation_edit_mode (openEntityModal ModeEdit (Some id) st) id
              eq_refl eq_refl) as [Ha Hr].
  change (annotations (openEntityModal ModeEdit (Some id) st))
    with (annotations st) in Ha.
  change (relations (openEntityModal ModeEdit (Some id) st))
    with (relations st) in Hr.
  fold st' in Ha, Hr.
  assert (Hin : forall a, In a (annotations st') <-> In a (annotations st) /\ e_id a <> id).
  { intros a. rewrite Ha, filter_In, negb_true_iff, str_eqb_neq. tauto. }
  split; [|split].
  - unfold entityById. destruct (find _ (annotations st')) as [a|] eqn:E; [|reflexivity].
    apply find_some in E. destruct E as [E1 E2].
    apply Hin in E1. apply str_eqb_eq in E2. tauto.
  - exact Hin.
  - intros r. rewrite Hr, filter_In, andb_true_iff, !negb_true_iff.
    assert (Hn : forall x y, ostr_eqb x y = false <-> x <> y).
    { intros x y. rewrite <- ostr_eqb_eq. destruct (ostr_eqb x y); split; congruence. }
    rewrite !Hn. tauto.
Qed.

(* ================================================================== *)
(** * Operations on unknown ids *)

Lemma find_none_iff {A : Type} (p : A -> bool) (l : list A) :
  find p l = None <-> forall x, In x l -> p x = false.
Proof.
  split; [apply find_none|].
  induction l as [|x l IH]; simpl; intros H; [reflexivity|].
  rewrite (H x (or_introl eq_refl)). apply IH. intros y Hy. apply H. now right.
Qed.

Lemma filter_all {A : Type} (p : A -> bool) (l : list A) :
  (forall x, In x l -> p x = true) -> filter p l = l.
Proof.
  induction l as [|x l IH]; simpl; intros H; [reflexivity|].
  rewrite (H x (or_introl eq_refl)). f_equal. apply IH. intros y Hy. apply H. now right.
Qed.

Lemma set_relations_same (st : State) : set_relations st (relations st) = st.
Proof. now destruct st. Qed.

Lemma entity_unknown_find (st : State) :
  ~ entity_known st (ui_editId st) -> find (is_edited st) (annotations st) = None.
Proof.
  intros H. apply find_none_iff. intros a Ha.
  destruct (is_edited st a) eqn:E; [|reflexivity].
  exfalso. apply H. exists a. split; [assumption|]. now apply ostr_eqb_eq.
Qed.

Lemma relation_unknown_find (st : State) :
  ~ relation_known st (ui_relEditingId st) -> edited_relation st = None.
Proof.
  intros H. apply find_none_iff. intros r Hr.
  destruct (is_rel_edited st r) eqn:E; [|reflexivity].
  exfalso. apply H. exists r. split; [assumption|]. now apply ostr_eqb_eq.
Qed.

(** C9.  Confirming the entity modal in edit mode on an id that no
    entity has, confirming the relation modal on an id that no
    relation has, and removing a relation by an id that no relation
    has all return normally and leave the state, hence the entity and
    relation collections, as it was. *)
Theorem unknown_id_is_noop (st : State) :
  (forall form,
     ui_mode st = ModeEdit -> ~ entity_known st (ui_editId st) ->
     confirmSaveAnnotation form st = Returned st)
  /\ (forall form,
        ~ relation_known st (ui_relEditingId st) ->
        confirmRelation form st = Returned st)
  /\ (forall relId,
        ~ relation_known st (Some relId) ->
        deleteRelation relId st = st).
Proof.
  split; [|split].
  - intros form Hm Hu. unfold confirmSaveAnnotation.
    destruct (sel_class form); [|reflexivity].
    now rewrite Hm, (entity_unknown_find st Hu).
  - intros form Hu. unfold confirmRelation.
    apply relation_unknown_find in Hu. unfold edited_relation in Hu. now rewrite Hu.
  - intros relId Hu. unfold deleteRelation.
    rewrite filter_all; [apply set_relations_same|].
    intros r Hr. apply negb_true_iff, str_eqb_neq. intros E.
    apply Hu. exists r. split; [assumption | now rewrite E].
Qed.

(** The sample model has no entity [T7] and no relation [R9]. *)
Lemma unknown_id_is_noop_witness :
  let st := set_relEditingId (openEntityModal ModeEdit (Some (entity_id 7)) st_person_org)
              (Some (lit "R9")) in
  confirmSaveAnnotation person_form st = Returned st
  /\ confirmRelation works_for_form st = Returned st
  /\ deleteRelation (lit "R9") st = st.
Proof.
  intros st.
  assert (Hent : ~ entity_known st (ui_editId st)).
  { intros (a & Ha & E). simpl in Ha.
    destruct Ha as [<- | [<- | []]]; vm_compute in E; discriminate. }
  assert (Hrel : ~ relation_known st (ui_relEditingId st)).
  { intros (r & Hr & E). simpl in Hr.
    destruct Hr as [<- | []]; vm_compute in E; discriminate. }
  destruct (unknown_id_is_noop st) as (H1 & H2 & H3).
  split; [exact (H1 person_form eq_refl Hent)|].
  split; [exact (H2 works_for_form Hrel)|].
  exact (H3 (lit "R9") Hrel).
Defined.

(** Deleting an entity by an id that no entity has leaves the entities
    as they were and removes only the relations that refer to that
    id; with none, the relations are as they were too. *)
Lemma deleteAnnotation_unknown_id (st : State) (id : jsstring) :
  ui_mode st = ModeEdit -> ui_editId st = Some id ->
  ~ entity_known st (Some id) ->
  annotations (deleteAnnotation st) = annotations st
  /\ ((forall r, In r (relations st) ->
         r_subject r <> Some id /\ r_object r <> Some id) ->
      relations (deleteAnnotation st) = relations st).
Proof.
  intros Hm He Hu.
  destruct (deleteAnnotation_edit_mode st id Hm He) as [-> ->]. split.
  - apply filter_all. intros a Ha. apply negb_true_iff, str_eqb_neq. intros E.
    apply Hu. exists a. split; [assumption | now rewrite E].
  - intros Hr. apply filter_all. intros r Hin. destruct (Hr r Hin) as [H1 H2].
    apply andb_true_iff. split; apply negb_true_iff;
      (destruct (ostr_eqb _ _) eqn:E; [apply ostr_eqb_eq in E; congruence | reflexivity]).
Qed.

(* ================================================================== *)
(** * Orientation of a relation *)

Lemma find_update_first {A : Type} (p : A -> bool) (f : A -> A) (l : list A) :
  (forall x, p (f x) = p x) ->
  find p (update_first p f l) = option_map f (find p l).
Proof.
  intros Hp. induction l as [|x l IH]; simpl; [reflexivity|].
  destruct (p x) eqn:E; simpl.
  - now rewrite Hp, E.
  - now rewrite E.
Qed.

(** [confirmRelation] on a known relation: it returns, and the edited
    relation carries the chosen predicate and the oriented endpoints. *)
Lemma confirmRelation_known (st : State) (form : RelForm) (name : jsstring)
    (rel : Relation) :
  sel_rel form = Some name ->
  edited_relation st = Some rel ->
  exists st' rel',
    confirmRelation form st = Returned st'
    /\ edited_relation st' = Some rel'
    /\ annotations st' = annotations st
    /\ r_id rel' = r_id rel
    /\ r_predicate rel' = Some name
    /\ (r_subject rel', r_object rel') = oriented st name rel.
Proof.
  intros Hname Hrel. unfold confirmRelation.
  unfold edited_relation in Hrel. rewrite Hrel, Hname.
  eexists. eexists. split; [reflexivity|].
  unfold edited_relation. simpl relations.
  change (is_rel_edited (set_relations st ?l)) with (is_rel_edited st).
  rewrite find_update_first.
  - rewrite Hrel. simpl. split; [reflexivity|].
    destruct (oriented st name rel) as [s o]. simpl. repeat split; reflexivity.
  - intros r. unfold is_rel_edited. now destruct (oriented st name r).
Qed.

(** C5.  When [confirmRelation] sets the predicate [name] of the
    relation being edited:
    - if both endpoints are entities (with non-empty class names) and
      the schema permits their classes only in the reverse
      orientation, subject and object are swapped;
    - if the schema permits both orientations, they are left as they
      are;
    - if only the subject is set and its class is permitted only as
      object, it becomes the object and the subject becomes [null];
      if only the object is set and its class is permitted only as
      subject, it becomes the subject and the object becomes [null]. *)
Theorem confirmRelation_orients (st : State) (form : RelForm) (name : jsstring)
    (rel : Relation) (spec : RelSpec) :
  sel_rel form = Some name ->
  edited_relation st = Some rel ->
  lookup name (relationsMeta st) = Some spec ->
  exists st' rel',
    confirmRelation form st = Returned st'
    /\ edited_relation st' = Some rel'
    /\ r_predicate rel' = Some name
    /\ (forall left_ right_,
          endpoint_entity st (r_subject rel) = Some left_ ->
          endpoint_entity st (r_object rel) = Some right_ ->
          let fwd := opt_includes (rs_subject spec) (e_class left_)
                     && opt_includes (rs_object spec) (e_class right_) in
          let rev := opt_includes (rs_subject spec) (e_class right_)
                     && opt_includes (rs_object spec) (e_class left_) in
          (e_class left_ <> [] -> e_class right_ <> [] ->
           rev = true -> fwd = false ->
           r_subject rel' = r_object rel /\ r_object rel' = r_subject rel)
          /\ (rev = true -> fwd = true ->
              r_subject rel' = r_subject rel /\ r_object rel' = r_object rel))
    /\ (forall left_,
          endpoint_entity st (r_subject rel) = Some left_ ->
          r_object rel = None ->
          opt_includes (rs_object spec) (e_class left_) = true ->
          opt_includes (rs_subject spec) (e_class left_) = false ->
          r_subject rel' = None /\ r_object rel' = r_subject rel)
    /\ (forall right_,
          r_subject rel = None ->
          endpoint_entity st (r_object rel) = Some right_ ->
          opt_includes (rs_subject spec) (e_class right_) = true ->
          opt_includes (rs_object spec) (e_class right_) = false ->
          r_subject rel' = r_object rel /\ r_object rel' = None).
Proof.
  intros Hname Hrel Hspec.
  destruct (confirmRelation_known st form name rel Hname Hrel)
    as (st' & rel' & Hret & Hed & _ & _ & Hpred & Hor).
  exists st', rel'. repeat (split; [assumption|]).
  assert (Hs : r_subject rel' = fst (oriented st name rel)) by now rewrite <- Hor.
  assert (Ho : r_object rel' = snd (oriented st name rel)) by now rewrite <- Hor.
  rewrite Hs, Ho. clear Hs Ho Hor Hpred Hed Hret.
  unfold oriented, relationOrientationForPair, firstEntityRoleFor.
  rewrite (relationsMeta_at_own st name spec Hspec). split; [|split].
  - intros left_ right_ Hl Hr. rewrite Hl, Hr. simpl. split.
    + intros Hcl Hcr Hrev Hfwd. rewrite Hrev, Hfwd.
      destruct (e_class left_); [congruence|].
      destruct (e_class right_); [congruence|]. simpl. split; reflexivity.
    + intros Hrev Hfwd. rewrite Hrev, Hfwd.
      destruct (e_class left_), (e_class right_); simpl; split; reflexivity.
  - intros left_ Hl Hnone Hobj Hsubj. rewrite Hl, Hnone. simpl.
    rewrite Hobj, Hsubj. simpl. split; reflexivity.
  - intros right_ Hnone Hr Hsubj Hobj. rewrite Hr, Hnone. simpl.
    rewrite Hobj, Hsubj. simpl. split; reflexivity.
Qed.

(** The design document's example: with the schema
    [{subject: ["Person"], object: ["Org"]}] and the endpoints
    (subject = B:Org, object = A:Person), confirming the predicate
    leaves (subject = A, object = B). *)
Lemma confirmRelation_orients_witness :
  exists st' rel',
    confirmRelation works_for_form st_person_org = Returned st'
    /\ edited_relation st' = Some rel'
    /\ r_predicate rel' = Some (lit "WorksFor")
    /\ r_subject rel' = Some (e_id entity_A)
    /\ r_object rel' = Some (e_id entity_B).
Proof.
  destruct (confirmRelation_orients st_person_org works_for_form (lit "WorksFor")
              relation_BA
              {| rs_subject := Some [lit "Person"]; rs_object := Some [lit "Org"];
                 rs_attributes := None |}
              eq_refl eq_refl eq_refl)
    as (st' & rel' & Hret & Hed & Hpred & Hboth & _ & _).
  exists st', rel'. repeat (split; [assumption|]).
  destruct (Hboth entity_B entity_A eq_refl eq_refl) as [Hrev _].
  apply Hrev; [discriminate | discriminate | reflexivity | reflexivity].
Defined.

(* ================================================================== *)
(** * Relation validator *)

Lemma value_eqb_eq (a b : AttrValue) : value_eqb a b = true <-> a = b.
Proof.
  destruct a, b; simpl; try (split; congruence).
  - rewrite str_eqb_eq. split; congruence.
  - rewrite str_eqb_eq. split; congruence.
  - rewrite Bool.eqb_true_iff. split; congruence.
Qed.

Lemma existsb_value_In (x : AttrValue) (l : list AttrValue) :
  existsb (value_eqb x) l = true <-> In x l.
Proof.
  rewrite existsb_exists. split.
  - intros (y & Hy & E). apply value_eqb_eq in E. now subst.
  - intros H. exists x. split; [assumption | now apply value_eqb_eq].
Qed.

(** ** The page: [highlight] overwrites what an earlier [highlight] of
    the same row wrote, and leaves the other rows alone *)

Lemma update_first_absorb {A : Type} (p : A -> bool) (f g : A -> A) (l : list A) :
  (forall x, p (g x) = p x) ->
  (forall x, f (g x) = f x) ->
  update_first p f (update_first p g l) = update_first p f l.
Proof.
  intros Hp Hf. induction l as [|x l IH]; simpl; [reflexivity|].
  destruct (p x) eqn:E; simpl.
  - now rewrite Hp, E, Hf.
  - now rewrite E, IH.
Qed.

Lemma update_first_commute {A : Type} (p q : A -> bool) (f g : A -> A) (l : list A) :
  (forall x, p x = true -> q x = false) ->
  (forall x, p (g x) = p x) -> (forall x, q (f x) = q x) ->
  update_first p f (update_first q g l) = update_first q g (update_first p f l).
Proof.
  intros Hpq Hp Hq. induction l as [|x l IH]; simpl; [reflexivity|].
  destruct (q x) eqn:Eq, (p x) eqn:Ep; simpl.
  - apply Hpq in Ep. congruence.
  - now rewrite Hp, Ep, Eq.
  - now rewrite Ep, Hq, Eq.
  - now rewrite Ep, Eq, IH.
Qed.

Lemma highlight_absorb (k m m' : jsstring) (dom : Dom) :
  highlight k m (highlight k m' dom) = highlight k m dom.
Proof.
  unfold highlight. apply update_first_absorb.
  - reflexivity.
  - intros row. simpl. now destruct (row_err row).
Qed.

Lemma highlight_commute (k k' m m' : jsstring) (dom : Dom) :
  k <> k' ->
  highlight k m (highlight k' m' dom) = highlight k' m' (highlight k m dom).
Proof.
  intros Hk. unfold highlight. apply update_first_commute; try reflexivity.
  intros row E. apply str_eqb_eq in E. apply str_eqb_neq. congruence.
Qed.

Lemma highlight_all_app (a b : list (jsstring * jsstring)) (dom : Dom) :
  highlight_all (a ++ b) dom = highlight_all b (highlight_all a dom).
Proof. unfold highlight_all. apply fold_left_app. Qed.

(** A call made again after the run it ends changes nothing. *)
Lemma highlight_all_after (calls : list (jsstring * jsstring)) :
  forall (k m : jsstring) (dom : Dom),
    highlight k m (highlight_all calls (highlight k m dom))
    = highlight k m (highlight_all calls dom).
Proof.
  induction calls as [|[k' m'] calls IH]; intros k m dom; simpl.
  - apply highlight_absorb.
  - destruct (str_eqb k k') eqn:E.
    + apply str_eqb_eq in E. subst k'. now rewrite highlight_absorb.
    + apply str_eqb_neq in E.
      rewrite <- (highlight_commute k k' m m' dom E). apply IH.
Qed.

Lemma highlight_all_twice (calls : list (jsstring * jsstring)) (dom : Dom) :
  highlight_all calls (highlight_all calls dom) = highlight_all calls dom.
Proof.
  revert dom. induction calls as [|[k m] calls IH] using rev_ind; intros dom.
  - reflexivity.
  - rewrite !highlight_all_app. simpl.
    rewrite highlight_all_after. now rewrite IH.
Qed.

Section ValidatorProperties.

Variable number_isNaN : AttrValue -> bool.

Lemma validate_loop_fst (st : State) (rels : list Relation) :
  forall ok dom,
    fst (validate_loop number_isNaN st rels ok dom)
    = ok && forallb (fun r => match check_relation number_isNaN st r with
                              | None => true
                              | Some _ => false
                              end) rels.
Proof.
  induction rels as [|r rels IH]; intros ok dom; simpl.
  - now rewrite andb_true_r.
  - destruct (check_relation number_isNaN st r); rewrite IH; simpl.
    + now rewrite andb_false_r.
    + reflexivity.
Qed.

Lemma validate_loop_snd (st : State) (rels : list Relation) :
  forall ok dom,
    snd (validate_loop number_isNaN st rels ok dom)
    = highlight_all (failures number_isNaN st rels) dom.
Proof.
  induction rels as [|r rels IH]; intros ok dom; simpl; [reflexivity|].
  destruct (check_relation number_isNaN st r); now rewrite IH.
Qed.

(** One failing relation makes the verdict [false]. *)
Lemma validateRelations_false (st : State) (dom : Dom) (r : Relation) (msg : jsstring) :
  In r (relations st) ->
  check_relation number_isNaN st r = Some msg ->
  fst (validateRelations number_isNaN st dom) = false.
Proof.
  intros Hin Hr. unfold validateRelations. rewrite validate_loop_fst. simpl.
  apply not_true_is_false. intros H. rewrite forallb_forall in H.
  specialize (H r Hin). now rewrite Hr in H.
Qed.

(** C6.  A relation whose object is [null], or whose subject is
    [null], or whose predicate is [null], empty or made of
    whitespace only, is rejected with "Relation needs subject, type,
    and object" whatever its other fields, the schema and the
    entities are -- no later check is consulted -- and the verdict
    of the whole validation is [false]. *)
Theorem incomplete_relation_rejected (st : State) (dom : Dom) (r : Relation) :
  In r (relations st) ->
  (r_object r = None \/ r_subject r = None \/ r_predicate r = None
   \/ exists p, r_predicate r = Some p /\ whitespace_only p) ->
  check_relation number_isNaN st r = Some msg_incomplete
  /\ fst (validateRelations number_isNaN st dom) = false.
Proof.
  intros Hin H.
  assert (E : check_relation number_isNaN st r = Some msg_incomplete).
  { unfold check_relation.
    destruct H as [-> | [-> | [-> | (p & -> & Hp)]]].
    - now destruct (r_subject r) as [[|]|].
    - reflexivity.
    - now destruct (r_subject r) as [[|]|], (r_object r) as [[|]|].
    - destruct (r_subject r) as [[|]|], (r_object r) as [[|]|], p as [|p0 p];
        try reflexivity.
      apply trim_nil in Hp. now rewrite Hp. }
  split; [exact E | exact (validateRelations_false st dom r _ Hin E)].
Qed.

(** C7.  The validator reads the model and never writes it; the
    only thing it changes is the page.  Run a second time on the
    page left by the first run, with the model as it was, it returns
    the same boolean and leaves the page -- the rows marked invalid
    and the message each one shows -- exactly as the first run left
    it.  The messages are those of [failures], which are computed
    from the model alone, and the boolean is the same from any
    page. *)
Theorem validateRelations_idempotent (st : State) (dom : Dom) :
  let first := validateRelations number_isNaN st dom in
  let second := validateRelations number_isNaN st (snd first) in
  fst second = fst first
  /\ snd second = snd first
  /\ snd first = highlight_all (failures number_isNaN st (relations st)) dom
  /\ forall dom', fst (validateRelations number_isNaN st dom') = fst first.
Proof.
  unfold validateRelations. simpl. rewrite !validate_loop_snd, !validate_loop_fst.
  split; [reflexivity|]. split; [apply highlight_all_twice|].
  split; [reflexivity|]. intros dom'. now rewrite validate_loop_fst.
Qed.

Lemma check_attrs_app (st : State) (values : attrs)
    (pre post : list (jsstring * AttrSpec)) (name : jsstring) (aspec : AttrSpec) :
  Forall (fun na => check_attr number_isNaN st (fst na) (snd na)
                      (get (fst na) values) = None) pre ->
  check_attrs number_isNaN st values (pre ++ (name, aspec) :: post)
  = match check_attr number_isNaN st name aspec (get name values) with
    | Some msg => Some msg
    | None => check_attrs number_isNaN st values post
    end.
Proof.
  induction pre as [|[n a] pre IH]; intros H; [reflexivity|].
  inversion H as [|? ? H1 H2]; subst. simpl in *. rewrite H1. now apply IH.
Qed.

Lemma check_relation_attributes (st : State) (r : Relation) (spec : RelSpec) :
  reaches_attribute_checks st r spec ->
  check_relation number_isNaN st r
  = check_attrs number_isNaN st (r_attrs r)
      (match rs_attributes spec with Some a => a | None => [] end).
Proof.
  intros (s & o & p & left_ & right_ & Hs & Hs' & Ho & Ho' & Hp & Hp'
          & Hspec & Hl & Hr & Hor).
  unfold check_relation. rewrite Hs, Ho, Hp.
  destruct s as [|s0 s]; [congruence|]. destruct o as [|o0 o]; [congruence|].
  destruct p as [|p0 p]; [now destruct Hp'|].
  destruct (trim (p0 :: p)); [congruence|].
  rewrite (relationsMeta_at_own st (p0 :: p) spec Hspec), Hl, Hr.
  apply orb_true_iff in Hor.
  destruct (opt_includes (rs_subject spec) (e_class left_)
            && opt_includes (rs_object spec) (e_class right_));
    destruct (opt_includes (rs_subject spec) (e_class right_)
              && opt_includes (rs_object spec) (e_class left_));
    simpl; try reflexivity.
  destruct Hor; discriminate.
Qed.

(** What the attribute loop reports, by the value [v] it reads with
    [(r.attrs || {})[name]] for an attribute [name] of the predicate's
    specification, on a relation that passed the earlier checks and
    whose attributes before [name] pass:
    - a read that gives [undefined], [null] or the empty string, with
      [nullable] being [false], is reported as "Missing required
      attribute";
    - a stored value is reported when the kind is [enum] and it is
      not among the allowed values, when the kind is [number] and it
      does not convert to a number, and when the kind is [entity] and
      it is not the id of an entity whose class is among the allowed
      classes;
    - a read that finds an inherited member -- no value is stored and
      the name is one of [Object.prototype]'s -- is never reported as
      missing; it is reported under each of the three kinds;
    each report being the relation's message and making the verdict
    [false]; and in every other case the attribute passes. *)
Lemma attribute_read_reports (st : State) (dom : Dom) (r : Relation)
    (spec : RelSpec) (pre post : list (jsstring * AttrSpec))
    (name : jsstring) (aspec : AttrSpec) :
  In r (relations st) ->
  reaches_attribute_checks st r spec ->
  rs_attributes spec = Some (pre ++ (name, aspec) :: post) ->
  Forall (fun na => check_attr number_isNaN st (fst na) (snd na)
                      (get (fst na) (r_attrs r)) = None) pre ->
  let v := get name (r_attrs r) in
  let reported := fun msg =>
    check_relation number_isNaN st r = Some msg
    /\ fst (validateRelations number_isNaN st dom) = false in
  (is_blank v = true -> as_nullable aspec = Some false ->
   reported (msg_missing name))
  /\ (forall x, v = Own x -> is_blank v = false ->
        (forall allowed, as_kind aspec = KEnum allowed -> ~ In x allowed ->
           reported (msg_enum name))
        /\ (as_kind aspec = KNumber -> number_isNaN x = true ->
            reported (msg_number name))
        /\ (forall classes, as_kind aspec = KEntity classes ->
              (forall ent, entityByValue st x = Some ent ->
                 ~ In (e_class ent) classes) ->
              reported (msg_entity name classes)))
  /\ (v = Inherited ->
        (forall allowed, as_kind aspec = KEnum allowed -> reported (msg_enum name))
        /\ (as_kind aspec = KNumber -> reported (msg_number name))
        /\ (forall classes, as_kind aspec = KEntity classes ->
              reported (msg_entity name classes)))
  /\ (check_attr number_isNaN st name aspec v = None <->
      (is_blank v = true /\ as_nullable aspec <> Some false)
      \/ (exists x, v = Own x /\ is_blank v = false
           /\ match as_kind aspec with
              | KEnum allowed => In x allowed
              | KNumber => number_isNaN x = false
              | KEntity classes =>
                  exists ent, entityByValue st x = Some ent
                              /\ In (e_class ent) classes
              | KOther => True
              end)
      \/ (v = Inherited /\ as_kind aspec = KOther)).
Proof.
  intros Hin Hreach Hattrs Hpre v reported.
  assert (Hrep : forall msg,
            check_attr number_isNaN st name aspec v = Some msg -> reported msg).
  { intros msg Hmsg.
    assert (E : check_relation number_isNaN st r = Some msg).
    { rewrite (check_relation_attributes st r spec Hreach), Hattrs.
      rewrite (check_attrs_app st (r_attrs r) pre post name aspec Hpre).
      fold v. now rewrite Hmsg. }
    split; [exact E | exact (validateRelations_false st dom r msg Hin E)]. }
  split; [|split; [|split]].
  - intros Hb Hn. apply Hrep. unfold check_attr. now rewrite Hb, Hn.
  - intros x Hx Hb. split; [|split].
    + intros allowed Hk Hnot. apply Hrep. unfold check_attr.
      rewrite Hb, Hx, Hk. simpl.
      destruct (existsb (value_eqb x) allowed) eqn:E; [|reflexivity].
      apply existsb_value_In in E. contradiction.
    + intros Hk Hnan. apply Hrep. unfold check_attr.
      rewrite Hb, Hx, Hk. simpl. now rewrite Hnan.
    + intros classes Hk Hent. apply Hrep. unfold check_attr.
      rewrite Hb, Hx, Hk. simpl.
      destruct (entityByValue st x) as [ent|] eqn:E; [|reflexivity].
      destruct (includes classes (e_class ent)) eqn:Ei; [|reflexivity].
      apply includes_In in Ei. now destruct (Hent ent eq_refl).
  - intros Hv. split; [|split].
    + intros allowed Hk. apply Hrep. unfold check_attr. now rewrite Hv, Hk.
    + intros Hk. apply Hrep. unfold check_attr. now rewrite Hv, Hk.
    + intros classes Hk. apply Hrep. unfold check_attr. now rewrite Hv, Hk.
  - unfold check_attr. destruct (is_blank v) eqn:Hb; simpl.
    + destruct (as_nullable aspec) as [[|]|]; simpl; split;
        try discriminate; try (intros _; left; split; congruence);
        try (intros [[_ H] | [(x & _ & H & _) | [H _]]];
             [congruence | congruence | rewrite H in Hb; discriminate]).
    + destruct v as [x| |]; [| |discriminate].
      * split.
        -- intros H. right. left. exists x. split; [reflexivity|].
           split; [reflexivity|].
           destruct (as_kind aspec) as [allowed| |classes|]; [| | |exact I].
           ++ destruct (existsb (value_eqb x) allowed) eqn:E; [|discriminate].
              now apply existsb_value_In.
           ++ now destruct (number_isNaN x).
           ++ destruct (entityByValue st x) as [ent|]; [|discriminate].
              destruct (includes classes (e_class ent)) eqn:Ei; [|discriminate].
              exists ent. split; [reflexivity | now apply includes_In].
        -- intros [[H _] | [(y & Hy & _ & H) | [H _]]];
             [discriminate| |discriminate].
           injection Hy as <-.
           destruct (as_kind aspec) as [allowed| |classes|]; [| | |reflexivity].
           ++ apply existsb_value_In in H. now rewrite H.
           ++ now rewrite H.
           ++ destruct H as (ent & -> & Hc). apply includes_In in Hc.
              now rewrite Hc.
      * split.
        -- intros H. right. right. split; [reflexivity|].
           now destruct (as_kind aspec).
        -- intros [[H _] | [(y & Hy & _) | [_ H]]];
             [discriminate|discriminate|]. now rewrite H.
Qed.

End ValidatorProperties.

Lemma incomplete_relation_rejected_witness :
  In relation_A_only (relations st_incomplete)
  /\ r_object relation_A_only = None
  /\ check_relation never_NaN st_incomplete relation_A_only = Some msg_incomplete
  /\ fst (validateRelations never_NaN st_incomplete two_rows) = false.
Proof.
  assert (Hin : In relation_A_only (relations st_incomplete)) by (right; left; reflexivity).
  split; [exact Hin|]. split; [reflexivity|].
  exact (incomplete_relation_rejected never_NaN st_incomplete two_rows relation_A_only
           Hin (or_introl eq_refl)).
Defined.

(** A relation of a type that requires the numeric attribute [since],
    stored without it, is reported as missing it. *)
Lemma attribute_read_reports_witness :
  In relation_AB (relations st_since)
  /\ check_relation never_NaN st_since relation_AB
     = Some (msg_missing (lit "since"))
  /\ fst (validateRelations never_NaN st_since two_rows) = false.
Proof.
  assert (Hin : In relation_AB (relations st_since)) by (left; reflexivity).
  assert (Hreach : reaches_attribute_checks st_since relation_AB
            {| rs_subject := Some [lit "Person"]; rs_object := Some [lit "Org"];
               rs_attributes :=
                 Some [ (lit "since",
                         {| as_nullable := Some false; as_kind := KNumber |}) ] |}).
  { exists (entity_id 1), (entity_id 2), (lit "WorksFor"), entity_A, entity_B.
    repeat split; try reflexivity; vm_compute; discriminate. }
  split; [exact Hin|].
  exact (proj1 (attribute_read_reports never_NaN st_since two_rows relation_AB _
                  [] [] (lit "since")
                  {| as_nullable := Some false; as_kind := KNumber |}
                  Hin Hreach eq_refl (Forall_nil _))
               eq_refl eq_refl).
Defined.

(** C8.  The claim fails on a required attribute whose name every
    object inherits: with the schema entry
    [WorksFor: {subject: ["Person"], object: ["Org"], attributes:
    {constructor: {nullable: false, kind: "string"}}}] and the relation
    [R1 = WorksFor(T1, T2)] stored with no attributes at all, the
    relation passes the earlier checks and has no value stored for
    [constructor], yet the read [(r.attrs || {})["constructor"]] finds
    the inherited member, so nothing is reported: the relation passes
    and the verdict is [true], where "Missing required attribute:
    constructor" and [false] are due. *)
Theorem required_attribute_named_constructor_passes :
  In relation_AB (relations st_constructor)
  /\ reaches_attribute_checks st_constructor relation_AB constructor_spec
  /\ rs_attributes constructor_spec
     = Some [ (lit "constructor",
               {| as_nullable := Some false; as_kind := KOther |}) ]
  /\ lookup (lit "constructor") (r_attrs relation_AB) = None
  /\ get (lit "constructor") (r_attrs relation_AB) = Inherited
  /\ check_relation never_NaN st_constructor relation_AB = None
  /\ check_relation never_NaN st_constructor relation_AB
     <> Some (msg_missing (lit "constructor"))
  /\ fst (validateRelations never_NaN st_constructor two_rows) = true.
Proof.
  split; [left; reflexivity|]. split.
  { exists (entity_id 1), (entity_id 2), (lit "WorksFor"), entity_A, entity_B.
    repeat split; try reflexivity; vm_compute; discriminate. }
  split; [reflexivity|]. split; [reflexivity|]. split; [reflexivity|].
  split; [vm_compute; reflexivity|].
  split; [vm_compute; discriminate|vm_compute; reflexivity].
Qed.

(* ================================================================== *)
(** * Loading saved annotations *)

Lemma ids_has_true (annos : list Entity) (x : option jsstring) :
  ids_has annos x = true <-> exists a, In a annos /\ Some (e_id a) = x.
Proof.
  unfold ids_has. rewrite existsb_exists.
  split; intros (a & Ha & E); exists a; (split; [assumption|]);
    now apply ostr_eqb_eq.
Qed.

Lemma hydrate_relations_In (annos : list Entity) (rels : list SavedRelation)
    (r : Relation) :
  In r (hydrate_relations annos rels) <->
  exists sr, In sr rels /\ r = hydrate_relation sr
             /\ ids_has annos (sr_subject sr) = true
             /\ ids_has annos (sr_object sr) = true.
Proof.
  induction rels as [|x rels IH]; simpl.
  - split; [contradiction | intros (sr & [] & _)].
  - destruct (ids_has annos (sr_subject x) && ids_has annos (sr_object x)) eqn:E.
    + apply andb_true_iff in E. destruct E as [E1 E2]. simpl. rewrite IH. split.
      * intros [<- | (sr & H1 & H2)]; [exists x; tauto | exists sr; tauto].
      * intros (sr & [<- | H1] & H2 & H3); [now left | right; exists sr; tauto].
    + rewrite IH. split.
      * intros (sr & H1 & H2); exists sr; tauto.
      * intros (sr & [<- | H1] & H2 & H3 & H4); [|exists sr; tauto].
        rewrite H3, H4 in E. discriminate.
Qed.

Lemma hydrate_entities_In (st : State) (ents : list SavedEntity) (a : Entity) :
  In a (hydrate_entities st ents) <->
  exists ent tr, In ent ents /\ spanToTokenRange st (se_span ent) = Some tr
    /\ a = {| e_id := se_id ent; e_class := se_class ent; e_label := se_label ent;
              e_attrs := match se_attributes ent with Some x => x | None => [] end;
              e_span := se_span ent; e_tokenRange := tr |}.
Proof.
  induction ents as [|x ents IH]; simpl.
  - split; [contradiction | intros (ent & tr & [] & _)].
  - destruct (spanToTokenRange st (se_span x)) as [tr|] eqn:E; simpl; rewrite IH; split.
    + intros [<- | (ent & tr' & H1 & H2)];
        [exists x, tr; tauto | exists ent, tr'; tauto].
    + intros (ent & tr' & [<- | H1] & H2 & H3).
      * left. rewrite E in H2. injection H2 as <-. now subst a.
      * right. exists ent, tr'. tauto.
    + intros (ent & tr' & H1 & H2); exists ent, tr'; tauto.
    + intros (ent & tr' & [<- | H1] & H2 & H3); [congruence|].
      exists ent, tr'. tauto.
Qed.

(** The token range of a span depends on the tokens only. *)
Lemma hydrate_entities_tokens (st1 st2 : State) (ents : list SavedEntity) :
  tokens st1 = tokens st2 -> hydrate_entities st1 ents = hydrate_entities st2 ents.
Proof.
  intros E. induction ents as [|x ents IH]; simpl; [reflexivity|].
  unfold spanToTokenRange. rewrite E, IH. reflexivity.
Qed.

(** Hydration when the fetch resolves.  When the saved annotations of
    a document are fetched, the
    entities of the loaded state are the saved entities whose span
    maps to a token range, and its relations are exactly the saved
    relations whose subject and object are both ids of those
    entities; the others are dropped.  So every relation of the
    loaded state has both endpoints among its entities. *)
Theorem loadTextResponse_keeps_resolvable_relations
    (text_wrap : bool) (data : TextData) (saved : option Saved) (st : State) :
  let st' := loadTextResponse text_wrap data (Resolved saved) st in
  (forall a, In a (annotations st') <->
     exists ent tr,
       In ent (saved_entities saved)
       /\ spanToTokenRange st' (se_span ent) = Some tr
       /\ a = {| e_id := se_id ent; e_class := se_class ent; e_label := se_label ent;
                 e_attrs := match se_attributes ent with Some x => x | None => [] end;
                 e_span := se_span ent; e_tokenRange := tr |})
  /\ (forall r, In r (relations st') <->
        exists sr,
          In sr (saved_relations saved) /\ r = hydrate_relation sr
          /\ (exists a, In a (annotations st') /\ Some (e_id a) = sr_subject sr)
          /\ (exists a, In a (annotations st') /\ Some (e_id a) = sr_object sr))
  /\ referential_integrity st'.
Proof.
  intros st'.
  assert (Hrel : forall r, In r (relations st') <->
            exists sr, In sr (saved_relations saved) /\ r = hydrate_relation sr
              /\ ids_has (annotations st') (sr_subject sr) = true
              /\ ids_has (annotations st') (sr_object sr) = true).
  { intros r. unfold st', loadTextResponse. simpl.
    destruct saved as [[ents [rs|]]|]; simpl.
    - apply hydrate_relations_In.
    - split; [contradiction | intros (sr & [] & _)].
    - split; [contradiction | intros (sr & [] & _)]. }
  assert (Hann : annotations st' = hydrate_entities st' (saved_entities saved)).
  { unfold st', loadTextResponse.
    destruct saved as [[[es|] rs]|]; simpl; try reflexivity.
    now apply hydrate_entities_tokens. }
  split; [|split].
  - intros a. rewrite Hann. apply hydrate_entities_In.
  - intros r. rewrite Hrel. split; intros (sr & H1 & H2 & H3 & H4); exists sr;
      (split; [assumption|]; split; [assumption|]).
    + split; now apply ids_has_true.
    + split; now apply ids_has_true.
  - intros r Hr. apply Hrel in Hr. destruct Hr as (sr & _ & -> & H1 & H2).
    simpl. split; assumption.
Qed.

(** When the fetch fails instead, the entities are reset but the
    relation list is the one the previous document left. *)
Lemma loadTextResponse_rejected (text_wrap : bool) (data : TextData) (st : State) :
  annotations (loadTextResponse text_wrap data Rejected st) = []
  /\ relations (loadTextResponse text_wrap data Rejected st) = relations st.
Proof. split; reflexivity. Qed.

(** C10.  The claim fails when the fetch of the saved annotations is
    rejected -- the network fails, or the body is not JSON.
    [state.annotations = []] runs before the [try];
    [state.relations = []] stands inside it, after the [await], and
    is not reached; the [catch] sets the status line only.  With the
    relation [R1 = WorksFor(T1, T2)] of the document shown before,
    loading the next document leaves no entity and still the relation
    [R1]: the loaded state does not satisfy referential integrity. *)
Theorem loadTextResponse_rejected_keeps_relations :
  referential_integrity st_since
  /\ annotations (loadTextResponse true data_gap Rejected st_since) = []
  /\ relations (loadTextResponse true data_gap Rejected st_since) = [relation_AB]
  /\ ~ referential_integrity (loadTextResponse true data_gap Rejected st_since).
Proof.
  split; [|split; [reflexivity|split; [reflexivity|]]].
  - intros r [<-|[]]. split; vm_compute; reflexivity.
  - intros H. destruct (H relation_AB (or_introl eq_refl)) as [H1 _].
    vm_compute in H1. discriminate.
Qed.


(* ================================================================== *)
(** * Worked examples *)

(** "hello world foo" has five tokens; the third is "world", [6,11). *)
Example tokens_hello_world_foo :
  map (fun t => (t_start t, t_end t, t_isSpace t)) (tokens st_hello)
  = [ (0, 5, false); (5, 6, true); (6, 11, false); (11, 12, true);
      (12, 15, false) ]%Z.
Proof. vm_compute. reflexivity. Qed.

(** A surrogate pair is one token of two code units; a low surrogate
    that follows nothing is a token of its own. *)
Example tokens_with_surrogates :
  option_map (map (fun t => (t_text t, t_start t, t_end t)))
    (tokenizeWithOffsets [0x61; 0xD83D; 0xDE00; 0x20; 0xDE00]%N)
  = Some [ ([0x61]%N, 0, 1); ([0xD83D; 0xDE00]%N, 1, 3); ([0x20]%N, 3, 4);
           ([0xDE00]%N, 4, 5) ]%Z.
Proof. vm_compute. reflexivity. Qed.

Example span_of_world : spanToTokenRange st_hello (6%Z, 10%Z) = Some (2, 2).
Proof. vm_compute. reflexivity. Qed.

(** A span past the end of the text maps to no token range. *)
Example span_past_the_end : spanToTokenRange st_hello (20%Z, 25%Z) = None.
Proof. vm_compute. reflexivity. Qed.

Example entity_id_twelve : entity_id 12 = lit "T12".
Proof. reflexivity. Qed.

(** Creating on a whitespace token finds no node for it and throws;
    the entities are as before. *)
Example create_on_whitespace_throws :
  confirmSaveAnnotation person_form
    (openEntityModal ModeCreate None
       (set_selection st_hello {| startIdx := Some 1; endIdx := Some 1 |}))
  = Threw.
Proof. vm_compute. reflexivity. Qed.

(** The relation entered object first fails validation until its
    predicate is chosen, with the message of an incomplete relation
    shown on its row. *)
Example incomplete_shown_on_row :
  validateRelations never_NaN st_person_org two_rows
  = (false,
     [ {| row_relId := lit "R1"; row_invalid := true;
          row_err := Some {| err_text := msg_incomplete; err_show := true |} |};
       {| row_relId := lit "R2"; row_invalid := false;
          row_err := Some {| err_text := []; err_show := false |} |} ]).
Proof. vm_compute. reflexivity. Qed.

(* ================================================================== *)
(** * Further properties of the tokenizer *)

Lemma span_class_maximal (p : N -> bool) (l m r : list cpoint) :
  span_class p l = (m, r) ->
  match r with
  | c :: _ => p (cp_val c) = false
  | [] => True
  end.
Proof.
  revert m r; induction l as [|c l IH]; simpl; intros m r H.
  - now injection H as <- <-.
  - destruct (p (cp_val c)) eqn:E.
    + destruct (span_class p l) as [m' r'] eqn:E'.
      injection H as <- <-. now apply (IH m').
    + now injection H as <- <-.
Qed.

(** A match is as long as it can be: what follows a run of whitespace
    is not whitespace, what follows a run of word characters is not a
    word character. *)
Lemma match_token_maximal (l m r : list cpoint) :
  match_token l = Some (m, r) ->
  match m, r with
  | c :: _, c' :: _ =>
      (is_space (cp_val c) = true -> is_space (cp_val c') = false)
      /\ (is_word (cp_val c) = true -> is_word (cp_val c') = false)
  | _, _ => True
  end.
Proof.
  unfold match_token.
  destruct (span_class is_space l) as [[|c1 m1] r1] eqn:E1.
  - destruct (span_class is_word l) as [[|c2 m2] r2] eqn:E2.
    + destruct l as [|c l']; [discriminate|].
      destruct (is_other (cp_val c)) eqn:E3; [|discriminate].
      intros H; injection H as <- <-. destruct l' as [|c' l'']; [exact I|].
      unfold is_other in E3. apply andb_true_iff in E3. destruct E3 as [Ew Es].
      apply negb_true_iff in Ew, Es. split; congruence.
    + intros H; injection H as <- <-.
      pose proof (span_class_maximal _ _ _ _ E2) as Hmax.
      apply span_class_app in E2. destruct E2 as [_ Hall].
      inversion Hall as [|? ? Hc2 _]; subst.
      destruct r2 as [|c' r2']; [exact I|]. split; [|now intros _].
      intros Hs. apply is_space_not_word in Hs. congruence.
  - intros H; injection H as <- <-.
    pose proof (span_class_maximal _ _ _ _ E1) as Hmax.
    apply span_class_app in E1. destruct E1 as [_ Hall].
    inversion Hall as [|? ? Hc1 _]; subst.
    destruct r1 as [|c' r1']; [exact I|]. split; [now intros _|].
    intros Hw. apply is_space_not_word in Hc1. congruence.
Qed.

Lemma is_space_not_low (c : N) : is_space c = true -> is_low c = false.
Proof.
  intros H. apply is_space_cases in H. destruct H as [H | H].
  - simpl in H.
    repeat (destruct H as [H | H]; [subst c; reflexivity |]). contradiction.
  - unfold is_low. rewrite andb_false_iff, !N.leb_gt. lia.
Qed.

(** The code units of a match, by its form. *)
Lemma token_shape_units (m : list cpoint) :
  Forall wf_cp m -> token_shape m ->
  token_text_shape (units_of m)
  /\ match m with
     | c :: _ =>
         test_space (units_of m) = is_space (cp_val c)
         /\ forallb is_word (units_of m) = is_word (cp_val c)
         /\ forallb (fun u => negb (is_space u)) (units_of m) = negb (is_space (cp_val c))
     | [] => False
     end.
Proof.
  intros Hwf Hshape.
  destruct (test_space_shape m Hwf Hshape) as [Hne Htest].
  unfold whitespace_only in Htest.
  destruct Hshape as [c m H | c m H | c H].
  - (* whitespace *)
    assert (Hu : units_of (c :: m) = map cp_val (c :: m))
      by exact (run_units is_space _ is_space_bmp Hwf H).
    assert (Hf : forallb is_space (units_of (c :: m)) = true).
    { rewrite Hu, forallb_forall. intros x Hx. apply in_map_iff in Hx.
      destruct Hx as (y & <- & Hy). rewrite Forall_forall in H. now apply H. }
    inversion H as [|? ? Hc _]; subst.
    split; [left; now split|]. rewrite Hc.
    split; [now apply Htest|]. rewrite Hu. simpl.
    rewrite Hc, (is_space_not_word _ Hc). split; reflexivity.
  - (* word characters *)
    assert (Hu : units_of (c :: m) = map cp_val (c :: m))
      by exact (run_units is_word _ is_word_bmp Hwf H).
    assert (Hf : forallb is_word (units_of (c :: m)) = true).
    { rewrite Hu, forallb_forall. intros x Hx. apply in_map_iff in Hx.
      destruct Hx as (y & <- & Hy). rewrite Forall_forall in H. now apply H. }
    inversion H as [|? ? Hc _]; subst.
    assert (Hns : forall us, forallb is_word us = true ->
                   forallb (fun u => negb (is_space u)) us = true).
    { induction us as [|u us IH]; simpl; [reflexivity|].
      rewrite andb_true_iff. intros [Hu' Hus]. rewrite (IH Hus), andb_true_r.
      destruct (is_space u) eqn:Es; [|reflexivity].
      apply is_space_not_word in Es. congruence. }
    assert (Hcs : is_space (cp_val c) = false).
    { destruct (is_space (cp_val c)) eqn:Es; [|reflexivity].
      apply is_space_not_word in Es. congruence. }
    split; [right; left; now split|]. rewrite Hc, Hcs, Hf, (Hns _ Hf).
    split; [|split; reflexivity].
    destruct (test_space (units_of (c :: m))) eqn:Et; [|reflexivity].
    destruct Htest as [Htest _]. specialize (Htest eq_refl).
    rewrite Hu in Htest. simpl in Htest. now rewrite Hcs in Htest.
  - (* one other character *)
    inversion Hwf as [|? ? Hc _]; subst.
    pose proof H as Hother.
    unfold is_other in H. apply andb_true_iff in H. destruct H as [Hw Hs].
    apply negb_true_iff in Hw, Hs. rewrite Hw, Hs.
    unfold units_of in *. simpl in *. rewrite app_nil_r in *.
    destruct Hc as [E | (h & l & Hh & Hl & E & Hv)]; rewrite E in *.
    + split; [right; right; left; now exists (cp_val c)|].
      simpl. rewrite Hw, Hs. simpl. split; [|split; reflexivity].
      destruct (test_space [cp_val c]) eqn:Et; [|reflexivity].
      destruct Htest as [Htest _]. specialize (Htest eq_refl).
      simpl in Htest. now rewrite Hs in Htest.
    + split; [right; right; right; now exists h, l|].
      simpl. rewrite (is_high_not_space _ Hh).
      assert (Hwh : is_word h = false).
      { destruct (is_word h) eqn:Ew; [|reflexivity].
        apply is_word_not_high in Ew. congruence. }
      rewrite Hwh. simpl.
      assert (Hls : is_space l = false).
      { destruct (is_space l) eqn:Es; [|reflexivity].
        apply is_space_not_low in Es. congruence. }
      rewrite Hls. simpl. split; [|split; reflexivity].
      destruct (test_space [h; l]) eqn:Et; [|reflexivity].
      destruct Htest as [Htest _]. specialize (Htest eq_refl).
      simpl in Htest. now rewrite (is_high_not_space _ Hh) in Htest.
Qed.

Lemma exec_cons (c : cpoint) (l : list cpoint) :
  exists m r, match_token (c :: l) = Some (m, r) /\ exec (c :: l) = Some ([], m, r).
Proof.
  destruct (match_token_cons c l) as (m & r & H).
  exists m, r. split; [assumption|]. simpl exec. now rewrite H.
Qed.

Lemma tokenize_loop_shapes (fuel : nat) :
  forall (l : list cpoint) (i : Z) (toks : list Token),
    Forall wf_cp l ->
    tokenize_loop fuel l i = Some toks ->
    Forall (fun t => token_text_shape (t_text t)) toks
    /\ Forall (fun t => forallb (fun u => negb (is_space u)) (t_text t)
                       = negb (t_isSpace t)) toks
    /\ no_adjacent t_isSpace toks = true
    /\ no_adjacent is_word_token toks = true
    /\ match toks with
       | t :: _ =>
           match l with
           | c :: _ => t_isSpace t = is_space (cp_val c)
                       /\ is_word_token t = is_word (cp_val c)
           | [] => False
           end
       | [] => True
       end.
Proof.
  induction fuel as [|fuel IH]; intros l i toks Hwf Hloop; [discriminate|].
  destruct l as [|c l'].
  - simpl in Hloop. injection Hloop as <-. repeat split; constructor.
  - destruct (exec_cons c l') as (m & r & Hmatch & Hexec).
    cbn [tokenize_loop] in Hloop. rewrite Hexec in Hloop.
    destruct (tokenize_loop fuel r (i + str_length (units_of m))) as [toks'|] eqn:E;
      [|discriminate].
    injection Hloop as <-.
    pose proof (match_token_maximal _ _ _ Hmatch) as Hmax.
    apply match_token_some in Hmatch. destruct Hmatch as [Happ Hshape].
    rewrite <- Happ in Hwf. apply Forall_app in Hwf. destruct Hwf as [Hm Hr].
    destruct (token_shape_units m Hm Hshape) as [Htxt Hhead].
    destruct m as [|c0 m']; [contradiction|].
    simpl in Happ. injection Happ as -> Happ.
    destruct Hhead as (Hsp & Hwd & Hns).
    destruct (IH r _ toks' Hr E) as (I1 & I2 & I3 & I4 & I5).
    split; [now constructor|].
    split; [constructor; [simpl; now rewrite Hns, Hsp | assumption]|].
    assert (Hadj : match toks' with
                   | t' :: _ =>
                       negb (is_space (cp_val c) && t_isSpace t') = true
                       /\ negb (is_word (cp_val c) && is_word_token t') = true
                   | [] => True
                   end).
    { destruct toks' as [|t' toks'']; [exact I|].
      destruct r as [|c' r']; [contradiction|].
      destruct I5 as [-> ->]. destruct Hmax as [Hs Hw].
      split; apply negb_true_iff, andb_false_iff.
      - destruct (is_space (cp_val c)); [right; now apply Hs | now left].
      - destruct (is_word (cp_val c)); [right; now apply Hw | now left]. }
    split; [|split; [|split; [exact Hsp | exact Hwd]]].
    + cbn [no_adjacent]. destruct toks' as [|t' toks'']; [reflexivity|].
      cbn [t_isSpace]. rewrite Hsp. destruct Hadj as [-> _]. exact I3.
    + cbn [no_adjacent]. destruct toks' as [|t' toks'']; [reflexivity|].
      unfold is_word_token at 1. cbn [t_text]. rewrite Hwd.
      destruct Hadj as [_ ->]. exact I4.
Qed.

Lemma tokens_of_loop (text : jsstring) :
  tokenize_loop (S (length text)) (code_points text) 0 = Some (tokens_of text).
Proof.
  unfold tokens_of, tokenizeWithOffsets.
  destruct (tokenize_loop_spec (S (length text)) (code_points text) 0%Z)
    as (toks & H & _).
  - apply code_points_wf.
  - pose proof (code_points_length text). lia.
  - now rewrite H.
Qed.

(** X1.  Every token of a document is a non-empty run of whitespace, a
    non-empty run of word characters, or one other character (one
    code unit, or a surrogate pair); and a token not marked [isSpace]
    contains no whitespace at all. *)
Theorem tokens_have_three_shapes (text : jsstring) :
  Forall (fun t => token_text_shape (t_text t)
                   /\ (t_isSpace t = false ->
                       forallb (fun u => negb (is_space u)) (t_text t) = true))
         (tokens_of text).
Proof.
  destruct (tokenize_loop_shapes _ _ _ _ (code_points_wf text) (tokens_of_loop text))
    as (H1 & H2 & _).
  rewrite Forall_forall in *. intros t Ht. split; [now apply H1|].
  intros Hs. rewrite (H2 t Ht), Hs. reflexivity.
Qed.

(** X2.  Tokens are maximal: no two neighbouring tokens are both
    whitespace, and no two neighbouring tokens are both runs of word
    characters. *)
Theorem tokens_are_maximal_runs (text : jsstring) :
  no_adjacent t_isSpace (tokens_of text) = true
  /\ no_adjacent is_word_token (tokens_of text) = true.
Proof.
  destruct (tokenize_loop_shapes _ _ _ _ (code_points_wf text) (tokens_of_loop text))
    as (_ & _ & H3 & H4 & _).
  now split.
Qed.

Lemma tiles_substring (toks : list Token) :
  forall (pre : jsstring) (to : Z),
    tiles toks (str_length pre) to ->
    Forall (fun t => t_text t
                     = substring (pre ++ concat (map t_text toks)) (t_start t) (t_end t))
           toks.
Proof.
  induction toks as [|t toks IH]; intros pre to H; [constructor|].
  simpl in H. destruct H as (H1 & H2 & H3 & H4).
  constructor.
  - unfold substring. rewrite H1, H2. unfold str_length.
    replace (Z.of_nat (length pre) + Z.of_nat (length (t_text t)) - Z.of_nat (length pre))%Z
      with (Z.of_nat (length (t_text t))) by lia.
    rewrite !Nat2Z.id. rewrite skipn_app, skipn_all, Nat.sub_diag. simpl.
    rewrite firstn_app, firstn_all, Nat.sub_diag. simpl. now rewrite app_nil_r.
  - specialize (IH (pre ++ t_text t) to).
    assert (E : str_length (pre ++ t_text t) = t_end t).
    { unfold str_length in *. rewrite length_app, Nat2Z.inj_add. lia. }
    rewrite E in IH. specialize (IH H4).
    simpl. rewrite <- app_assoc in IH. exact IH.
Qed.

(** X3.  The offsets of a token are positions in the document: the
    token's text is [text.substring(start, end)]. *)
Theorem token_text_is_substring (text : jsstring) :
  Forall (fun t => t_text t = substring text (t_start t) (t_end t)) (tokens_of text).
Proof.
  destruct (tokenize_loop_spec (S (length text)) (code_points text) 0%Z)
    as (toks & Hloop & Hcat & _ & Htiles & _).
  - apply code_points_wf.
  - pose proof (code_points_length text). lia.
  - rewrite tokens_of_loop in Hloop. injection Hloop as <-.
    rewrite code_points_units in Hcat.
    pose proof (tiles_substring (tokens_of text) [] _ Htiles) as H.
    simpl in H. now rewrite Hcat in H.
Qed.

(* ================================================================== *)
(** * Further properties of the span helpers *)

(** The loop only ever records non-space tokens that end after
    [start] (in [i0]) or start before [end_] (in [i1]). *)
Lemma span_loop_sound (start end_ : Z) (ts : list Token) :
  forall i i0 i1 r0 r1,
    span_loop start end_ ts i i0 i1 = (r0, r1) ->
    (forall a, r0 = Some a ->
       i0 = Some a
       \/ exists t, i <= a /\ nth_error ts (a - i) = Some t
                    /\ t_isSpace t = false /\ (start < t_end t)%Z)
    /\ (forall b, r1 = Some b ->
          i1 = Some b
          \/ exists t, i <= b /\ nth_error ts (b - i) = Some t
                       /\ t_isSpace t = false /\ (t_start t < end_)%Z).
Proof.
  induction ts as [|t ts IH]; intros i i0 i1 r0 r1 H; simpl in H.
  - injection H as <- <-. split; intros ? ?; now left.
  - assert (Hshift : forall (P : Token -> Prop) x,
              (exists t', S i <= x /\ nth_error ts (x - S i) = Some t' /\ P t') ->
              exists t', i <= x /\ nth_error (t :: ts) (x - i) = Some t' /\ P t').
    { intros P x (t' & Hle & Hn & HP). exists t'. split; [lia|]. split; [|assumption].
      replace (x - i) with (S (x - S i)) by lia. exact Hn. }
    destruct (t_isSpace t) eqn:Esp.
    + destruct (IH _ _ _ _ _ H) as [H0 H1]. split.
      * intros a Ha. destruct (H0 a Ha) as [|Hex]; [now left|]. right.
        apply (Hshift (fun t' => t_isSpace t' = false /\ (start < t_end t')%Z)), Hex.
      * intros b Hb. destruct (H1 b Hb) as [|Hex]; [now left|]. right.
        apply (Hshift (fun t' => t_isSpace t' = false /\ (t_start t' < end_)%Z)), Hex.
    + assert (Hi0 : forall a,
                (match i0 with
                 | Some _ => i0
                 | None => if (t_end t >? start)%Z then Some i else None
                 end) = Some a ->
                i0 = Some a
                \/ exists t', i <= a /\ nth_error (t :: ts) (a - i) = Some t'
                              /\ t_isSpace t' = false /\ (start < t_end t')%Z).
      { intros a Ha. destruct i0; [now left|].
        destruct (t_end t >? start)%Z eqn:E; [|discriminate].
        injection Ha as <-. right. exists t. rewrite Nat.sub_diag.
        rewrite Z.gtb_ltb in E. apply Z.ltb_lt in E. repeat split; auto. }
      assert (Hi1 : forall b,
                (if (t_start t <? end_)%Z then Some i else i1) = Some b ->
                i1 = Some b
                \/ exists t', i <= b /\ nth_error (t :: ts) (b - i) = Some t'
                              /\ t_isSpace t' = false /\ (t_start t' < end_)%Z).
      { intros b Hb. destruct (t_start t <? end_)%Z eqn:E; [|now left].
        injection Hb as <-. right. exists t. rewrite Nat.sub_diag.
        apply Z.ltb_lt in E. repeat split; auto. }
      destruct (t_start t >=? end_)%Z.
      * injection H as <- <-. split; assumption.
      * destruct (IH _ _ _ _ _ H) as [H0 H1]. split.
        -- intros a Ha. destruct (H0 a Ha) as [E|Hex]; [now apply Hi0|]. right.
           apply (Hshift (fun t' => t_isSpace t' = false /\ (start < t_end t')%Z)), Hex.
        -- intros b Hb. destruct (H1 b Hb) as [E|Hex]; [now apply Hi1|]. right.
           apply (Hshift (fun t' => t_isSpace t' = false /\ (t_start t' < end_)%Z)), Hex.
Qed.

(** X4.  Whatever the tokens and the span are, a range returned by
    [spanToTokenRange] points at tokens that exist and are not
    whitespace: the first one ends after the start of the span and
    the second one starts before its end. *)
Theorem spanToTokenRange_points_at_words (st : State) (start end_ : Z) (i0 i1 : nat) :
  spanToTokenRange st (start, end_) = Some (i0, i1) ->
  (exists t, nth_error (tokens st) i0 = Some t
             /\ t_isSpace t = false /\ (start < t_end t)%Z)
  /\ (exists t, nth_error (tokens st) i1 = Some t
                /\ t_isSpace t = false /\ (t_start t < end_)%Z).
Proof.
  unfold spanToTokenRange.
  destruct (span_loop start end_ (tokens st) 0 None None) as [r0 r1] eqn:E.
  destruct r0 as [a|]; [|discriminate]. destruct r1 as [b|]; [|discriminate].
  intros H; injection H as <- <-.
  destruct (span_loop_sound _ _ _ _ _ _ _ _ E) as [H0 H1]. split.
  - destruct (H0 a eq_refl) as [|(t & _ & Hn & Hp)]; [discriminate|].
    rewrite Nat.sub_0_r in Hn. now exists t.
  - destruct (H1 b eq_refl) as [|(t & _ & Hn & Hp)]; [discriminate|].
    rewrite Nat.sub_0_r in Hn. now exists t.
Qed.

Lemma spanToTokenRange_points_at_words_witness :
  spanToTokenRange st_hello (6%Z, 10%Z) = Some (2, 2)
  /\ (exists t, nth_error (tokens st_hello) 2 = Some t
                /\ t_isSpace t = false /\ (6 < t_end t)%Z)
  /\ (exists t, nth_error (tokens st_hello) 2 = Some t
                /\ t_isSpace t = false /\ (t_start t < 10)%Z).
Proof.
  assert (E : spanToTokenRange st_hello (6%Z, 10%Z) = Some (2, 2))
    by (vm_compute; reflexivity).
  split; [exact E|].
  exact (spanToTokenRange_points_at_words st_hello 6 10 2 2 E).
Defined.

(** In a tiling, a token ends before every later token starts. *)
Lemma tiles_order (ts : list Token) :
  forall from to j k tj tk,
    tiles ts from to -> j < k ->
    nth_error ts j = Some tj -> nth_error ts k = Some tk ->
    (t_end tj <= t_start tk)%Z.
Proof.
  induction ts as [|x ts IH]; intros from to j k tj tk H Hjk Hj Hk.
  - destruct j; discriminate.
  - simpl in H. destruct H as (H1 & H2 & H3 & H4).
    destruct k as [|k]; [lia|]. simpl in Hk.
    destruct j as [|j]; simpl in Hj.
    + injection Hj as <-. destruct (tiles_bounds ts _ _ k tk H4 Hk) as (? & ? & ?). lia.
    + apply (IH _ _ j k tj tk H4); [lia | assumption | assumption].
Qed.

Lemma first_idx_intro (p : Token -> bool) (ts : list Token) :
  forall k t,
    nth_error ts k = Some t -> p t = true ->
    (forall j t', j < k -> nth_error ts j = Some t' -> p t' = false) ->
    first_idx p ts = Some k.
Proof.
  intros k t Hk Hp Hbefore.
  destruct (first_idx p ts) as [k'|] eqn:E.
  - apply first_idx_some in E. destruct E as ((t' & Ht' & Hp') & Hmin).
    destruct (Nat.lt_trichotomy k' k) as [Hlt | [-> | Hgt]]; [|reflexivity|].
    + rewrite (Hbefore k' t' Hlt Ht') in Hp'. discriminate.
    + rewrite (Hmin k t Hgt Hk) in Hp. discriminate.
  - rewrite first_idx_none in E. rewrite (E k t Hk) in Hp. discriminate.
Qed.

Lemma last_idx_intro (q : Token -> bool) (ts : list Token) :
  forall k t,
    nth_error ts k = Some t -> q t = true ->
    (forall j t', k < j -> nth_error ts j = Some t' -> q t' = false) ->
    last_idx q ts = Some k.
Proof.
  intros k t Hk Hq Hafter.
  destruct (last_idx q ts) as [k'|] eqn:E.
  - apply last_idx_some in E. destruct E as ((t' & Ht' & Hq') & Hmax).
    destruct (Nat.lt_trichotomy k' k) as [Hlt | [-> | Hgt]]; [|reflexivity|].
    + rewrite (Hmax k t Hlt Hk) in Hq. discriminate.
    + rewrite (Hafter k' t' Hgt Ht') in Hq'. discriminate.
  - rewrite last_idx_none in E. rewrite (E k t Hk) in Hq. discriminate.
Qed.

Lemma span_of_selection_maps_back (st : State) (from to : Z) (a b : nat)
    (ta tb : Token) :
  tiles (tokens st) from to ->
  a <= b ->
  token_node st a = Some ta ->
  token_node st b = Some tb ->
  spanToTokenRange st (t_start ta, t_end tb) = Some (a, b).
Proof.
  intros Htiles Hab Ha Hb.
  unfold token_node in Ha, Hb.
  destruct (nth_error (tokens st) a) as [ta'|] eqn:Ea; [|discriminate].
  destruct (t_isSpace ta') eqn:Sa; [discriminate|]. injection Ha as ->.
  destruct (nth_error (tokens st) b) as [tb'|] eqn:Eb; [|discriminate].
  destruct (t_isSpace tb') eqn:Sb; [discriminate|]. injection Hb as ->.
  destruct (tiles_bounds _ _ _ _ _ Htiles Ea) as (_ & Hla & _).
  destruct (tiles_bounds _ _ _ _ _ Htiles Eb) as (_ & Hlb & _).
  destruct (tiles_monotone _ _ _ _ _ _ _ Htiles Hab Ea Eb) as [Hs He].
  assert (Hspan : (t_start ta < t_end tb)%Z) by lia.
  pose proof (span_loop_fst _ _ Hspan (tokens st) 0 None None _ _ Htiles) as Hfst.
  pose proof (span_loop_snd (t_start ta) (t_end tb) (tokens st) 0 None None _ _ Htiles)
    as Hsnd.
  rewrite (first_idx_intro _ _ a ta Ea) in Hfst.
  - rewrite (last_idx_intro _ _ b tb Eb) in Hsnd.
    + unfold spanToTokenRange.
      destruct (span_loop (t_start ta) (t_end tb) (tokens st) 0 None None) as [r0 r1].
      simpl in Hfst, Hsnd. now subst.
    + apply starts_before_true. split; [assumption | lia].
    + intros j t' Hj Ht'. unfold starts_before. apply andb_false_iff. right.
      apply Z.ltb_ge. exact (tiles_order _ _ _ _ _ _ _ Htiles Hj Eb Ht').
  - apply ends_after_true. split; [assumption | lia].
  - intros j t' Hj Ht'. unfold ends_after. apply andb_false_iff. right.
    rewrite Z.gtb_ltb. apply Z.ltb_ge. exact (tiles_order _ _ _ _ _ _ _ Htiles Hj Ht' Ea).
Qed.

(** X5.  On tokens that tile the text, the span running from the start
    of a non-space token [a] to the end of a non-space token [b],
    [a <= b] -- the span [confirmSaveAnnotation] stores for the
    selection [a..b] -- maps back to the token range [[a, b]]. *)
Theorem spanToTokenRange_inverts_selection (st : State) (from to : Z) (a b : nat)
    (ta tb : Token) :
  tiles (tokens st) from to ->
  a <= b ->
  token_node st a = Some ta ->
  token_node st b = Some tb ->
  spanToTokenRange st (t_start ta, t_end tb) = Some (a, b).
Proof. exact (span_of_selection_maps_back st from to a b ta tb). Qed.

Lemma spanToTokenRange_inverts_selection_witness :
  spanToTokenRange st_hello (0%Z, 11%Z) = Some (0, 2).
Proof.
  apply (spanToTokenRange_inverts_selection st_hello 0 15 0 2
           {| t_text := lit "hello"; t_start := 0; t_end := 5; t_isSpace := false |}
           {| t_text := lit "world"; t_start := 6; t_end := 11; t_isSpace := false |}).
  - vm_compute. repeat split; reflexivity.
  - auto.
  - reflexivity.
  - reflexivity.
Defined.

(* ================================================================== *)
(** * The surface form of a selection *)

Lemma skipn_nth_error {A : Type} (l : list A) :
  forall a,
    skipn a l = match nth_error l a with
                | Some x => x :: skipn (S a) l
                | None => []
                end.
Proof.
  induction l as [|x l IH]; intros [|a]; try reflexivity.
  simpl nth_error. rewrite <- IH. reflexivity.
Qed.

Lemma surface_parts_along (toks : list Token) :
  forall n a, surface_parts toks (seq a n) = parts_along (skipn a toks) n.
Proof.
  induction n as [|n IH]; intros a; [reflexivity|].
  cbn [seq surface_parts]. rewrite IH.
  rewrite (skipn_nth_error toks a).
  destruct (nth_error toks a) as [t|] eqn:Ea.
  2:{ apply nth_error_None in Ea. rewrite (skipn_all2 toks) by lia.
      now destruct n. }
  cbn [parts_along].
  pose proof (skipn_nth_error toks (S a)) as Hs.
  destruct (nth_error toks (S a)) as [after|]; rewrite Hs; reflexivity.
Qed.

(** With no two whitespace tokens side by side, the parts pushed for
    a stretch of tokens that ends on a non-space token are those
    tokens' texts in order -- a whitespace token being pushed with the
    token before it -- followed by the whitespace after the stretch,
    if any. *)
Lemma parts_along_concat :
  forall n ts tb,
    no_adjacent t_isSpace ts = true ->
    nth_error ts n = Some tb -> t_isSpace tb = false ->
    match ts with
    | t :: r =>
        concat (parts_along ts (S n))
        = (if t_isSpace t then concat (map t_text (firstn n r))
           else concat (map t_text (firstn (S n) ts)))
          ++ trailing_space (skipn (S n) ts)
    | [] => True
    end.
Proof.
  induction n as [|n IH]; intros ts tb Hadj Hn Hb.
  - destruct ts as [|t r]; [exact I|]. simpl in Hn. injection Hn as ->.
    cbn [parts_along]. rewrite Hb. simpl skipn. simpl firstn.
    destruct r as [|after r']; simpl; [now rewrite ?app_nil_r|].
    destruct (t_isSpace after); simpl; now rewrite ?app_nil_r.
  - destruct ts as [|t r]; [exact I|]. simpl in Hn.
    assert (Hadj' : no_adjacent t_isSpace r = true).
    { cbn [no_adjacent] in Hadj. destruct r; [reflexivity|].
      apply andb_true_iff in Hadj. apply Hadj. }
    specialize (IH r tb Hadj' Hn Hb).
    destruct r as [|s r']; [destruct n; discriminate|].
    cbn [parts_along]. cbn [parts_along] in IH.
    change (skipn (S (S n)) (t :: s :: r')) with (skipn (S n) (s :: r')).
    destruct (t_isSpace t) eqn:Et.
    + (* the whitespace token was pushed with its predecessor *)
      assert (Es : t_isSpace s = false).
      { cbn [no_adjacent] in Hadj. rewrite Et in Hadj. simpl in Hadj.
        apply andb_true_iff in Hadj. destruct Hadj as [Hadj _].
        now apply negb_true_iff in Hadj. }
      rewrite Es in *. exact IH.
    + destruct (t_isSpace s) eqn:Es.
      * cbn [concat]. rewrite IH. simpl. now rewrite !app_assoc.
      * cbn [concat]. rewrite IH. simpl. now rewrite !app_assoc.
Qed.

Lemma drop_space_all (w rest : jsstring) :
  forallb is_space w = true -> drop_space (w ++ rest) = drop_space rest.
Proof.
  induction w as [|c w IH]; simpl; [reflexivity|].
  rewrite andb_true_iff. intros [-> H]. now apply IH.
Qed.

(** [trim] removes exactly the whitespace around a string that starts
    and ends with other characters. *)
Lemma trim_core (x w : jsstring) :
  drop_space x = x -> drop_space (rev x) = rev x ->
  forallb is_space w = true ->
  trim (x ++ w) = x.
Proof.
  intros Hx Hrx Hw. unfold trim.
  assert (Hrw : forallb is_space (rev w) = true).
  { rewrite forallb_forall in *. intros u Hu. apply Hw. now apply in_rev. }
  destruct x as [|c x'].
  - simpl. apply drop_space_nil in Hw. now rewrite Hw.
  - assert (E : drop_space ((c :: x') ++ w) = (c :: x') ++ w).
    { simpl in *. destruct (is_space c); [|reflexivity].
      exfalso. apply (f_equal (@length N)) in Hx. simpl in Hx.
      assert (Hl : forall s, length (drop_space s) <= length s).
      { induction s as [|d s IHs]; simpl; [lia|]. destruct (is_space d); simpl; lia. }
      specialize (Hl x'). lia. }
    rewrite E, rev_app_distr, (drop_space_all _ _ Hrw), Hrx.
    apply rev_involutive.
Qed.

Lemma drop_space_clean (s : jsstring) :
  forallb (fun u => negb (is_space u)) s = true -> drop_space s = s.
Proof.
  destruct s as [|c s]; simpl; [reflexivity|].
  rewrite andb_true_iff. intros [H _]. apply negb_true_iff in H. now rewrite H.
Qed.

Lemma no_adjacent_tail (p : Token -> bool) (t : Token) (r : list Token) :
  no_adjacent p (t :: r) = true -> no_adjacent p r = true.
Proof.
  cbn [no_adjacent]. destruct r; [reflexivity|].
  rewrite andb_true_iff. tauto.
Qed.

Lemma no_adjacent_skipn (p : Token -> bool) (l : list Token) :
  forall a, no_adjacent p l = true -> no_adjacent p (skipn a l) = true.
Proof.
  induction l as [|t l IH]; intros [|a] H; try assumption; try reflexivity.
  simpl skipn. apply IH. exact (no_adjacent_tail p t l H).
Qed.

Lemma tiles_length (l : list Token) :
  forall from to,
    tiles l from to -> to = (from + str_length (concat (map t_text l)))%Z.
Proof.
  induction l as [|t l IH]; simpl; intros from to H.
  - unfold str_length. simpl. lia.
  - destruct H as (H1 & H2 & H3 & H4). apply IH in H4.
    unfold str_length in *. rewrite length_app, Nat2Z.inj_add. lia.
Qed.

Lemma tiles_app_inv (l1 l2 : list Token) :
  forall from to,
    tiles (l1 ++ l2) from to ->
    tiles l1 from (from + str_length (concat (map t_text l1)))
    /\ tiles l2 (from + str_length (concat (map t_text l1))) to.
Proof.
  induction l1 as [|t l1 IH]; simpl; intros from to H.
  - unfold str_length. simpl. rewrite Z.add_0_r. now split.
  - destruct H as (H1 & H2 & H3 & H4). destruct (IH _ _ H4) as [Ha Hb].
    assert (E : (from + str_length (t_text t ++ concat (map t_text l1)))%Z
                = (t_end t + str_length (concat (map t_text l1)))%Z).
    { unfold str_length in *. rewrite length_app, Nat2Z.inj_add. lia. }
    rewrite E. repeat split; assumption.
Qed.

(** The texts of the tokens [a .. a+n] of a tiling, concatenated, are
    the characters from the start of the first to the end of the
    last. *)
Lemma tiles_slice (toks : list Token) (text : jsstring) (a n : nat) (ta tb : Token) :
  tiles toks 0 (str_length text) ->
  concat (map t_text toks) = text ->
  nth_error toks a = Some ta ->
  nth_error toks (a + n) = Some tb ->
  concat (map t_text (firstn (S n) (skipn a toks)))
  = substring text (t_start ta) (t_end tb).
Proof.
  intros Htiles Hcat Ha Hb.
  set (l1 := firstn a toks). set (l2 := firstn (S n) (skipn a toks)).
  set (l3 := skipn (S n) (skipn a toks)).
  assert (Esplit : toks = l1 ++ l2 ++ l3).
  { unfold l1, l2, l3. now rewrite firstn_skipn, firstn_skipn. }
  rewrite Esplit in Htiles.
  destruct (tiles_app_inv _ _ _ _ Htiles) as [_ H23].
  destruct (tiles_app_inv _ _ _ _ H23) as [H2 _].
  rewrite Z.add_0_l in H2.
  (* the first token of the stretch *)
  assert (Ehead : exists r, l2 = ta :: r).
  { unfold l2. rewrite (skipn_nth_error toks a), Ha. simpl. eauto. }
  destruct Ehead as (r & Ehead).
  assert (Estart : t_start ta = str_length (concat (map t_text l1))).
  { rewrite Ehead in H2. simpl in H2. tauto. }
  (* the last token of the stretch *)
  assert (Elast : exists l2', l2 = l2' ++ [tb]).
  { unfold l2. rewrite <- (nth_error_skipn a toks n) in Hb.
    destruct (nth_error_split _ _ Hb) as (p & q & Ep & El).
    rewrite Ep. exists p.
    replace (S n) with (length (p ++ [tb])) by (rewrite length_app; simpl; lia).
    replace (p ++ tb :: q) with ((p ++ [tb]) ++ q) by now rewrite <- app_assoc.
    now rewrite firstn_app, firstn_all, Nat.sub_diag, app_nil_r. }
  destruct Elast as (l2' & Elast).
  assert (Eend : t_end tb = (t_start ta + str_length (concat (map t_text l2)))%Z).
  { pose proof H2 as H2'. rewrite Elast in H2'.
    destruct (tiles_app_inv _ _ _ _ H2') as [_ Hl].
    simpl in Hl. destruct Hl as (Hl1 & Hl2 & _ & Hl4).
    rewrite Estart, Elast. rewrite map_app, concat_app. simpl. rewrite app_nil_r.
    unfold str_length in *. rewrite length_app, Nat2Z.inj_add. lia. }
  rewrite <- Hcat, Esplit, !map_app, !concat_app.
  unfold substring. rewrite Eend, Estart. unfold str_length.
  replace (Z.of_nat (length (concat (map t_text l1)))
           + Z.of_nat (length (concat (map t_text l2)))
           - Z.of_nat (length (concat (map t_text l1))))%Z
    with (Z.of_nat (length (concat (map t_text l2)))) by lia.
  rewrite !Nat2Z.id.
  rewrite skipn_app, skipn_all, Nat.sub_diag. simpl.
  now rewrite firstn_app, firstn_all, Nat.sub_diag, app_nil_r.
Qed.

(** What is known of the tokens of a document. *)
Lemma tokens_of_facts (text : jsstring) :
  tiles (tokens_of text) 0 (str_length text)
  /\ concat (map t_text (tokens_of text)) = text
  /\ no_adjacent t_isSpace (tokens_of text) = true
  /\ Forall (fun t => t_text t <> []
                      /\ forallb is_space (t_text t) = t_isSpace t
                      /\ forallb (fun u => negb (is_space u)) (t_text t)
                         = negb (t_isSpace t))
            (tokens_of text).
Proof.
  destruct (tokenize_loop_spec (S (length text)) (code_points text) 0%Z)
    as (toks & Hloop & Hcat & Hne & Htiles & Hsp).
  - apply code_points_wf.
  - pose proof (code_points_length text). lia.
  - rewrite tokens_of_loop in Hloop. injection Hloop as <-.
    rewrite code_points_units in Hcat, Htiles. rewrite Z.add_0_l in Htiles.
    destruct (tokenize_loop_shapes _ _ _ _ (code_points_wf text) (tokens_of_loop text))
      as (_ & H2 & H3 & _).
    split; [assumption|]. split; [assumption|]. split; [assumption|].
    rewrite Forall_forall in *. intros t Ht. split; [now apply Hne|].
    split; [|now apply H2].
    specialize (Hsp t Ht). unfold whitespace_only in Hsp.
    destruct (t_isSpace t), (forallb is_space (t_text t)); try reflexivity.
    + now apply Hsp.
    + symmetry. now apply Hsp.
Qed.

(** X6.  On a tokenized document, with a selection running from a
    non-space token [a] to a non-space token [b], [a <= b], the
    surface form is exactly the document's text from the start of
    [a] to the end of [b]: the whitespace between the words is kept,
    the whitespace after the last word is not. *)
Theorem surface_form_is_selected_text (st : State) (text : jsstring) (a b : nat)
    (ta tb : Token) :
  tokens st = tokens_of text ->
  selection st = {| startIdx := Some a; endIdx := Some b |} ->
  a <= b ->
  token_node st a = Some ta ->
  token_node st b = Some tb ->
  surfaceFormFromSelection st = substring text (t_start ta) (t_end tb).
Proof.
  intros Htoks Hsel Hab Ha Hb.
  destruct (tokens_of_facts text) as (Htiles & Hcat & Hadj & Hall).
  rewrite <- Htoks in Htiles, Hcat, Hadj, Hall.
  unfold token_node in Ha, Hb.
  destruct (nth_error (tokens st) a) as [ta'|] eqn:Ea; [|discriminate].
  destruct (t_isSpace ta') eqn:Sa; [discriminate|]. injection Ha as ->.
  destruct (nth_error (tokens st) b) as [tb'|] eqn:Eb; [|discriminate].
  destruct (t_isSpace tb') eqn:Sb; [discriminate|]. injection Hb as ->.
  unfold surfaceFormFromSelection. rewrite Hsel. cbn [startIdx endIdx].
  set (n := b - a). replace (S b - a) with (S n) by (unfold n; lia).
  assert (Ebn : nth_error (tokens st) (a + n) = Some tb)
    by (replace (a + n) with b by (unfold n; lia); exact Eb).
  rewrite surface_parts_along.
  assert (Ebn' : nth_error (skipn a (tokens st)) n = Some tb)
    by (rewrite nth_error_skipn; exact Ebn).
  pose proof (parts_along_concat n (skipn a (tokens st)) tb
                (no_adjacent_skipn _ _ a Hadj) Ebn' Sb) as Hparts.
  pose proof (skipn_nth_error (tokens st) a) as Hskip. rewrite Ea in Hskip.
  rewrite Hskip in Hparts. rewrite Sa in Hparts. rewrite <- Hskip in Hparts.
  rewrite Hparts.
  pose proof (tiles_slice (tokens st) text a n ta tb Htiles Hcat Ea Ebn) as Hslice.
  rewrite <- Hslice.
  rewrite Forall_forall in Hall.
  apply trim_core.
  - (* starts with a character of the first token *)
    rewrite Hskip. simpl firstn. simpl map. simpl concat.
    destruct (Hall ta (nth_error_In _ _ Ea)) as (Hne & _ & Hclean).
    rewrite Sa in Hclean. simpl in Hclean.
    destruct (t_text ta) as [|c s]; [congruence|].
    simpl in *. apply andb_true_iff in Hclean. destruct Hclean as [Hc _].
    apply negb_true_iff in Hc. now rewrite Hc.
  - (* ends with a character of the last token *)
    rewrite <- (nth_error_skipn a (tokens st) n) in Ebn.
    destruct (nth_error_split _ _ Ebn) as (p & q & Ep & El).
    rewrite Ep.
    replace (S n) with (length (p ++ [tb])) by (rewrite length_app; simpl; lia).
    replace (p ++ tb :: q) with ((p ++ [tb]) ++ q) by now rewrite <- app_assoc.
    rewrite firstn_app, firstn_all, Nat.sub_diag, app_nil_r.
    rewrite map_app, concat_app, rev_app_distr. simpl. rewrite app_nil_r.
    destruct (Hall tb (nth_error_In _ _ Eb)) as (Hne & _ & Hclean).
    rewrite Sb in Hclean. simpl in Hclean.
    assert (Hrev : forallb (fun u => negb (is_space u)) (rev (t_text tb)) = true).
    { rewrite forallb_forall in *. intros u Hu. apply Hclean. now apply in_rev. }
    destruct (rev (t_text tb)) as [|c s] eqn:Er.
    + exfalso. apply Hne. apply (f_equal (@rev N)) in Er.
      now rewrite rev_involutive in Er.
    + simpl in *. apply andb_true_iff in Hrev. destruct Hrev as [Hc _].
      apply negb_true_iff in Hc. now rewrite Hc.
  - (* what follows is whitespace *)
    unfold trailing_space.
    destruct (skipn (S n) (skipn a (tokens st))) as [|t' rest] eqn:Et; [reflexivity|].
    destruct (t_isSpace t') eqn:St; [|reflexivity].
    assert (Hin : In t' (tokens st)).
    { rewrite skipn_skipn in Et.
      rewrite <- (firstn_skipn (S n + a) (tokens st)), Et.
      apply in_or_app. right. now left. }
    destruct (Hall t' Hin) as (_ & Hs & _). now rewrite Hs.
Qed.

(** Selecting "hello world" in "hello world foo". *)
Lemma surface_form_is_selected_text_witness :
  surfaceFormFromSelection st_selected = lit "hello world".
Proof.
  change (lit "hello world") with (substring (lit "hello world foo") 0 11).
  apply (surface_form_is_selected_text st_selected (lit "hello world foo") 0 2
           {| t_text := lit "hello"; t_start := 0; t_end := 5; t_isSpace := false |}
           {| t_text := lit "world"; t_start := 6; t_end := 11; t_isSpace := false |});
    auto.
Defined.

(* ================================================================== *)
(** * Spans stay consistent with token ranges *)

Lemma spanToTokenRange_tokens (st1 st2 : State) (span : Z * Z) :
  tokens st1 = tokens st2 -> spanToTokenRange st1 span = spanToTokenRange st2 span.
Proof. intros E. unfold spanToTokenRange. now rewrite E. Qed.

Lemma token_node_tokens (st1 st2 : State) (i : nat) :
  tokens st1 = tokens st2 -> token_node st1 i = token_node st2 i.
Proof. intros E. unfold token_node. now rewrite E. Qed.

(** What a successful [confirmSaveAnnotation] does to the entities and
    the rest of the model. *)
Lemma confirmSaveAnnotation_returned (form : EntityForm) (st st' : State) :
  confirmSaveAnnotation form st = Returned st' ->
  tokens st' = tokens st /\ relations st' = relations st
  /\ (annotations st' = annotations st
      \/ (exists klass a b ta tb,
            sel_class form = Some klass /\ ui_mode st = ModeCreate
            /\ selection st = {| startIdx := Some a; endIdx := Some b |}
            /\ token_node st a = Some ta /\ token_node st b = Some tb
            /\ annotations st' = annotations st ++
                 [{| e_id := entity_id (length (annotations st) + 1);
                     e_class := klass; e_label := form_label form st;
                     e_attrs := form_attrs form;
                     e_span := (t_start ta, t_end tb);
                     e_tokenRange := (a, b) |}])
      \/ (exists klass,
            sel_class form = Some klass /\ ui_mode st = ModeEdit
            /\ annotations st' =
               update_first (is_edited st)
                 (fun a => {| e_id := e_id a; e_class := klass;
                              e_label := form_label form st;
                              e_attrs := form_attrs form; e_span := e_span a;
                              e_tokenRange := e_tokenRange a |})
                 (annotations st))).
Proof.
  unfold confirmSaveAnnotation.
  destruct (sel_class form) as [klass|];
    [|intros H; injection H as <-; repeat split; now left].
  destruct (ui_mode st) eqn:Em.
  - destruct (selection st) as [[a|] [b|]] eqn:Es; simpl;
      try (intros H; injection H as <-; repeat split; now left).
    destruct (token_node st a) as [ta|] eqn:Ea; [|discriminate].
    destruct (token_node st b) as [tb|] eqn:Eb; [|discriminate].
    intros H; injection H as <-. repeat split. right. left.
    exists klass, a, b, ta, tb. repeat split; assumption.
  - destruct (find (is_edited st) (annotations st));
      [|intros H; injection H as <-; repeat split; now left].
    intros H; injection H as <-. repeat split. right. right.
    exists klass. repeat split.
Qed.

Lemma update_first_Forall {A : Type} (P : A -> Prop) (p : A -> bool) (f : A -> A)
    (l : list A) :
  (forall x, P x -> P (f x)) -> Forall P l -> Forall P (update_first p f l).
Proof.
  intros Hf H. induction H as [|x l Hx Hl IH]; simpl; [constructor|].
  destruct (p x); constructor; auto.
Qed.

(** X7.  Creating on a forward selection, editing and deleting keep
    every entity's token range equal to the range its span maps to,
    on tokens that tile the text. *)
Theorem entity_ops_keep_ranges_consistent (st : State) (from to : Z) (op : EntityOp) :
  tiles (tokens st) from to ->
  forward_selection op = true ->
  Forall (span_consistent st) (annotations st) ->
  Forall (span_consistent (run_op st op)) (annotations (run_op st op)).
Proof.
  intros Htiles Hfwd Hall.
  assert (Hmove : forall s s' l,
            tokens s' = tokens s -> Forall (span_consistent s) l ->
            Forall (span_consistent s') l).
  { intros s s' l E H. eapply Forall_impl; [|exact H].
    intros e He. unfold span_consistent in *.
    now rewrite (spanToTokenRange_tokens s' s _ E). }
  assert (Hconfirm : forall form s,
            tokens s = tokens st -> annotations s = annotations st ->
            (forall a b, selection s = {| startIdx := Some a; endIdx := Some b |} ->
                         ui_mode s = ModeCreate -> a <= b) ->
            Forall (span_consistent (settle s (confirmSaveAnnotation form s)))
                   (annotations (settle s (confirmSaveAnnotation form s)))).
  { intros form s Et Ea Hsel.
    destruct (confirmSaveAnnotation form s) as [s'|] eqn:E; simpl.
    2:{ rewrite Ea. now apply (Hmove st). }
    destruct (confirmSaveAnnotation_returned _ _ _ E) as (Ht & _ & Hann).
    assert (Ets : tokens s' = tokens st) by congruence.
    destruct Hann as [Hann | [Hann | Hann]].
    - rewrite Hann, Ea. now apply (Hmove st).
    - destruct Hann as (klass & a & b & ta & tb & _ & Hm & Hs & Hta & Htb & ->).
      rewrite Ea. apply Forall_app. split; [now apply (Hmove st)|].
      constructor; [|constructor]. unfold span_consistent. cbn [e_span e_tokenRange].
      rewrite (spanToTokenRange_tokens s' s _ Ht).
      rewrite <- Et in Htiles.
      exact (span_of_selection_maps_back s from to a b ta tb Htiles
               (Hsel a b Hs Hm) Hta Htb).
    - destruct Hann as (klass & _ & _ & ->). rewrite Ea.
      apply update_first_Forall; [|now apply (Hmove st)].
      intros e He. exact He. }
  destruct op as [a b form | id form | id]; simpl in *.
  - apply Hconfirm; try reflexivity.
    intros a' b' Hs _. injection Hs as <- <-. now apply Nat.leb_le.
  - apply Hconfirm; try reflexivity. intros a b Hs Hm. discriminate.
  - unfold deleteAnnotation. simpl.
    apply (Hmove st); [reflexivity|]. now apply incl_Forall with (2 := Hall), incl_filter.
Qed.

Lemma entity_ops_keep_ranges_consistent_witness :
  let st' := run_op st_hello (OpCreate 0 2 person_form) in
  length (annotations st') = 1
  /\ Forall (span_consistent st') (annotations st').
Proof.
  intros st'. split; [reflexivity|].
  apply (entity_ops_keep_ranges_consistent st_hello 0 15 (OpCreate 0 2 person_form)).
  - vm_compute. repeat split; reflexivity.
  - reflexivity.
  - constructor.
Defined.

(* ================================================================== *)
(** * Saving and reloading *)

Lemma hydrate_entities_consistent (st : State) (es : list SavedEntity) :
  Forall (span_consistent st) (hydrate_entities st es).
Proof.
  induction es as [|e es IH]; simpl; [constructor|].
  destruct (spanToTokenRange st (se_span e)) as [tr|] eqn:E; [|assumption].
  constructor; [exact E | assumption].
Qed.

(** Entities whose range is consistent with their span come back from
    an echoed payload as they were. *)
Lemma hydrate_echo_entities (st : State) (annos : list Entity) :
  Forall (span_consistent st) annos ->
  hydrate_entities st
    (map (fun e => {| se_id := pe_id e; se_class := pe_class e;
                      se_label := pe_label e;
                      se_attributes := Some (pe_attributes e);
                      se_span := pe_span e |})
         (map (fun a => {| pe_id := e_id a; pe_class := e_class a;
                           pe_label := e_label a; pe_span := e_span a;
                           pe_attributes := e_attrs a |}) annos))
  = annos.
Proof.
  intros H. induction H as [|a annos Ha Hall IH]; simpl; [reflexivity|].
  unfold span_consistent in Ha. rewrite Ha, IH. now destruct a.
Qed.

Lemma reload_annotations (st st0 : State) (data : TextData) (doc : Doc) (p : Payload) :
  current st = Some doc ->
  d_text data = doc_text doc ->
  tokens st = tokens_of (doc_text doc) ->
  buildAnnotationPayload st = Returned p ->
  Forall (span_consistent st) (annotations st) ->
  annotations (loadTextResponse true data (Resolved (Some (echo p))) st0)
  = annotations st.
Proof.
  intros Hcur Htext Htoks Hp Hall.
  unfold buildAnnotationPayload in Hp. rewrite Hcur in Hp. injection Hp as <-.
  unfold loadTextResponse. simpl.
  match goal with
  | |- hydrate_entities ?s _ = _ =>
      rewrite (hydrate_entities_tokens s st);
        [apply hydrate_echo_entities; exact Hall | simpl; congruence]
  end.
Qed.

(** X8.  Saving and reloading a document gives the entities back
    unchanged: if the entities' token ranges are consistent with
    their spans, loading the same text with a body that repeats the
    payload of [buildAnnotationPayload] restores the entity list --
    ids, classes, labels, attributes, spans and token ranges, in
    order -- whatever the state was before the load. *)
Theorem reload_restores_entities (st st0 : State) (data : TextData) (doc : Doc)
    (p : Payload) :
  current st = Some doc ->
  d_text data = doc_text doc ->
  tokens st = tokens_of (doc_text doc) ->
  buildAnnotationPayload st = Returned p ->
  Forall (span_consistent st) (annotations st) ->
  annotations (loadTextResponse true data (Resolved (Some (echo p))) st0)
  = annotations st.
Proof. exact (reload_annotations st st0 data doc p). Qed.

Lemma ids_has_same (annos : list Entity) (x : option jsstring) :
  (exists a, In a annos /\ Some (e_id a) = x) -> ids_has annos x = true.
Proof. apply ids_has_true. Qed.

Lemma hydrate_echo_relations (annos : list Entity) (rels : list Relation) :
  (forall r, In r rels ->
     ids_has annos (r_subject r) = true /\ ids_has annos (r_object r) = true) ->
  map relation_core
    (hydrate_relations annos
       (map (fun r => {| sr_id := pr_id r;
                         sr_predicate := Some (pr_predicate r);
                         sr_subject := pr_subject r;
                         sr_object := pr_object r;
                         sr_attributes := Some (pr_attributes r) |})
            (map (fun r => {| pr_id := r_id r;
                              pr_predicate := predicate_or_empty (r_predicate r);
                              pr_subject := r_subject r;
                              pr_object := r_object r;
                              pr_attributes := r_attrs r |}) rels)))
  = map relation_core rels.
Proof.
  induction rels as [|r rels IH]; intros H; simpl; [reflexivity|].
  destruct (H r (or_introl eq_refl)) as [-> ->]. simpl.
  rewrite IH by (intros r' Hr'; apply H; now right).
  f_equal. unfold relation_core, hydrate_relation. simpl.
  now destruct (r_predicate r) as [[|c s]|].
Qed.

(** X9.  Under referential integrity the relations come back too: each
    one with its id, subject, object and attributes, in order, and
    with its predicate, a missing or empty predicate coming back as
    [null].  (The display order of the attributes is rebuilt from
    their names.) *)
Theorem reload_restores_relations (st st0 : State) (data : TextData) (doc : Doc)
    (p : Payload) :
  current st = Some doc ->
  d_text data = doc_text doc ->
  tokens st = tokens_of (doc_text doc) ->
  buildAnnotationPayload st = Returned p ->
  Forall (span_consistent st) (annotations st) ->
  referential_integrity st ->
  map relation_core
      (relations (loadTextResponse true data (Resolved (Some (echo p))) st0))
  = map relation_core (relations st).
Proof.
  intros Hcur Htext Htoks Hp Hall Hri.
  pose proof (reload_annotations st st0 data doc p Hcur Htext Htoks Hp Hall) as Hann.
  unfold buildAnnotationPayload in Hp. rewrite Hcur in Hp. injection Hp as <-.
  unfold loadTextResponse in *. simpl in *. rewrite Hann.
  apply hydrate_echo_relations. exact Hri.
Qed.

Lemma st_doc_consistent : Forall (span_consistent st_doc) (annotations st_doc).
Proof. repeat constructor. Qed.

Lemma reload_restores_entities_witness :
  exists p,
    buildAnnotationPayload st_doc = Returned p
    /\ annotations (loadTextResponse true data_hello (Resolved (Some (echo p)))
                      initial_state)
       = [entity_A; entity_B].
Proof.
  eexists. split; [reflexivity|].
  exact (reload_restores_entities st_doc initial_state data_hello doc_hello _
           eq_refl eq_refl eq_refl eq_refl st_doc_consistent).
Defined.

Lemma reload_restores_relations_witness :
  exists p,
    buildAnnotationPayload st_doc = Returned p
    /\ map relation_core
         (relations (loadTextResponse true data_hello (Resolved (Some (echo p)))
                       initial_state))
       = [relation_core relation_AB].
Proof.
  eexists. split; [reflexivity|].
  refine (reload_restores_relations st_doc initial_state data_hello doc_hello _
            eq_refl eq_refl eq_refl eq_refl st_doc_consistent _).
  intros r [<- | []]. split; reflexivity.
Defined.

(* ================================================================== *)
(** * Selecting with the mouse, then creating *)

Lemma text_event_model (ds : bool * State) (ev : TextEvent) :
  tokens (snd (text_event ds ev)) = tokens (snd ds)
  /\ annotations (snd (text_event ds ev)) = annotations (snd ds)
  /\ relations (snd (text_event ds ev)) = relations (snd ds).
Proof.
  destruct ds as [dragging st]. destruct ev as [[idx|] | [idx|] | | ]; simpl;
    try (repeat split; reflexivity).
  - destruct dragging; simpl; [|repeat split; reflexivity].
    destruct (match startIdx (selection st) with
              | Some s => idx <? s
              | None => false
              end); repeat split; reflexivity.
  - destruct dragging; repeat split; reflexivity.
  - destruct dragging; repeat split; reflexivity.
Qed.

Lemma text_event_selection_ok (ds : bool * State) (ev : TextEvent) :
  target_exists (snd ds) ev ->
  selection_ok (snd ds) -> selection_ok (snd (text_event ds ev)).
Proof.
  destruct ds as [dragging st]. unfold selection_ok.
  intros Ht (H1 & H2 & H3).
  destruct ev as [[idx|] | [idx|] | | ]; simpl in Ht |- *.
  - split; [|split].
    + intros a E. injection E as <-. exact Ht.
    + intros b E. injection E as <-. exact Ht.
    + intros a b E1 E2. injection E1 as <-. injection E2 as <-. lia.
  - repeat split; assumption.
  - destruct dragging; simpl; [|repeat split; assumption].
    destruct (startIdx (selection st)) as [s|] eqn:Es.
    + destruct (idx <? s) eqn:E; simpl; (split; [|split]).
      * intros a Ea. injection Ea as <-. exact Ht.
      * intros b Eb. injection Eb as <-. now apply H1.
      * intros a b Ea Eb. injection Ea as <-. injection Eb as <-.
        apply Nat.ltb_lt in E. lia.
      * intros a Ea. injection Ea as <-. now apply H1.
      * intros b Eb. injection Eb as <-. exact Ht.
      * intros a b Ea Eb. injection Ea as <-. injection Eb as <-.
        apply Nat.ltb_ge in E. lia.
    + simpl. split; [|split].
      * intros a Ea. discriminate.
      * intros b Eb. injection Eb as <-. exact Ht.
      * intros a b Ea. discriminate.
  - destruct dragging; simpl; repeat split; assumption.
  - destruct dragging; simpl; repeat split; assumption.
  - simpl. split; [|split]; intros; discriminate.
Qed.

(** X10.  Whatever the user does with the mouse and the Escape key on
    the rendered tokens, the selection only ever names tokens that
    are not whitespace, and when it has both ends the start is not
    after the end; and nothing else of the model changes. *)
Theorem mouse_selection_is_normalized (events : list TextEvent) :
  forall ds : bool * State,
    selection_ok (snd ds) ->
    Forall (target_exists (snd ds)) events ->
    let ds' := fold_left text_event events ds in
    selection_ok (snd ds')
    /\ tokens (snd ds') = tokens (snd ds)
    /\ annotations (snd ds') = annotations (snd ds)
    /\ relations (snd ds') = relations (snd ds).
Proof.
  induction events as [|ev events IH]; intros ds Hok Hev; simpl.
  - split; [exact Hok | repeat split].
  - inversion Hev as [|? ? Hev1 Hev2]; subst.
    destruct (text_event_model ds ev) as (Et & Ea & Er).
    destruct (IH (text_event ds ev)) as (I1 & I2 & I3 & I4).
    + now apply text_event_selection_ok.
    + eapply Forall_impl; [|exact Hev2]. intros e He.
      destruct e as [[i|] | [i|] | | ]; simpl in *; try exact I;
        unfold token_node in *; now rewrite Et.
    + split; [exact I1 | repeat split; congruence].
Qed.

(** Press on "world", drag back to "hello", release. *)
Lemma mouse_selection_is_normalized_witness :
  let ds' := fold_left text_event
               [EvMouseDown (Some 2); EvMouseMove (Some 0); EvMouseUp]
               (false, st_hello) in
  selection (snd ds') = {| startIdx := Some 0; endIdx := Some 2 |}
  /\ selection_ok (snd ds').
Proof.
  intros ds'. split; [reflexivity|].
  refine (proj1 (mouse_selection_is_normalized
                   [EvMouseDown (Some 2); EvMouseMove (Some 0); EvMouseUp]
                   (false, st_hello) _ _)).
  - repeat split; intros; discriminate.
  - repeat constructor; discriminate.
Defined.



(* ================================================================== *)
(** * Saving *)

Section SaveProperties.

Variable number_isNaN : AttrValue -> bool.

(** A relation that passes validation passed the checks before the
    attribute loop. *)
Lemma check_relation_none_reaches (st : State) (r : Relation) :
  check_relation number_isNaN st r = None ->
  exists spec, reaches_attribute_checks st r spec.
Proof.
  unfold check_relation, reaches_attribute_checks.
  destruct (r_subject r) as [[|s0 s]|]; try discriminate.
  destruct (r_object r) as [[|o0 o]|]; try discriminate.
  destruct (r_predicate r) as [[|p0 p]|]; try discriminate.
  destruct (trim (p0 :: p)) eqn:Et; [discriminate|].
  destruct (relationsMeta_at st (p0 :: p)) as [spec|] eqn:El; [|discriminate].
  destruct (entityById st (s0 :: s)) as [left_|] eqn:Es; [|discriminate].
  destruct (entityById st (o0 :: o)) as [right_|] eqn:Eo; [|discriminate].
  assert (Hown : forall klass,
            opt_includes (rs_subject spec) klass = true ->
            lookup (p0 :: p) (relationsMeta st) = Some spec).
  { intros klass Hk.
    exact (relationsMeta_at_listed st (p0 :: p) spec klass El (or_introl Hk)). }
  destruct (opt_includes (rs_subject spec) (e_class left_)
            && opt_includes (rs_object spec) (e_class right_)) eqn:Ef;
    destruct (opt_includes (rs_subject spec) (e_class right_)
              && opt_includes (rs_object spec) (e_class left_)) eqn:Er;
    simpl; try discriminate; intros _;
    exists spec, (s0 :: s), (o0 :: o), (p0 :: p), left_, right_;
    rewrite Et, Ef, Er; repeat split; try discriminate; try reflexivity;
    try assumption;
    first [ apply andb_true_iff in Ef; exact (Hown _ (proj1 Ef))
          | apply andb_true_iff in Er; exact (Hown _ (proj1 Er)) ].
Qed.

Lemma validate_all_pass (st : State) (dom : Dom) :
  fst (validateRelations number_isNaN st dom) = true ->
  forall r, In r (relations st) -> check_relation number_isNaN st r = None.
Proof.
  unfold validateRelations. rewrite validate_loop_fst. simpl.
  rewrite forallb_forall. intros H r Hr. specialize (H r Hr).
  now destruct (check_relation number_isNaN st r).
Qed.

Lemma entityById_In (st : State) (id : jsstring) (e : Entity) :
  entityById st id = Some e -> In e (annotations st) /\ e_id e = id.
Proof.
  unfold entityById. intros H. apply find_some in H. destruct H as [H1 H2].
  apply str_eqb_eq in H2. now split.
Qed.

(** What Save does when it does not skip. *)
Lemma saveClick_sends (existing : Fetched) (st : State) (dom dom' : Dom)
    (step : SaveStep) (p : Payload) :
  saveClick number_isNaN existing st dom = (step, dom') ->
  step_payload step = Some p ->
  fst (validateRelations number_isNaN st dom) = true
  /\ buildAnnotationPayload st = Returned p
  /\ (saved_exists st = false \/ ui_dirty st = true)
  /\ match step with
     | StepWrite _ ow =>
         backend_entities existing = []
         /\ ow = match existing with Resolved (Some _) => true | _ => false end
     | _ => backend_entities existing <> []
     end.
Proof.
  unfold saveClick.
  destruct (saved_exists st && negb (ui_dirty st)) eqn:Eskip;
    [intros H; injection H as <- _; discriminate|].
  assert (Hd : saved_exists st = false \/ ui_dirty st = true).
  { destruct (saved_exists st); [|now left]. right.
    simpl in Eskip. now apply negb_false_iff in Eskip. }
  destruct (validateRelations number_isNaN st dom) as [ok d] eqn:Ev.
  destruct ok; simpl; [|intros H; injection H as <- _; discriminate].
  destruct (buildAnnotationPayload st) as [q|];
    [|intros H; injection H as <- _; discriminate].
  destruct existing as [|[ex|]]; [intros H; injection H as <- _; discriminate| |].
  - destruct ex as [[[|e es]|] rs]; simpl; intros H; injection H as <- _;
      intros Hp; injection Hp as ->; repeat split; try assumption; discriminate.
  - intros H; injection H as <- _. intros Hp; injection Hp as ->.
    repeat split; assumption.
Qed.

(** X12.  Whatever Save sends, at once or after the overwrite
    confirmation, is the payload of a model whose relations all
    passed validation: every relation in it has a non-empty predicate
    that the schema knows, and a subject and an object that are ids
    of entities in the same payload.  A write without confirmation
    only happens when the backend's copy holds no entity, and its
    overwrite flag says whether a copy exists. *)
Theorem save_sends_sound_payload (existing : Fetched) (st : State) (dom dom' : Dom)
    (step : SaveStep) (p : Payload) :
  saveClick number_isNaN existing st dom = (step, dom') ->
  step_payload step = Some p ->
  payload_sound st p
  /\ match step with
     | StepWrite _ ow =>
         backend_entities existing = []
         /\ ow = match existing with Resolved (Some _) => true | _ => false end
     | _ => backend_entities existing <> []
     end.
Proof.
  intros Hclick Hp.
  destruct (saveClick_sends existing st dom dom' step p Hclick Hp)
    as (Hok & Hbuild & _ & Hstep).
  split; [|exact Hstep].
  unfold buildAnnotationPayload in Hbuild.
  destruct (current st) as [doc|]; [|discriminate]. injection Hbuild as <-.
  unfold payload_sound. simpl. rewrite Forall_map, Forall_forall. intros r Hr. simpl.
  pose proof (validate_all_pass st dom Hok r Hr) as Hnone.
  destruct (check_relation_none_reaches st r Hnone)
    as (spec & s & o & q & left_ & right_ & Hs & Hs' & Ho & Ho' & Hq & Hq'
        & Hspec & Hl & Hr' & _).
  rewrite Hq, Hs, Ho.
  destruct q as [|q0 q]; [now destruct Hq'|]. simpl.
  destruct (entityById_In _ _ _ Hl) as [Hin1 Hid1].
  destruct (entityById_In _ _ _ Hr') as [Hin2 Hid2].
  split; [discriminate|]. split; [congruence|]. split.
  - eexists. split; [apply in_map; exact Hin1 | simpl; congruence].
  - eexists. split; [apply in_map; exact Hin2 | simpl; congruence].
Qed.



(** X14.  Editing relations does not mark the document dirty:
    confirming the relation modal, removing a relation and dropping
    an entity on a row's placeholder leave [ui.dirty] and
    [saved.exists] as they were.  So on a document loaded with saved
    annotations and not otherwise edited, Save still skips after any
    of them. *)
Theorem relation_edits_leave_save_skipping (st : State) (existing : Fetched) (dom : Dom) :
  saved_exists st = true ->
  ui_dirty st = false ->
  (forall form st', confirmRelation form st = Returned st' ->
     fst (saveClick number_isNaN existing st' dom) = StepSkip)
  /\ (forall relId,
        fst (saveClick number_isNaN existing (deleteRelation relId st) dom) = StepSkip)
  /\ (forall k side entId st', dropOnPlaceholder k side entId st = Returned st' ->
        fst (saveClick number_isNaN existing st' dom) = StepSkip).
Proof.
  intros Hs Hd.
  assert (Hskip : forall st', saved_exists st' = saved_exists st ->
                     ui_dirty st' = ui_dirty st ->
                     fst (saveClick number_isNaN existing st' dom) = StepSkip).
  { intros st' E1 E2. unfold saveClick. now rewrite E1, E2, Hs, Hd. }
  split; [|split].
  - intros form st' H. unfold confirmRelation in H.
    destruct (find (is_rel_edited st) (relations st));
      [|injection H as <-; now apply Hskip].
    destruct (sel_rel form); [|discriminate].
    injection H as <-. now apply Hskip.
  - intros relId. now apply Hskip.
  - intros k side entId st' H. unfold dropOnPlaceholder in H.
    destruct (nth_error (relations st) k) as [rel|];
      [|injection H as <-; now apply Hskip].
    destruct (placeholder_drop st side entId rel); [|discriminate].
    injection H as <-. now apply Hskip.
Qed.

(** X15.  Entity edits and new relations do mark it: after a confirm
    of the entity modal that changes the entities, after a delete in
    edit mode and after a drop on the relation drop zone, Save does
    not skip. *)
Theorem entity_edits_stop_save_skipping (st : State) (existing : Fetched) (dom : Dom) :
  (forall form st', confirmSaveAnnotation form st = Returned st' ->
     annotations st' <> annotations st ->
     is_skip (fst (saveClick number_isNaN existing st' dom)) = false)
  /\ (ui_mode st = ModeEdit ->
      is_skip (fst (saveClick number_isNaN existing (deleteAnnotation st) dom)) = false)
  /\ (forall entId, entId <> [] ->
        is_skip (fst (saveClick number_isNaN existing (dropOnRelations entId st) dom))
        = false).
Proof.
  assert (Hdirty : forall st', ui_dirty st' = true ->
                      is_skip (fst (saveClick number_isNaN existing st' dom)) = false).
  { intros st' E. unfold saveClick. rewrite E, andb_false_r.
    destruct (validateRelations number_isNaN st' dom) as [[|] d]; simpl; [|reflexivity].
    destruct (buildAnnotationPayload st'); [|reflexivity].
    destruct existing as [|[[[[|? ?]|] ?]|]]; reflexivity. }
  split; [|split].
  - intros form st' H Hneq. apply Hdirty. unfold confirmSaveAnnotation in H.
    destruct (sel_class form); [|injection H as <-; congruence].
    destruct (ui_mode st).
    + destruct (startIdx (selection st)); [|injection H as <-; congruence].
      destruct (endIdx (selection st)); [|injection H as <-; congruence].
      destruct (token_node st n); [|discriminate].
      destruct (token_node st n0); [|discriminate].
      now injection H as <-.
    + destruct (find (is_edited st) (annotations st));
        [|injection H as <-; congruence].
      now injection H as <-.
  - intros Hm. apply Hdirty. unfold deleteAnnotation. now rewrite Hm.
  - intros entId Hne. apply Hdirty. unfold dropOnRelations.
    destruct entId; [congruence | reflexivity].
Qed.

(** X16.  A relation started on the drop zone gets the id
    [R<n+1>], [n] being the number of relations, has only its subject
    -- the dragged text, which is not checked against the entities --
    and blocks saving: the next Save stops on invalid relations. *)
Theorem dropped_relation_blocks_save (st : State) (entId : jsstring)
    (existing : Fetched) (dom : Dom) :
  entId <> [] ->
  relations (dropOnRelations entId st)
  = relations st ++
    [{| r_id := relation_id (length (relations st) + 1);
        r_predicate := None; r_subject := Some entId; r_object := None;
        r_attrs := []; r_attrOrder := None |}]
  /\ annotations (dropOnRelations entId st) = annotations st
  /\ fst (saveClick number_isNaN existing (dropOnRelations entId st) dom) = StepInvalid.
Proof.
  intros Hne. destruct entId as [|c s]; [congruence|].
  split; [reflexivity|]. split; [reflexivity|].
  unfold saveClick. simpl ui_dirty. rewrite andb_false_r.
  set (st' := dropOnRelations (c :: s) st).
  assert (Hv : fst (validateRelations number_isNaN st' dom) = false).
  { apply (validateRelations_false number_isNaN st' dom
             {| r_id := relation_id (length (relations st) + 1);
                r_predicate := None; r_subject := Some (c :: s); r_object := None;
                r_attrs := []; r_attrOrder := None |} msg_incomplete).
    - unfold st'. simpl. apply in_or_app. right. now left.
    - reflexivity. }
  destruct (validateRelations number_isNaN st' dom) as [ok d]. simpl in Hv.
  now rewrite Hv.
Qed.

End SaveProperties.

Lemma save_sends_sound_payload_witness :
  exists p,
    saveClick never_NaN (Resolved None) st_valid two_rows = (StepWrite p false, two_rows)
    /\ payload_sound st_valid p.
Proof.
  eexists. split; [vm_compute; reflexivity|].
  exact (proj1 (save_sends_sound_payload never_NaN (Resolved None) st_valid
                  two_rows two_rows (StepWrite _ false) _ eq_refl eq_refl)).
Defined.

Lemma relation_edits_leave_save_skipping_witness :
  exists st',
    confirmRelation works_for_note_form st_reloaded = Returned st'
    /\ map r_attrs (relations st') = [[(lit "note", VStr (lit "since 2020"))]]
    /\ map r_attrs (relations st_reloaded) = [[]]
    /\ fst (saveClick never_NaN (Resolved (Some saved_AB)) st' two_rows) = StepSkip.
Proof.
  eexists. split; [reflexivity|]. split; [reflexivity|]. split; [reflexivity|].
  exact (proj1 (relation_edits_leave_save_skipping never_NaN st_reloaded
                  (Resolved (Some saved_AB)) two_rows eq_refl eq_refl)
           works_for_note_form _ eq_refl).
Defined.

Lemma entity_edits_stop_save_skipping_witness :
  exists st',
    confirmSaveAnnotation person_form
      (openEntityModal ModeCreate None
         (set_selection st_reloaded {| startIdx := Some 4; endIdx := Some 4 |}))
      = Returned st'
    /\ is_skip (fst (saveClick never_NaN (Resolved (Some saved_AB)) st' two_rows)) = false.
Proof.
  eexists. split; [reflexivity|].
  refine (proj1 (entity_edits_stop_save_skipping never_NaN
                   (openEntityModal ModeCreate None
                      (set_selection st_reloaded
                         {| startIdx := Some 4; endIdx := Some 4 |}))
                   (Resolved (Some saved_AB)) two_rows) person_form _ eq_refl _).
  vm_compute. discriminate.
Defined.

Lemma dropped_relation_blocks_save_witness :
  fst (saveClick never_NaN (Resolved None) (dropOnRelations (entity_id 1) st_valid)
         two_rows) = StepInvalid.
Proof.
  refine (proj2 (proj2 (dropped_relation_blocks_save never_NaN st_valid (entity_id 1)
                          (Resolved None) two_rows _))).
  discriminate.
Defined.

(* ================================================================== *)
(** * Endpoints dropped on a relation row *)

Lemma replace_nth_spec {A : Type} (l : list A) :
  forall k x,
    length (replace_nth k x l) = length l
    /\ (forall j, j <> k -> nth_error (replace_nth k x l) j = nth_error l j)
    /\ (k < length l -> nth_error (replace_nth k x l) k = Some x).
Proof.
  induction l as [|y l IH]; intros k x; simpl.
  - destruct k; simpl; (split; [reflexivity|]; split; [reflexivity|]); intros H;
      inversion H.
  - destruct k as [|k]; simpl.
    + repeat split. intros [|j] Hj; [congruence | reflexivity].
    + destruct (IH k x) as (I1 & I2 & I3). repeat split.
      * now rewrite I1.
      * intros [|j] Hj; [reflexivity|]. simpl. apply I2. congruence.
      * intros Hk. apply I3. lia.
Qed.

Lemma placeholder_drop_returned (st : State) (side : Side) (entId : jsstring)
    (rel rel' : Relation) :
  placeholder_drop st side entId rel = Returned rel' ->
  rel' = rel
  \/ (rel' = set_endpoint side entId rel
      /\ entId <> []
      /\ other_endpoint side rel <> Some entId
      /\ exists ent,
           entityById st entId = Some ent
           /\ match r_predicate rel with
              | Some (c :: p) =>
                  exists spec, lookup (c :: p) (relationsMeta st) = Some spec
                               /\ permitted side spec (e_class ent) = true
              | _ => True
              end).
Proof.
  unfold placeholder_drop.
  destruct entId as [|e0 e]; [intros H; injection H as <-; now left|].
  destruct side; cbn [other_endpoint permitted];
    (match goal with
     | |- context [ostr_eqb ?x ?y] =>
         destruct (ostr_eqb x y) eqn:Eo;
           [intros H; injection H as <-; now left|];
         assert (Hneq : x <> y)
           by (intros E; apply ostr_eqb_eq in E; congruence)
     end;
     destruct (entityById st (e0 :: e)) as [ent|] eqn:Ee;
       [|intros H; injection H as <-; now left];
     destruct (r_predicate rel) as [[|c p]|] eqn:Ep;
       [ intros H; injection H as <-; right;
         repeat split; try assumption; try discriminate; exists ent; now split
       | destruct (relationsMeta_at st (c :: p)) as [spec|] eqn:El; [|discriminate];
         match goal with
         | |- context [opt_includes ?l (e_class ent)] =>
             destruct (opt_includes l (e_class ent)) eqn:Eperm;
               intros H; injection H as <-; [|now left];
               right; repeat split; try assumption; try discriminate;
               exists ent; split; [reflexivity|]; exists spec;
               split; [|exact Eperm];
               apply (relationsMeta_at_listed st (c :: p) spec (e_class ent) El);
               first [left; exact Eperm | right; exact Eperm]
         end
       | intros H; injection H as <-; right;
         repeat split; try assumption; try discriminate; exists ent; now split ]).
Qed.

(** X17.  A drop on a row's placeholder touches that row's relation
    only, and either leaves it as it was or sets the endpoint of that
    side to the dropped id.  It sets it only to the id of an existing
    entity, never to the id the other endpoint already has -- so
    subject and object differ afterwards -- and, when the relation
    has a predicate, only if the schema permits the entity's class on
    that side. *)
Theorem placeholder_drop_is_guarded (k : nat) (side : Side) (entId : jsstring)
    (st st' : State) (rel : Relation) :
  nth_error (relations st) k = Some rel ->
  dropOnPlaceholder k side entId st = Returned st' ->
  annotations st' = annotations st
  /\ length (relations st') = length (relations st)
  /\ (forall j, j <> k -> nth_error (relations st') j = nth_error (relations st) j)
  /\ exists rel',
       nth_error (relations st') k = Some rel'
       /\ (rel' = rel
           \/ (rel' = set_endpoint side entId rel
               /\ r_subject rel' <> r_object rel'
               /\ exists ent,
                    entityById st entId = Some ent
                    /\ match r_predicate rel with
                       | Some (c :: p) =>
                           exists spec,
                             lookup (c :: p) (relationsMeta st) = Some spec
                             /\ permitted side spec (e_class ent) = true
                       | _ => True
                       end)).
Proof.
  intros Hk H. unfold dropOnPlaceholder in H. rewrite Hk in H.
  destruct (placeholder_drop st side entId rel) as [rel'|] eqn:E; [|discriminate].
  injection H as <-. simpl.
  assert (Hlt : k < length (relations st)) by (apply nth_error_Some; congruence).
  destruct (replace_nth_spec (relations st) k rel') as (L1 & L2 & L3).
  split; [reflexivity|]. split; [exact L1|]. split; [exact L2|].
  exists rel'. split; [now apply L3|].
  destruct (placeholder_drop_returned _ _ _ _ _ E) as [-> | (-> & Hne & Ho & Hent)];
    [now left|].
  right. split; [reflexivity|]. split; [|exact Hent].
  destruct side; simpl in *; congruence.
Qed.

(** Dropping the person on the object placeholder of the relation
    started from the organisation. *)
Lemma placeholder_drop_is_guarded_witness :
  exists st' rel',
    dropOnPlaceholder 0 SideObject (entity_id 1) st_one_endpoint = Returned st'
    /\ nth_error (relations st') 0 = Some rel'
    /\ r_subject rel' = Some (entity_id 2)
    /\ r_object rel' = Some (entity_id 1).
Proof.
  eexists.
  destruct (placeholder_drop_is_guarded 0 SideObject (entity_id 1) st_one_endpoint _
              relation_B_only eq_refl eq_refl) as (_ & _ & _ & rel' & Hn & _).
  exists rel'. split; [reflexivity|]. split; [exact Hn|].
  vm_compute in Hn. injection Hn as <-. split; reflexivity.
Defined.

(** X18.  The handler throws in one case only: the dropped id is an
    entity's, differs from the other endpoint, and the relation
    carries a predicate for which [state.relationsMeta[rel.predicate]]
    is [undefined] -- a name that is neither a key of the schema nor
    one of those every object inherits from [Object.prototype]. *)
Theorem placeholder_drop_throws (st : State) (side : Side) (entId : jsstring)
    (rel : Relation) :
  placeholder_drop st side entId rel = Threw <->
  entId <> []
  /\ other_endpoint side rel <> Some entId
  /\ entityById st entId <> None
  /\ exists c p, r_predicate rel = Some (c :: p)
                 /\ lookup (c :: p) (relationsMeta st) = None
                 /\ inherited (c :: p) = false.
Proof.
  unfold placeholder_drop.
  destruct entId as [|e0 e].
  { split; [discriminate | intros (H & _); congruence]. }
  destruct side; cbn [other_endpoint];
    (match goal with
     | |- context [ostr_eqb ?x ?y] =>
         destruct (ostr_eqb x y) eqn:Eo;
           [apply ostr_eqb_eq in Eo;
            split; [discriminate | intros (_ & H & _); congruence]|];
         assert (Hneq : x <> y)
           by (intros E; apply ostr_eqb_eq in E; congruence)
     end;
     destruct (entityById st (e0 :: e)) as [ent|];
       [|split; [discriminate | intros (_ & _ & H & _); congruence]];
     destruct (r_predicate rel) as [[|c p]|];
       [ split; [discriminate | intros (_ & _ & _ & c & p & H & _); discriminate]
       | destruct (relationsMeta_at st (c :: p)) as [spec|] eqn:El;
         [ split;
           [ destruct (opt_includes _ _); discriminate
           | intros (_ & _ & _ & c' & p' & H & Hl);
             injection H as <- <-;
             apply relationsMeta_at_none in Hl; congruence ]
         | split; [|reflexivity]; intros _;
           apply relationsMeta_at_none in El;
           repeat split; try discriminate; try assumption;
           exists c, p; split; [reflexivity|exact El] ]
       | split; [discriminate | intros (_ & _ & _ & c & p & H & _); discriminate] ]).
Qed.

(* ================================================================== *)
(** * Choosing an offered predicate *)

Lemma offered_name_allowed (st : State) (l r : option jsstring) (name : jsstring) :
  In name (getAllowedRelationNames st l r) ->
  relationAllowedBidirectional st l r name = true.
Proof.
  unfold getAllowedRelationNames. rewrite filter_In. tauto.
Qed.

Lemma lookup_in_keys {A : Type} (k : jsstring) (m : list (jsstring * A)) :
  In k (map fst m) -> exists v, lookup k m = Some v.
Proof.
  induction m as [|[k' v'] m IH]; simpl; [tauto|].
  destruct (str_eqb k' k) eqn:E; [intros _; now exists v'|].
  apply str_eqb_neq in E. intros [H|H]; [contradiction|now apply IH].
Qed.

(** An offered name is a key of the schema. *)
Lemma offered_name_own (st : State) (l r : option jsstring) (name : jsstring) :
  In name (getAllowedRelationNames st l r) ->
  exists spec, lookup name (relationsMeta st) = Some spec
               /\ relationsMeta_at st name = Some spec.
Proof.
  unfold getAllowedRelationNames. rewrite filter_In. intros [H _].
  destruct (lookup_in_keys name (relationsMeta st) H) as (spec & E).
  exists spec. split; [exact E|now apply relationsMeta_at_own].
Qed.

Lemma endpoint_entity_annotations (st st' : State) (id : option jsstring) :
  annotations st' = annotations st -> endpoint_entity st' id = endpoint_entity st id.
Proof.
  intros E. destruct id as [[|c s]|]; try reflexivity.
  unfold endpoint_entity, entityById. now rewrite E.
Qed.

(** X19.  When both endpoints of the edited relation are entities and
    the predicate confirmed is one the modal offers for them, the
    relation ends in an orientation the schema permits: the class of
    its subject is in the predicate's subject list and the class of
    its object in its object list, the endpoints having been swapped
    if need be. *)
Theorem offered_predicate_orients_forward (st : State) (form : RelForm)
    (name : jsstring) (rel : Relation) (left_ right_ : Entity) :
  edited_relation st = Some rel ->
  endpoint_entity st (r_subject rel) = Some left_ ->
  endpoint_entity st (r_object rel) = Some right_ ->
  e_class left_ <> [] -> e_class right_ <> [] ->
  In name (offered_names st rel) ->
  sel_rel form = Some name ->
  exists st' rel' spec subj obj,
    confirmRelation form st = Returned st'
    /\ edited_relation st' = Some rel'
    /\ r_predicate rel' = Some name
    /\ lookup name (relationsMeta st') = Some spec
    /\ endpoint_entity st' (r_subject rel') = Some subj
    /\ endpoint_entity st' (r_object rel') = Some obj
    /\ opt_includes (rs_subject spec) (e_class subj) = true
    /\ opt_includes (rs_object spec) (e_class obj) = true
    /\ ((subj = left_ /\ obj = right_) \/ (subj = right_ /\ obj = left_)).
Proof.
  intros Hrel Hl Hr Hcl Hcr Hoff Hname.
  destruct (confirmRelation_known st form name rel Hname Hrel)
    as (st' & rel' & Hret & Hed & Hann & _ & Hpred & Hor).
  assert (Hmeta : relationsMeta st' = relationsMeta st).
  { unfold confirmRelation in Hret. unfold edited_relation in Hrel.
    rewrite Hrel, Hname in Hret. now injection Hret as <-. }
  unfold offered_names in Hoff.
  destruct (offered_name_own _ _ _ _ Hoff) as (spec & Espec & Eat).
  apply offered_name_allowed in Hoff.
  rewrite Hl, Hr in Hoff. unfold class_or_null, relationAllowedBidirectional in Hoff.
  rewrite Eat in Hoff.
  destruct (e_class left_) as [|c cl] eqn:Ecl; [congruence|].
  destruct (e_class right_) as [|d cr] eqn:Ecr; [congruence|].
  unfold oriented, relationOrientationForPair in Hor.
  rewrite Hl, Hr, Eat, Ecl, Ecr in Hor. simpl in Hor.
  exists st', rel', spec.
  destruct (opt_includes (rs_subject spec) (c :: cl)
            && opt_includes (rs_object spec) (d :: cr)) eqn:Ef;
    destruct (opt_includes (rs_subject spec) (d :: cr)
              && opt_includes (rs_object spec) (c :: cl)) eqn:Er;
    simpl in Hor, Hoff; try discriminate; injection Hor as Hs Ho.
  - apply andb_true_iff in Ef. destruct Ef as [E1 E2].
    exists left_, right_. rewrite Hmeta, Hs, Ho, !(endpoint_entity_annotations _ _ _ Hann).
    rewrite Ecl, Ecr. repeat split; try assumption. now left.
  - apply andb_true_iff in Ef. destruct Ef as [E1 E2].
    exists left_, right_. rewrite Hmeta, Hs, Ho, !(endpoint_entity_annotations _ _ _ Hann).
    rewrite Ecl, Ecr. repeat split; try assumption. now left.
  - apply andb_true_iff in Er. destruct Er as [E1 E2].
    exists right_, left_. rewrite Hmeta, Hs, Ho, !(endpoint_entity_annotations _ _ _ Hann).
    rewrite Ecl, Ecr. repeat split; try assumption. now right.
Qed.

Lemma offered_predicate_orients_forward_witness :
  exists st' rel',
    confirmRelation works_for_form st_person_org = Returned st'
    /\ edited_relation st' = Some rel'
    /\ endpoint_entity st' (r_subject rel') = Some entity_A
    /\ endpoint_entity st' (r_object rel') = Some entity_B.
Proof.
  destruct (offered_predicate_orients_forward st_person_org works_for_form
              (lit "WorksFor") relation_BA entity_B entity_A)
    as (st' & rel' & spec & subj & obj & H1 & H2 & _ & _ & H5 & H6 & _);
    try reflexivity; try discriminate.
  - now left.
  - exists st', rel'. split; [exact H1|]. split; [exact H2|].
    vm_compute in H1. injection H1 as <-. vm_compute in H2. injection H2 as <-.
    split; reflexivity.
Defined.

(** X20.  When only one endpoint is an entity and the predicate
    confirmed is one the modal offers for it, the entity ends on a
    side where the schema permits its class: as the only endpoint,
    subject or object, the other slot being as it was or [null]. *)
Theorem offered_predicate_places_single_endpoint (st : State) (form : RelForm)
    (name : jsstring) (rel : Relation) (ent : Entity) :
  edited_relation st = Some rel ->
  e_class ent <> [] ->
  (endpoint_entity st (r_subject rel) = Some ent /\ r_object rel = None)
  \/ (r_subject rel = None /\ endpoint_entity st (r_object rel) = Some ent) ->
  In name (offered_names st rel) ->
  sel_rel form = Some name ->
  exists st' rel' spec,
    confirmRelation form st = Returned st'
    /\ edited_relation st' = Some rel'
    /\ lookup name (relationsMeta st') = Some spec
    /\ ((endpoint_entity st' (r_subject rel') = Some ent /\ r_object rel' = None
         /\ opt_includes (rs_subject spec) (e_class ent) = true)
        \/ (r_subject rel' = None /\ endpoint_entity st' (r_object rel') = Some ent
            /\ opt_includes (rs_object spec) (e_class ent) = true)).
Proof.
  intros Hrel Hc Hends Hoff Hname.
  destruct (confirmRelation_known st form name rel Hname Hrel)
    as (st' & rel' & Hret & Hed & Hann & _ & Hpred & Hor).
  assert (Hmeta : relationsMeta st' = relationsMeta st).
  { unfold confirmRelation in Hret. unfold edited_relation in Hrel.
    rewrite Hrel, Hname in Hret. now injection Hret as <-. }
  unfold offered_names in Hoff.
  destruct (offered_name_own _ _ _ _ Hoff) as (spec & Espec & Eat).
  apply offered_name_allowed in Hoff.
  unfold oriented, firstEntityRoleFor in Hor.
  unfold relationAllowedBidirectional in Hoff.
  rewrite Eat in Hor, Hoff.
  exists st', rel', spec. rewrite Hmeta.
  split; [exact Hret|]. split; [exact Hed|]. split; [exact Espec|].
  destruct Hends as [[He Hn] | [Hn He]].
  - rewrite He, Hn in Hor, Hoff. simpl in Hor, Hoff.
    destruct (e_class ent) as [|c cl] eqn:Ec; [congruence|]. simpl in Hoff.
    destruct (opt_includes (rs_subject spec) (c :: cl)) eqn:Es;
      destruct (opt_includes (rs_object spec) (c :: cl)) eqn:Eo;
      simpl in Hor, Hoff; try discriminate; injection Hor as Hs Ho;
      rewrite Hs, Ho, ?(endpoint_entity_annotations _ _ _ Hann), ?Hn, ?He.
    + left. repeat split.
    + left. repeat split.
    + right. repeat split.
  - rewrite He, Hn in Hor, Hoff. simpl in Hor, Hoff.
    destruct (e_class ent) as [|c cl] eqn:Ec; [congruence|]. simpl in Hoff.
    destruct (opt_includes (rs_subject spec) (c :: cl)) eqn:Es;
      destruct (opt_includes (rs_object spec) (c :: cl)) eqn:Eo;
      simpl in Hor, Hoff; try discriminate; injection Hor as Hs Ho;
      rewrite Hs, Ho, ?(endpoint_entity_annotations _ _ _ Hann), ?Hn, ?He.
    + right. repeat split.
    + left. repeat split.
    + right. repeat split.
Qed.

(** The relation started from the organisation: once "WorksFor" is
    chosen the organisation is its object. *)
Lemma offered_predicate_places_single_endpoint_witness :
  exists st' rel',
    confirmRelation works_for_form st_one_endpoint = Returned st'
    /\ edited_relation st' = Some rel'
    /\ r_subject rel' = None
    /\ r_object rel' = Some (entity_id 2).
Proof.
  destruct (offered_predicate_places_single_endpoint st_one_endpoint works_for_form
              (lit "WorksFor") relation_B_only entity_B)
    as (st' & rel' & spec & H1 & H2 & _);
    try reflexivity; try discriminate.
  - left. split; reflexivity.
  - now left.
  - exists st', rel'. split; [exact H1|]. split; [exact H2|].
    vm_compute in H1. injection H1 as <-. vm_compute in H2. injection H2 as <-.
    split; reflexivity.
Defined.

(* ================================================================== *)
(** * Attribute groups *)

Lemma splitSpecOrder_fold (keys : list jsstring) :
  forall g,
    fold_left push_group keys g
    = {| g_subject := g_subject g ++ names_in GSubject keys;
         g_predicate := g_predicate g ++ names_in GPredicate keys;
         g_object := g_object g ++ names_in GObject keys;
         g_statement := g_statement g ++ names_in GStatement keys |}.
Proof.
  unfold names_in.
  induction keys as [|n keys IH]; intros g; simpl.
  - rewrite !app_nil_r. now destruct g.
  - rewrite IH. unfold push_group.
    destruct (classifyAttrName n); simpl; rewrite <- ?app_assoc; reflexivity.
Qed.

Lemma splitSpecOrder_names (keys : list jsstring) :
  splitSpecOrder keys
  = {| g_subject := names_in GSubject keys;
       g_predicate := names_in GPredicate keys;
       g_object := names_in GObject keys;
       g_statement := names_in GStatement keys |}.
Proof. unfold splitSpecOrder. now rewrite splitSpecOrder_fold. Qed.

Lemma names_in_partition (keys : list jsstring) :
  Permutation
    (names_in GSubject keys ++ names_in GPredicate keys
     ++ names_in GObject keys ++ names_in GStatement keys)
    keys.
Proof.
  unfold names_in. induction keys as [|n keys IH]; simpl; [constructor|].
  destruct (classifyAttrName n); simpl.
  - apply Permutation_sym, Permutation_cons_app, Permutation_sym, IH.
  - now constructor.
  - apply Permutation_sym.
    rewrite app_assoc. apply Permutation_cons_app.
    rewrite <- app_assoc. apply Permutation_sym, IH.
  - apply Permutation_sym.
    rewrite 2!app_assoc. apply Permutation_cons_app.
    rewrite <- 2!app_assoc. apply Permutation_sym, IH.
Qed.

Lemma filter_ext_all {A : Type} (f g : A -> bool) (l : list A) :
  (forall x, f x = g x) -> filter f l = filter g l.
Proof. intros H. apply filter_ext_in. intros x _. apply H. Qed.

Lemma classify_subject (k : jsstring) :
  startsWith (lit "subject_") k = group_eqb (classifyAttrName k) GSubject.
Proof.
  unfold classifyAttrName.
  destruct (str_eqb k (lit "edge_predicate")) eqn:E.
  - apply str_eqb_eq in E. subst k. reflexivity.
  - destruct (startsWith (lit "subject_") k); [reflexivity|].
    now destruct (startsWith (lit "object_") k).
Qed.

Lemma subject_not_object (k : jsstring) :
  startsWith (lit "subject_") k = true ->
  startsWith (lit "object_") k = false.
Proof.
  destruct k as [|c k]; [discriminate|].
  change (startsWith (lit "subject_") (c :: k))
    with (N.eqb 115 c && startsWith (lit "ubject_") k).
  change (startsWith (lit "object_") (c :: k))
    with (N.eqb 111 c && startsWith (lit "bject_") k).
  destruct (N.eqb_spec 115 c) as [<-|]; [reflexivity|discriminate].
Qed.

Lemma classify_object (k : jsstring) :
  startsWith (lit "object_") k = group_eqb (classifyAttrName k) GObject.
Proof.
  unfold classifyAttrName.
  destruct (str_eqb k (lit "edge_predicate")) eqn:E.
  - apply str_eqb_eq in E. subst k. reflexivity.
  - destruct (startsWith (lit "subject_") k) eqn:S1.
    + now rewrite (subject_not_object k S1).
    + now destruct (startsWith (lit "object_") k).
Qed.

Lemma classify_statement (k : jsstring) :
  negb (str_eqb k (lit "edge_predicate"))
  && negb (startsWith (lit "subject_") k)
  && negb (startsWith (lit "object_") k)
  = group_eqb (classifyAttrName k) GStatement.
Proof.
  unfold classifyAttrName.
  destruct (str_eqb k (lit "edge_predicate")); [reflexivity|].
  destruct (startsWith (lit "subject_") k); [reflexivity|].
  now destruct (startsWith (lit "object_") k).
Qed.

(** X21.  The attribute order rebuilt for a saved relation on load is
    the grouping the relation modal computes: the subject, object and
    statement lists of [attrOrder] are the groups [splitSpecOrder] forms
    from the same keys, and those three groups together with the
    [edge_predicate] group hold every key exactly as often as it occurs,
    so no attribute is lost or listed under two groups. *)
Theorem load_order_is_modal_grouping (r : SavedRelation) :
  let keys := map fst (match sr_attributes r with Some a => a | None => [] end) in
  let g := splitSpecOrder keys in
  r_attrOrder (hydrate_relation r)
  = Some {| ao_subject := g_subject g;
            ao_object := g_object g;
            ao_statement := g_statement g |}
  /\ Permutation
       (g_subject g ++ g_predicate g ++ g_object g ++ g_statement g) keys.
Proof.
  intros keys g. subst g. rewrite splitSpecOrder_names.
  cbn [g_subject g_predicate g_object g_statement].
  split; [|apply names_in_partition].
  unfold hydrate_relation. cbn [r_attrOrder]. fold keys. unfold names_in.
  f_equal. f_equal.
  - apply filter_ext_all, classify_subject.
  - apply filter_ext_all, classify_object.
  - apply filter_ext_all, classify_statement.
Qed.

(* ================================================================== *)
(** * Class colours *)

Lemma lookup_app_some {A : Type} (k : jsstring) (m m' : list (jsstring * A)) (v : A) :
  lookup k m = Some v -> lookup k (m ++ m') = Some v.
Proof.
  induction m as [|[k' v'] m IH]; simpl; [discriminate|].
  destruct (str_eqb k' k); [trivial|exact IH].
Qed.

Lemma lookup_app_none {A : Type} (k : jsstring) (m m' : list (jsstring * A)) :
  lookup k m = None -> lookup k (m ++ m') = lookup k m'.
Proof.
  induction m as [|[k' v'] m IH]; simpl; [trivial|].
  destruct (str_eqb k' k); [discriminate|exact IH].
Qed.

Lemma lookup_none_notin {A : Type} (k : jsstring) (m : list (jsstring * A)) :
  lookup k m = None <-> ~ In k (map fst m).
Proof.
  induction m as [|[k' v'] m IH]; simpl; [tauto|].
  destruct (str_eqb k' k) eqn:E.
  - apply str_eqb_eq in E. split; [discriminate|tauto].
  - apply str_eqb_neq in E. tauto.
Qed.

Lemma lookup_nth_error {A : Type} (m : list (jsstring * A)) :
  NoDup (map fst m) ->
  forall i k v, nth_error m i = Some (k, v) -> lookup k m = Some v.
Proof.
  induction m as [|[k' v'] m IH]; intros Hnd [|i] k v H; simpl in *;
    try discriminate.
  - injection H as -> ->. now rewrite str_eqb_refl.
  - inversion Hnd as [|? ? Hnotin Hnd']; subst.
    destruct (str_eqb k' k) eqn:E.
    + apply str_eqb_eq in E. subst k'. exfalso. apply Hnotin.
      apply nth_error_In in H. now apply (in_map fst) in H.
    + exact (IH Hnd' i k v H).
Qed.

(** A colour once registered stays. *)
Lemma classColor_keeps (k k' base : jsstring) (reg : Registry) :
  lookup k (CLASS_COLORS reg) = Some base ->
  lookup k (CLASS_COLORS (snd (classColor k' reg))) = Some base.
Proof.
  intros H. unfold classColor. cbn [snd].
  destruct (registered k' reg); [exact H|].
  cbn [CLASS_COLORS]. now apply lookup_app_some.
Qed.

Lemma asked_keeps (ks : list jsstring) :
  forall (k base : jsstring) (reg : Registry),
    lookup k (CLASS_COLORS reg) = Some base ->
    lookup k (CLASS_COLORS (asked ks reg)) = Some base.
Proof.
  induction ks as [|k' ks IH]; intros k base reg H; [exact H|].
  apply IH. now apply classColor_keeps.
Qed.

Lemma classColor_registered (k base : jsstring) (reg : Registry) :
  inherited k = false ->
  lookup k (CLASS_COLORS reg) = Some base ->
  classColor k reg = (Shaded (shades base), reg).
Proof.
  intros Hi H. unfold classColor, registered. rewrite Hi, H.
  cbn [orb]. now rewrite H.
Qed.

Lemma classColor_registers (k : jsstring) (reg : Registry) :
  inherited k = false ->
  exists base,
    lookup k (CLASS_COLORS (snd (classColor k reg))) = Some base
    /\ fst (classColor k reg) = Shaded (shades base).
Proof.
  intros Hi. unfold classColor, registered. rewrite Hi. cbn [orb fst snd].
  destruct (lookup k (CLASS_COLORS reg)) as [base|] eqn:E.
  - exists base. now rewrite E.
  - cbn [CLASS_COLORS]. rewrite (lookup_app_none _ _ _ E). simpl.
    rewrite str_eqb_refl. eexists. split; reflexivity.
Qed.

Lemma classColor_stable_after (k : jsstring) (ks : list jsstring) (reg : Registry) :
  fst (classColor k (asked ks (snd (classColor k reg)))) = fst (classColor k reg).
Proof.
  destruct (inherited k) eqn:Hi.
  - unfold classColor. now rewrite Hi.
  - destruct (classColor_registers k reg Hi) as (base & Hl & ->).
    now rewrite (classColor_registered k base _ Hi (asked_keeps ks k base _ Hl)).
Qed.

(** X22.  A class keeps its colour: once [classColor] has answered for
    a class, it gives the same answer again after any further calls
    for this or other classes. *)
Theorem classColor_is_stable (k : jsstring) (ks : list jsstring) (reg : Registry) :
  fst (classColor k (asked ks (snd (classColor k reg)))) = fst (classColor k reg).
Proof. exact (classColor_stable_after k ks reg). Qed.

(** The colour of rank [i]. *)
Lemma palette_cycle (i : nat) :
  In (nth (i mod length PALETTE) PALETTE []) PALETTE.
Proof. apply nth_In. apply Nat.mod_upper_bound. discriminate. Qed.

Lemma well_formed_empty : well_formed empty_registry.
Proof.
  repeat split; simpl; try constructor; try tauto.
  intros [|i] k b H; discriminate.
Qed.

Lemma classColor_well_formed (k : jsstring) (reg : Registry) :
  well_formed reg -> well_formed (snd (classColor k reg)).
Proof.
  intros (Hnd & Hn & Hin & Hr). unfold classColor. cbn [snd].
  unfold registered.
  destruct (inherited k) eqn:Hi; cbn [orb]; [now repeat split|].
  destruct (lookup k (CLASS_COLORS reg)) eqn:E; [now repeat split|].
  unfold well_formed. cbn [CLASS_COLORS nextColorIdx].
  split; [|split; [|split]].
  - rewrite map_app. simpl.
    apply NoDup_app; [exact Hnd|repeat constructor; simpl; tauto|].
    intros x Hx [<-|[]]. now apply lookup_none_notin in E.
  - rewrite length_app. simpl. lia.
  - intros k'. rewrite map_app, in_app_iff. simpl.
    intros [H|[<-|[]]]; [now apply Hin|exact Hi].
  - intros i k' b H.
    destruct (Nat.lt_ge_cases i (length (CLASS_COLORS reg))) as [Hlt|Hge].
    + rewrite nth_error_app1 in H by exact Hlt. exact (Hr i k' b H).
    + rewrite nth_error_app2 in H by exact Hge.
      destruct (i - length (CLASS_COLORS reg)) as [|d] eqn:Ed.
      * simpl in H. injection H as <- <-.
        replace i with (nextColorIdx reg) by lia. reflexivity.
      * destruct d; discriminate.
Qed.

Lemma asked_well_formed (ks : list jsstring) :
  forall reg, well_formed reg -> well_formed (asked ks reg).
Proof.
  induction ks as [|k ks IH]; intros reg H; [exact H|].
  apply IH. now apply classColor_well_formed.
Qed.

Lemma PALETTE_NoDup : NoDup PALETTE.
Proof.
  apply (NoDup_map_inv (fun s => s)). rewrite map_id.
  unfold PALETTE.
  apply (Finite.Injective_map_NoDup); [exact lit_inj|].
  repeat (constructor; [simpl; intuition discriminate|]). constructor.
Qed.

Lemma shades_inj (a b : jsstring) : shades a = shades b -> a = b.
Proof.
  unfold shades. intros H. injection H as H _ _.
  now apply app_inv_tail in H.
Qed.

(** X23.  Colours are handed out in palette order, by the order in which
    classes are first asked for: after any calls made since the page
    was loaded, the class registered at rank [i] is answered with the
    shades of palette entry [i mod 16]; two classes at different ranks
    below 16 get different colours, and the class at rank [i + 16], if
    any, shares the colour of rank [i]. *)
Theorem colours_follow_first_use (ks : list jsstring) (i : nat) (k b : jsstring) :
  let reg := asked ks empty_registry in
  nth_error (CLASS_COLORS reg) i = Some (k, b) ->
  fst (classColor k reg) = Shaded (shades (nth (i mod 16) PALETTE []))
  /\ (forall j k' b', nth_error (CLASS_COLORS reg) j = Some (k', b') ->
        i < 16 -> j < 16 -> i <> j ->
        fst (classColor k' reg) <> fst (classColor k reg))
  /\ (forall k' b', nth_error (CLASS_COLORS reg) (i + 16) = Some (k', b') ->
        fst (classColor k' reg) = fst (classColor k reg)).
Proof.
  intros reg H.
  destruct (asked_well_formed ks empty_registry well_formed_empty)
    as (Hnd & Hn & Hin & Hr). fold reg in Hnd, Hn, Hin, Hr.
  assert (Hcol : forall j kj bj,
             nth_error (CLASS_COLORS reg) j = Some (kj, bj) ->
             fst (classColor kj reg)
             = Shaded (shades (nth (j mod 16) PALETTE []))).
  { intros j kj bj Hj.
    assert (Hij : inherited kj = false).
    { apply Hin. apply nth_error_In in Hj. now apply (in_map fst) in Hj. }
    rewrite (classColor_registered kj bj reg Hij (lookup_nth_error _ Hnd j kj bj Hj)).
    cbn [fst]. now rewrite (Hr j kj bj Hj). }
  split; [exact (Hcol i k b H)|split].
  - intros j k' b' Hj Hi16 Hj16 Hne.
    rewrite (Hcol i k b H), (Hcol j k' b' Hj).
    rewrite !Nat.mod_small by assumption.
    intros Heq. injection Heq as Heq. apply app_inv_tail in Heq.
    apply Hne. symmetry.
    apply (proj1 (NoDup_nth PALETTE []) PALETTE_NoDup); try exact Heq;
      simpl; lia.
  - intros k' b' Hj.
    rewrite (Hcol i k b H), (Hcol (i + 16) k' b' Hj).
    replace ((i + 16) mod 16) with (i mod 16); [reflexivity|].
    rewrite <- (Nat.Div0.add_mod_idemp_r i 16 16).
    now rewrite Nat.Div0.mod_same, Nat.add_0_r.
Qed.

Lemma colours_follow_first_use_witness :
  let ks := [lit "Person"; lit "Org"; lit "Person"; lit "toString"; lit "Place"] in
  nth_error (CLASS_COLORS (asked ks empty_registry)) 2
  = Some (lit "Place", lit "#fffa00")
  /\ fst (classColor (lit "Place") (asked ks empty_registry))
     = Shaded (shades (lit "#fffa00")).
Proof.
  split; [vm_compute; reflexivity|].
  exact (proj1 (colours_follow_first_use
                  [lit "Person"; lit "Org"; lit "Person"; lit "toString"; lit "Place"]
                  2 (lit "Place") (lit "#fffa00") eq_refl)).
Defined.

(* ================================================================== *)
(** * Highlights *)

Lemma find_update_other {A : Type} (p q : A -> bool) (f : A -> A) (l : list A) :
  (forall x, p x = true -> q x = false) ->
  (forall x, q (f x) = q x) ->
  find q (update_first p f l) = find q l.
Proof.
  intros Hpq Hq. induction l as [|x l IH]; simpl; [reflexivity|].
  destruct (p x) eqn:E; simpl.
  - now rewrite Hq, (Hpq x E).
  - now rewrite IH.
Qed.

Lemma query_paint_at (s : Shade) (k : jsstring) (page : list TokenNode) (i j : nat) :
  querySelector i (paint_at s k page j)
  = if i =? j then option_map (paint s k) (querySelector i page)
    else querySelector i page.
Proof.
  unfold querySelector, paint_at.
  destruct (Nat.eqb_spec i j) as [->|Hne].
  - now apply find_update_first.
  - apply find_update_other; [|reflexivity].
    intros x Hx. apply Nat.eqb_eq in Hx. apply Nat.eqb_neq. lia.
Qed.

Lemma paint_twice (s s' : Shade) (k k' : jsstring) (o : option TokenNode) :
  option_map (paint s k) (option_map (paint s' k') o) = option_map (paint s k) o.
Proof. now destruct o. Qed.

Lemma query_paint_all (s : Shade) (k : jsstring) (i : nat) (l : list nat) :
  forall page,
    querySelector i (fold_left (paint_at s k) l page)
    = if existsb (Nat.eqb i) l
      then option_map (paint s k) (querySelector i page)
      else querySelector i page.
Proof.
  induction l as [|j l IH]; intros page; simpl; [reflexivity|].
  rewrite IH, query_paint_at.
  destruct (i =? j); simpl; [|reflexivity].
  destruct (existsb (Nat.eqb i) l); [apply paint_twice|reflexivity].
Qed.

Lemma existsb_seq (i a n : nat) :
  existsb (Nat.eqb i) (seq a n) = (a <=? i) && (i <? a + n).
Proof.
  apply eq_true_iff_eq.
  rewrite existsb_exists, andb_true_iff, Nat.leb_le, Nat.ltb_lt.
  split.
  - intros (x & Hin & Hx). apply Nat.eqb_eq in Hx. subst x.
    apply in_seq in Hin. lia.
  - intros H. exists i. split; [apply in_seq; lia|apply Nat.eqb_refl].
Qed.

Lemma query_paint_range (s : Shade) (a : Entity) (i : nat) (page : list TokenNode) :
  querySelector i (paint_range s (e_class a) (e_tokenRange a) page)
  = if covers i a
    then option_map (paint s (e_class a)) (querySelector i page)
    else querySelector i page.
Proof.
  unfold paint_range, covers. rewrite query_paint_all, existsb_seq.
  replace (i <? fst (e_tokenRange a) + (S (snd (e_tokenRange a)) - fst (e_tokenRange a)))
    with ((i <=? snd (e_tokenRange a))
          || negb (fst (e_tokenRange a) <=? i)).
  - destruct (fst (e_tokenRange a) <=? i); simpl; [|reflexivity].
    now rewrite orb_false_r.
  - apply eq_true_iff_eq.
    rewrite orb_true_iff, negb_true_iff, Nat.leb_le, Nat.leb_gt, Nat.ltb_lt. lia.
Qed.

Lemma highlight_loop_registry (annos : list Entity) :
  forall page reg,
    snd (highlight_loop annos page reg) = asked (map e_class annos) reg.
Proof.
  induction annos as [|a rest IH]; intros page reg; [reflexivity|].
  cbn [highlight_loop map].
  change (asked (e_class a :: map e_class rest) reg)
    with (asked (map e_class rest) (snd (classColor (e_class a) reg))).
  destruct (classColor (e_class a) reg) as [s reg'].
  now rewrite IH.
Qed.

Lemma find_rev_snoc {A : Type} (p : A -> bool) (l : list A) (a : A) :
  find p (rev (a :: l))
  = match find p (rev l) with
    | Some b => Some b
    | None => if p a then Some a else None
    end.
Proof.
  simpl. induction (rev l) as [|x r IH]; simpl; [reflexivity|].
  destruct (p x); [reflexivity|exact IH].
Qed.

Lemma highlight_loop_query (annos : list Entity) (i : nat) :
  forall page reg,
    querySelector i (fst (highlight_loop annos page reg))
    = match find (covers i) (rev annos) with
      | Some a =>
          option_map
            (paint (fst (classColor (e_class a)
                           (snd (highlight_loop annos page reg))))
               (e_class a))
            (querySelector i page)
      | None => querySelector i page
      end.
Proof.
  induction annos as [|a rest IH]; intros page reg; [reflexivity|].
  rewrite find_rev_snoc.
  cbn [highlight_loop].
  destruct (classColor (e_class a) reg) as [s reg'] eqn:E.
  rewrite IH, query_paint_range.
  destruct (find (covers i) (rev rest)) as [b|].
  - destruct (covers i a); [apply paint_twice|reflexivity].
  - destruct (covers i a); [|reflexivity].
    rewrite highlight_loop_registry.
    replace reg' with (snd (classColor (e_class a) reg)) by now rewrite E.
    rewrite classColor_stable_after. now rewrite E.
Qed.

Lemma query_reset (i : nat) (page : list TokenNode) :
  querySelector i (map reset_node page)
  = option_map reset_node (querySelector i page).
Proof.
  unfold querySelector. induction page as [|n page IH]; simpl; [reflexivity|].
  destruct (n_idx n =? i); [reflexivity|exact IH].
Qed.

(** X24.  What a token shows after [applyAnnotationHighlights]: every
    token node of the page is still found under its index and is not
    marked selected; a token covered by no entity's token range is
    transparent, not annotated and without label; a token covered by
    several entities carries the class and the colour of the one that
    comes last in [state.annotations]. *)
Theorem highlight_shows_last_covering_entity (st : State) (page : list TokenNode)
    (reg : Registry) (i : nat) :
  let page' := fst (applyAnnotationHighlights st page reg) in
  let reg' := snd (applyAnnotationHighlights st page reg) in
  match querySelector i page' with
  | None => querySelector i page = None
  | Some n =>
      querySelector i page <> None
      /\ n_idx n = i
      /\ n_selected n = false
      /\ match find (covers i) (rev (annotations st)) with
         | None =>
             n_annotated n = false /\ n_label n = None
             /\ n_background n = Transparent
         | Some a =>
             n_annotated n = true /\ n_label n = Some (e_class a)
             /\ n_background n = Painted (fst (classColor (e_class a) reg'))
         end
  end.
Proof.
  intros page' reg'. subst page' reg'. unfold applyAnnotationHighlights.
  rewrite highlight_loop_query, query_reset.
  assert (Hidx : forall n, querySelector i page = Some n -> n_idx n = i).
  { intros n H. apply find_some in H. now apply Nat.eqb_eq. }
  destruct (querySelector i page) as [n|] eqn:Q.
  - specialize (Hidx n eq_refl).
    destruct (find (covers i) (rev (annotations st))) as [a|]; simpl;
      repeat split; try discriminate; exact Hidx.
  - now destruct (find (covers i) (rev (annotations st))).
Qed.

(* ================================================================== *)
(** * Referential integrity under entity edits *)

Lemma ids_has_entityById (st : State) (id : jsstring) :
  ids_has (annotations st) (Some id) = true <-> entityById st id <> None.
Proof.
  rewrite ids_has_true. unfold entityById. split.
  - intros (a & Ha & E). injection E as E.
    destruct (find (fun a0 => str_eqb (e_id a0) id) (annotations st)) eqn:F;
      [discriminate|].
    apply (find_none _ _ F) in Ha. rewrite E, str_eqb_refl in Ha. discriminate.
  - destruct (find (fun a0 => str_eqb (e_id a0) id) (annotations st)) as [a|] eqn:F;
      [|congruence].
    intros _. apply find_some in F. destruct F as [Ha E].
    apply str_eqb_eq in E. exists a. now rewrite E.
Qed.

Lemma ids_has_same_ids (l l' : list Entity) (x : option jsstring) :
  map e_id l' = map e_id l -> ids_has l' x = ids_has l x.
Proof.
  unfold ids_has. revert l'.
  induction l as [|a l IH]; intros [|a' l'] E; try discriminate; [reflexivity|].
  simpl in *. injection E as E1 E2. now rewrite E1, (IH l' E2).
Qed.

Lemma ids_has_app (l l' : list Entity) (x : option jsstring) :
  ids_has l x = true -> ids_has (l ++ l') x = true.
Proof. unfold ids_has. rewrite existsb_app. now intros ->. Qed.

Lemma run_op_referential_integrity (st : State) (op : EntityOp) :
  referential_integrity st -> referential_integrity (run_op st op).
Proof.
  intros Hri.
  assert (Hconfirm : forall form s,
            annotations s = annotations st -> relations s = relations st ->
            referential_integrity (settle s (confirmSaveAnnotation form s))).
  { intros form s Ea Er.
    assert (Hs : referential_integrity s).
    { intros r Hr. rewrite Ea. rewrite Er in Hr. now apply Hri. }
    destruct (confirmSaveAnnotation form s) as [s'|] eqn:E; simpl; [|exact Hs].
    destruct (confirmSaveAnnotation_returned _ _ _ E) as (_ & Hrel & Hann).
    intros r Hr. rewrite Hrel in Hr. destruct (Hs r Hr) as [H1 H2].
    destruct Hann as [-> | [Hann | Hann]]; [now split| |].
    - destruct Hann as (klass & a & b & ta & tb & _ & _ & _ & _ & _ & ->).
      split; now apply ids_has_app.
    - destruct Hann as (klass & _ & _ & ->).
      split; (erewrite ids_has_same_ids;
              [eassumption|now apply update_first_map]). }
  destruct op as [a b form | id form | id]; simpl.
  - now apply Hconfirm.
  - now apply Hconfirm.
  - unfold deleteAnnotation. simpl. intros r Hr. simpl in *.
    apply filter_In in Hr. destruct Hr as [Hr Hkeep].
    apply andb_true_iff in Hkeep. destruct Hkeep as [Hs Ho].
    apply negb_true_iff in Hs, Ho.
    destruct (Hri r Hr) as [H1 H2].
    assert (Hstay : forall x, ostr_eqb x (Some id) = false ->
              ids_has (annotations st) x = true ->
              ids_has (filter (fun a => negb (ostr_eqb (Some (e_id a)) (Some id)))
                         (annotations st)) x = true).
    { intros x Hx Hin. apply ids_has_true in Hin. destruct Hin as (a & Ha & E).
      apply ids_has_true. exists a. split; [|exact E].
      apply filter_In. split; [exact Ha|]. now rewrite E, Hx. }
    split; now apply Hstay.
Qed.

(** X25.  Entity edits keep referential integrity: if both endpoints of
    every relation are ids of entities, they still are after any run of
    creating, editing and deleting entities -- a delete takes the
    relations of the deleted entity with it, and no edit changes an id. *)
Theorem entity_ops_keep_referential_integrity (st : State) (ops : list EntityOp) :
  referential_integrity st -> referential_integrity (run_ops st ops).
Proof.
  revert st. induction ops as [|op ops IH]; intros st H; [exact H|].
  apply IH. now apply run_op_referential_integrity.
Qed.

Lemma entity_ops_keep_referential_integrity_witness :
  let st' := run_ops st_since [OpCreate 0 0 person_form; OpDelete (lit "T1")] in
  relations st_since = [relation_AB]
  /\ relations st' = []
  /\ referential_integrity st'.
Proof.
  intros st'. split; [reflexivity|]. split; [vm_compute; reflexivity|].
  apply (entity_ops_keep_referential_integrity st_since
           [OpCreate 0 0 person_form; OpDelete (lit "T1")]).
  intros r [<-|[]]. split; vm_compute; reflexivity.
Defined.

Section DanglingProperties.

Variable number_isNaN : AttrValue -> bool.

Lemma check_attr_head (st : State) (name : jsstring) (aspec : AttrSpec)
    (v : Member AttrValue) (m : jsstring) :
  check_attr number_isNaN st name aspec v = Some m ->
  exists rest, m = 77%N :: rest \/ m = 39%N :: rest.
Proof.
  unfold check_attr.
  destruct (is_blank v && _).
  - intros H; injection H as <-. eexists. left. reflexivity.
  - destruct (is_blank v); [discriminate|].
    destruct v as [x| |]; [| |discriminate].
    + destruct (as_kind aspec) as [allowed| |classes|]; try discriminate.
      * destruct (existsb (value_eqb x) allowed); [discriminate|].
        intros H; injection H as <-. eexists. right. reflexivity.
      * destruct (number_isNaN x); [|discriminate].
        intros H; injection H as <-. eexists. right. reflexivity.
      * destruct (entityByValue st x) as [ent|];
          [destruct (includes classes (e_class ent)); [discriminate|]|];
          intros H; injection H as <-; eexists; right; reflexivity.
    + destruct (as_kind aspec) as [allowed| |classes|]; try discriminate;
        intros H; injection H as <-; eexists; right; reflexivity.
Qed.

Lemma check_attrs_head (st : State) (values : attrs)
    (specs : list (jsstring * AttrSpec)) (m : jsstring) :
  check_attrs number_isNaN st values specs = Some m ->
  exists rest, m = 77%N :: rest \/ m = 39%N :: rest.
Proof.
  induction specs as [|[name aspec] specs IH]; simpl; [discriminate|].
  destruct (check_attr number_isNaN st name aspec (get name values)) eqn:E.
  - intros H; injection H as <-. exact (check_attr_head _ _ _ _ _ E).
  - exact IH.
Qed.

(** X26.  "Dangling entity reference" is reported for exactly the
    relations that are complete, whose predicate
    [state.relationsMeta[r.predicate]] finds -- as a key of the schema
    or as one of the names every object inherits from
    [Object.prototype] -- and whose subject or object is not the id of
    an entity; no other check produces this message. *)
Theorem dangling_reported_iff (st : State) (r : Relation) :
  check_relation number_isNaN st r = Some msg_dangling
  <-> exists s o p,
        r_subject r = Some s /\ s <> []
        /\ r_object r = Some o /\ o <> []
        /\ r_predicate r = Some p /\ trim p <> []
        /\ (lookup p (relationsMeta st) <> None \/ inherited p = true)
        /\ (ids_has (annotations st) (Some s) = false
            \/ ids_has (annotations st) (Some o) = false).
Proof.
  assert (Hfound : forall p,
            relationsMeta_at st p <> None
            <-> (lookup p (relationsMeta st) <> None \/ inherited p = true)).
  { intros p. unfold relationsMeta_at, get.
    destruct (lookup p (relationsMeta st)); [split; [left|]; congruence|].
    destruct (inherited p); split; try congruence; try (right; reflexivity).
    intros [H|H]; congruence. }
  unfold check_relation. split.
  - destruct (r_subject r) as [[|s0 s]|]; try discriminate.
    destruct (r_object r) as [[|o0 o]|]; try discriminate.
    destruct (r_predicate r) as [[|p0 p]|]; try discriminate.
    destruct (trim (p0 :: p)) eqn:Et; [discriminate|].
    destruct (relationsMeta_at st (p0 :: p)) as [spec|] eqn:El;
      [|discriminate].
    intros H.
    exists (s0 :: s), (o0 :: o), (p0 :: p).
    split; [reflexivity|]. split; [discriminate|].
    split; [reflexivity|]. split; [discriminate|].
    split; [reflexivity|]. split; [congruence|].
    split; [apply Hfound; congruence|].
    destruct (entityById st (s0 :: s)) as [left_|] eqn:Es.
    + destruct (entityById st (o0 :: o)) as [right_|] eqn:Eo.
      * exfalso.
        destruct (negb _ && negb _); [discriminate|].
        apply check_attrs_head in H. destruct H as (rest & [H|H]); discriminate.
      * right. apply not_true_is_false. intros Hin.
        apply ids_has_entityById in Hin. congruence.
    + left. apply not_true_is_false. intros Hin.
      apply ids_has_entityById in Hin. congruence.
  - intros (s & o & p & -> & Hs & -> & Ho & -> & Hp & Hspec & Hid).
    destruct s as [|s0 s]; [congruence|]. destruct o as [|o0 o]; [congruence|].
    destruct p as [|p0 p]; [now destruct Hp|].
    destruct (trim (p0 :: p)); [congruence|].
    apply Hfound in Hspec.
    destruct (relationsMeta_at st (p0 :: p)) as [spec|]; [|congruence].
    destruct (entityById st (s0 :: s)) as [left_|] eqn:Es;
      [|reflexivity].
    destruct (entityById st (o0 :: o)) as [right_|] eqn:Eo;
      [|reflexivity].
    exfalso. destruct Hid as [Hid|Hid];
      apply not_true_iff_false in Hid; apply Hid, ids_has_entityById; congruence.
Qed.

End DanglingProperties.
